(** * A binary search tree with parent links: model and verification

    The program is [binary-search-tree.js]: a [BinarySearchTree] object
    holding a [root] reference and a [numNodes] counter, and [Node] objects
    holding [key], [value], [parent], [leftChild] and [rightChild].

    The embedding keeps the program's pointer structure.  Node objects live
    in an object heap (a list used as an arena: the reference of an object is
    its index, [new] appends, nothing is ever freed), references that may be
    [null] are [option loc], and the methods that assign to fields are
    written in a small state-and-exception monad over the heap.  Keys are
    integers, compared with [<] and [>] as the program does; values are of an
    arbitrary type [V].  The loops of the source are structurally recursive
    functions on a step budget taken from the size of the heap; a loop that
    exhausts it yields [Diverge].  On every heap the container can build the
    budget suffices: each property below that says a call returns is proved
    with the call's result, not under the assumption that there is one.

    The proofs relate the heap to the binary tree of references it draws
    ([rep]), and follow a node up to the root through the path of its
    ancestors ([frame], [plug], [rep_ctx]). *)

From Stdlib Require Import ZArith List Lia Sorted.
From stdpp Require Import base option list sorting relations.

Open Scope Z_scope.

(** References to [Node] objects. *)
Abbreviation loc := nat.

(** What a call can do besides returning: the two strings the program throws,
    and the [TypeError] JavaScript raises on a property access through
    [null]. *)
Inductive exn :=
  | DuplicateKeyError (k : Z)
  | KeyNotFoundError
  | TypeError.

Inductive outcome (A : Type) :=
  | Ret (a : A)
  | Throw (e : exn)
  | Diverge.
Arguments Ret {A} a.
Arguments Throw {A} e.
Arguments Diverge {A}.

(** What a method without a [return] statement hands back, as opposed to a
    node reference. *)
Inductive retval :=
  | Undefined
  | Reference (a : loc).

#[global] Instance outcome_ret : MRet outcome := @Ret.
#[global] Instance outcome_bind : MBind outcome := λ A B f m,
  match m with
  | Ret a => f a
  | Throw e => Throw e
  | Diverge => Diverge
  end.

Section BinarySearchTree.
Context {V : Type}.

(** ** Objects *)

(** [BinarySearchTree.prototype.Node]. *)
Record Node := mkNode {
  key : Z;
  value : V;
  parent : option loc;
  leftChild : option loc;
  rightChild : option loc
}.

Abbreviation heap := (list Node).

Definition set_parent (p : option loc) (nd : Node) : Node :=
  mkNode (key nd) (value nd) p (leftChild nd) (rightChild nd).
Definition set_leftChild (c : option loc) (nd : Node) : Node :=
  mkNode (key nd) (value nd) (parent nd) c (rightChild nd).
Definition set_rightChild (c : option loc) (nd : Node) : Node :=
  mkNode (key nd) (value nd) (parent nd) (leftChild nd) c.

(** The [BinarySearchTree] object ([root], [numNodes]) together with the heap
    of node objects its references point into. *)
Record store := mkStore {
  root : option loc;
  numNodes : Z;
  nodes : heap
}.

(** [new BinarySearchTree()]. *)
Definition empty_tree : store := mkStore None 0 [].

(** ** Reading the heap *)

(** Property access through a reference. *)
Definition read (h : heap) (a : loc) : outcome Node :=
  match h !! a with
  | Some nd => Ret nd
  | None => Throw TypeError
  end.

(** [Node.prototype.min]. *)
Fixpoint min_loop (fuel : nat) (h : heap) (currNode : loc) : outcome loc :=
  match fuel with
  | O => Diverge
  | S fuel' =>
      nd ← read h currNode;
      match leftChild nd with
      | Some l => min_loop fuel' h l
      | None => Ret currNode
      end
  end.

Definition Node_min (h : heap) (this : loc) : outcome loc :=
  min_loop (length h) h this.

(** [Node.prototype.max]. *)
Fixpoint max_loop (fuel : nat) (h : heap) (currNode : loc) : outcome loc :=
  match fuel with
  | O => Diverge
  | S fuel' =>
      nd ← read h currNode;
      match rightChild nd with
      | Some r => max_loop fuel' h r
      | None => Ret currNode
      end
  end.

Definition Node_max (h : heap) (this : loc) : outcome loc :=
  max_loop (length h) h this.

(** [Node.prototype.get]: the body of the [do ... while] loop; the loop test
    [currNode !== null] is the match on the child. *)
Fixpoint get_loop (fuel : nat) (h : heap) (k : Z) (currNode : loc)
  : outcome (option loc) :=
  match fuel with
  | O => Diverge
  | S fuel' =>
      nd ← read h currNode;
      if k <? key nd then
        match leftChild nd with
        | Some l => get_loop fuel' h k l
        | None => Ret None
        end
      else if k >? key nd then
        match rightChild nd with
        | Some r => get_loop fuel' h k r
        | None => Ret None
        end
      else Ret (Some currNode)
  end.

Definition Node_get (h : heap) (this : loc) (k : Z) : outcome (option loc) :=
  get_loop (length h) h k this.

(** [Node.prototype.traverse].  [ancestors] is the explicit stack, its top at
    the head of the list; the callback receives the node and threads whatever
    it accumulates. *)
Fixpoint traverse_loop {A : Type} (fuel : nat) (h : heap)
    (callback : loc → A → A) (ancestors : list loc) (currNode : option loc)
    (acc : A) : outcome A :=
  match fuel with
  | O => Diverge
  | S fuel' =>
      match currNode with
      | None =>
          match ancestors with
          | [] => Ret acc
          | top :: rest =>
              nd ← read h top;
              traverse_loop fuel' h callback rest (rightChild nd)
                (callback top acc)
          end
      | Some c =>
          nd ← read h c;
          traverse_loop fuel' h callback (c :: ancestors) (leftChild nd) acc
      end
  end.

Definition Node_traverse {A : Type} (h : heap) (this : loc)
    (callback : loc → A → A) (acc : A) : outcome A :=
  nd ← read h this;
  traverse_loop (2 * length h + 1) h callback [this] (leftChild nd) acc.

(** [Node.prototype.predecessor]. *)
Fixpoint predecessor_loop (fuel : nat) (h : heap) (prevNode : loc)
    (currNode : option loc) : outcome (option loc) :=
  match fuel with
  | O => Diverge
  | S fuel' =>
      match currNode with
      | None => Ret None
      | Some c =>
          nd ← read h c;
          if decide (rightChild nd = Some prevNode) then Ret (Some c)
          else predecessor_loop fuel' h c (parent nd)
      end
  end.

Definition Node_predecessor (h : heap) (this : loc) : outcome (option loc) :=
  nd ← read h this;
  match leftChild nd with
  | Some l => m ← Node_max h l; Ret (Some m)
  | None => predecessor_loop (S (length h)) h this (parent nd)
  end.

(** [Node.prototype.successor]. *)
Fixpoint successor_loop (fuel : nat) (h : heap) (prevNode : loc)
    (currNode : option loc) : outcome (option loc) :=
  match fuel with
  | O => Diverge
  | S fuel' =>
      match currNode with
      | None => Ret None
      | Some c =>
          nd ← read h c;
          if decide (leftChild nd = Some prevNode) then Ret (Some c)
          else successor_loop fuel' h c (parent nd)
      end
  end.

Definition Node_successor (h : heap) (this : loc) : outcome (option loc) :=
  nd ← read h this;
  match rightChild nd with
  | Some r => m ← Node_min h r; Ret (Some m)
  | None => successor_loop (S (length h)) h this (parent nd)
  end.

(** ** Writing the heap *)

(** Computations that may assign to fields of node objects, allocate, and
    throw.  The heap comes back in every case, so that what a failing call
    left behind can be stated. *)
Definition M (A : Type) : Type := heap → outcome A * heap.

Definition ret {A : Type} (a : A) : M A := λ h, (Ret a, h).
Definition throw {A : Type} (e : exn) : M A := λ h, (Throw e, h).
Definition bind {A B : Type} (m : M A) (f : A → M B) : M B := λ h,
  match m h with
  | (Ret a, h') => f a h'
  | (Throw e, h') => (Throw e, h')
  | (Diverge, h') => (Diverge, h')
  end.

(** Run a read-only method. *)
Definition lift {A : Type} (f : heap → outcome A) : M A := λ h, (f h, h).
(** Read the fields of an object. *)
Definition load (a : loc) : M Node := lift (λ h, read h a).
(** Assign to a field of an object. *)
Definition assign (a : loc) (f : Node → Node) : M unit := λ h,
  match h !! a with
  | Some _ => (Ret tt, alter f a h)
  | None => (Throw TypeError, h)
  end.
(** [new BinarySearchTree.prototype.Node(key, value, parent)]. *)
Definition new_Node (k : Z) (v : V) (p : option loc) : M loc := λ h,
  (Ret (length h), h ++ [mkNode k v p None None]).
(** Going through a reference that may be [null]. *)
Definition nonnull (o : option loc) : M loc :=
  match o with
  | Some a => ret a
  | None => throw TypeError
  end.

Notation "x <- m ;; f" := (bind m (λ x, f))
  (at level 20, m at level 99, f at level 200, only parsing).
Notation "m ;;; f" := (bind m (λ _, f))
  (at level 20, f at level 200, only parsing).

(** [Node.prototype.insert]. *)
Fixpoint insert_loop (fuel : nat) (k : Z) (v : V) (currNode : loc) : M loc :=
  match fuel with
  | O => λ h, (Diverge, h)
  | S fuel' =>
      nd <- load currNode ;;
      if k <? key nd then
        match leftChild nd with
        | None =>
            n <- new_Node k v (Some currNode) ;;
            assign currNode (set_leftChild (Some n)) ;;;
            ret n
        | Some l => insert_loop fuel' k v l
        end
      else if k >? key nd then
        match rightChild nd with
        | None =>
            n <- new_Node k v (Some currNode) ;;
            assign currNode (set_rightChild (Some n)) ;;;
            ret n
        | Some r => insert_loop fuel' k v r
        end
      else throw (DuplicateKeyError k)
  end.

Definition Node_insert (this : loc) (k : Z) (v : V) : M loc := λ h,
  insert_loop (length h) k v this h.

(** [Node.prototype.replaceWith]. *)
Definition Node_replaceWith (this : loc) (node : option loc) : M unit :=
  this_nd <- load this ;;
  let parent := parent this_nd in
  match node with
  | Some n => assign n (set_parent parent)
  | None => ret tt
  end ;;;
  match parent with
  | None => ret tt
  | Some p =>
      p_nd <- load p ;;
      if decide (leftChild p_nd = Some this)
      then assign p (set_leftChild node)
      else assign p (set_rightChild node)
  end.

(** [Node.prototype.adoptLeftChild]. *)
Definition Node_adoptLeftChild (this : loc) (node : loc) : M unit :=
  node_nd <- load node ;;
  c <- nonnull (leftChild node_nd) ;;
  assign c (set_parent (Some this)) ;;;
  node_nd' <- load node ;;
  assign this (set_leftChild (leftChild node_nd')).

(** [Node.prototype.adoptRightChild]. *)
Definition Node_adoptRightChild (this : loc) (node : loc) : M unit :=
  node_nd <- load node ;;
  c <- nonnull (rightChild node_nd) ;;
  assign c (set_parent (Some this)) ;;;
  node_nd' <- load node ;;
  assign this (set_rightChild (rightChild node_nd')).

(** The test [this.parent === null || this.parent.leftChild === this]. *)
Definition is_root_or_leftChild (this : loc) : M bool :=
  this_nd <- load this ;;
  match parent this_nd with
  | None => ret true
  | Some p =>
      p_nd <- load p ;;
      ret (bool_decide (leftChild p_nd = Some this))
  end.

(** [Node.prototype.remove]. *)
Definition Node_remove (this : loc) : M (option loc) :=
  this_nd <- load this ;;
  replacementNode <-
    match rightChild this_nd with
    | None => ret (leftChild this_nd)
    | Some r =>
        match leftChild this_nd with
        | None => ret (Some r)
        | Some l =>
            b <- is_root_or_leftChild this ;;
            if b : bool then
              m <- lift (λ h, Node_max h l) ;;
              (if decide (m ≠ l) then
                 m_nd <- load m ;;
                 Node_replaceWith m (leftChild m_nd) ;;;
                 Node_adoptLeftChild m this
               else ret tt) ;;;
              Node_adoptRightChild m this ;;;
              ret (Some m)
            else
              m <- lift (λ h, Node_min h r) ;;
              (if decide (m ≠ r) then
                 m_nd <- load m ;;
                 Node_replaceWith m (rightChild m_nd) ;;;
                 Node_adoptRightChild m this
               else ret tt) ;;;
              Node_adoptLeftChild m this ;;;
              ret (Some m)
        end
    end ;;
  Node_replaceWith this replacementNode ;;;
  ret replacementNode.

(** ** The container *)

(** [BinarySearchTree.prototype.traverse]. *)
Definition BinarySearchTree_traverse {A : Type} (s : store)
    (callback : loc → A → A) (acc : A) : outcome A :=
  match root s with
  | Some r => Node_traverse (nodes s) r callback acc
  | None => Ret acc
  end.

(** [BinarySearchTree.prototype.min]. *)
Definition BinarySearchTree_min (s : store) : outcome (option loc) :=
  match root s with
  | None => Ret None
  | Some r => m ← Node_min (nodes s) r; Ret (Some m)
  end.

(** [BinarySearchTree.prototype.max]. *)
Definition BinarySearchTree_max (s : store) : outcome (option loc) :=
  match root s with
  | None => Ret None
  | Some r => m ← Node_max (nodes s) r; Ret (Some m)
  end.

(** [BinarySearchTree.prototype.get]. *)
Definition BinarySearchTree_get (s : store) (k : Z) : outcome (option loc) :=
  match root s with
  | None => Ret None
  | Some r => Node_get (nodes s) r k
  end.

(** [BinarySearchTree.prototype.insert].  The result of [this.root.insert] is
    dropped and the method has no [return]; [numNodes++] is reached only when
    nothing was thrown. *)
Definition BinarySearchTree_insert (k : Z) (v : V) (s : store)
  : outcome retval * store :=
  match root s with
  | None =>
      match new_Node k v None (nodes s) with
      | (Ret n, h') => (Ret Undefined, mkStore (Some n) (numNodes s + 1) h')
      | (Throw e, h') => (Throw e, mkStore (root s) (numNodes s) h')
      | (Diverge, h') => (Diverge, mkStore (root s) (numNodes s) h')
      end
  | Some r =>
      match Node_insert r k v (nodes s) with
      | (Ret _, h') => (Ret Undefined, mkStore (root s) (numNodes s + 1) h')
      | (Throw e, h') => (Throw e, mkStore (root s) (numNodes s) h')
      | (Diverge, h') => (Diverge, mkStore (root s) (numNodes s) h')
      end
  end.

(** [BinarySearchTree.prototype.remove]. *)
Definition BinarySearchTree_remove (k : Z) (s : store)
  : outcome retval * store :=
  match BinarySearchTree_get s k with
  | Ret None => (Throw KeyNotFoundError, s)
  | Ret (Some nodeToRemove) =>
      match Node_remove nodeToRemove (nodes s) with
      | (Ret replacementNode, h') =>
          (Ret Undefined,
           mkStore (if decide (root s = Some nodeToRemove)
                    then replacementNode else root s)
                   (numNodes s - 1) h')
      | (Throw e, h') => (Throw e, mkStore (root s) (numNodes s) h')
      | (Diverge, h') => (Diverge, mkStore (root s) (numNodes s) h')
      end
  | Throw e => (Throw e, s)
  | Diverge => (Diverge, s)
  end.

(** [BinarySearchTree.prototype.size]. *)
Definition BinarySearchTree_size (s : store) : Z := numNodes s.

(** ** What the container shows *)

(** The nodes in the order [traverse] visits them, with a callback that
    appends each node it is given. *)
Definition visited (s : store) : outcome (list loc) :=
  BinarySearchTree_traverse s (λ a acc, acc ++ [a]) [].

(** The keys, and the key/value pairs, of a list of nodes. *)
Definition key_at (h : heap) (a : loc) : option Z := key <$> h !! a.
Definition pair_at (h : heap) (a : loc) : option (Z * V) :=
  (λ nd, (key nd, value nd)) <$> h !! a.

Definition visited_keys (s : store) : outcome (list Z) :=
  l ← visited s; Ret (omap (key_at (nodes s)) (l : list loc)).
Definition visited_pairs (s : store) : outcome (list (Z * V)) :=
  l ← visited s; Ret (omap (pair_at (nodes s)) (l : list loc)).

(** Following child links. *)
Definition child (h : heap) (a b : loc) : Prop :=
  ∃ nd, h !! a = Some nd ∧ (leftChild nd = Some b ∨ rightChild nd = Some b).

Definition reachable (h : heap) (from : option loc) (x : loc) : Prop :=
  ∃ a, from = Some a ∧ rtc (child h) a x.

(** Sequences of container operations.  A call that throws is followed by
    the next call, on the store the failing call left. *)
Inductive op :=
  | Insert (k : Z) (v : V)
  | Remove (k : Z).

Definition step (s : store) (o : op) : store :=
  match o with
  | Insert k v => snd (BinarySearchTree_insert k v s)
  | Remove k => snd (BinarySearchTree_remove k s)
  end.

Definition run (ops : list op) (s : store) : store := foldl step s ops.

(** ** The shape a heap represents *)

(** The tree of references drawn by the child links, with the key and value
    each node holds. *)
Inductive tree :=
  | Leaf
  | Br (l : tree) (a : loc) (k : Z) (v : V) (r : tree).

Definition root_of (t : tree) : option loc :=
  match t with
  | Leaf => None
  | Br _ a _ _ _ => Some a
  end.

Fixpoint addrs (t : tree) : list loc :=
  match t with
  | Leaf => []
  | Br l a _ _ r => addrs l ++ a :: addrs r
  end.

Fixpoint keys (t : tree) : list Z :=
  match t with
  | Leaf => []
  | Br l _ k _ r => keys l ++ k :: keys r
  end.

Fixpoint pairs (t : tree) : list (Z * V) :=
  match t with
  | Leaf => []
  | Br l _ k v r => pairs l ++ (k, v) :: pairs r
  end.

(** The heap holds the tree [t] below a node (or [null]) [p]: every node has
    the key and value the tree says, its children are the roots of the two
    subtrees and its [parent] is the node above. *)
Fixpoint rep (h : heap) (p : option loc) (t : tree) : Prop :=
  match t with
  | Leaf => True
  | Br l a k v r =>
      h !! a = Some (mkNode k v p (root_of l) (root_of r)) ∧
      rep h (Some a) l ∧ rep h (Some a) r
  end.

(** The ordering invariant of the data model. *)
Fixpoint bst (t : tree) : Prop :=
  match t with
  | Leaf => True
  | Br l _ k _ r =>
      bst l ∧ bst r ∧ Forall (λ x, x < k) (keys l) ∧ Forall (λ x, k < x) (keys r)
  end.

(** The store holds exactly the tree [t]. *)
Definition represents (s : store) (t : tree) : Prop :=
  root s = root_of t ∧ rep (nodes s) None t ∧ bst t ∧
  numNodes s = Z.of_nat (length (addrs t)).

(** The invariants of the data model: the store is a binary search tree with
    consistent parent links, and [numNodes] counts its nodes. *)
Definition well_formed (s : store) : Prop := ∃ t, represents s t.

(** A node of the store's tree. *)
Definition in_tree (s : store) (n : loc) : Prop :=
  reachable (nodes s) (root s) n.

(** *** Pure counterparts of the operations *)

Fixpoint tinsert (t : tree) (n : loc) (k : Z) (v : V) : tree :=
  match t with
  | Leaf => Br Leaf n k v Leaf
  | Br l a ka va r =>
      if k <? ka then Br (tinsert l n k v) a ka va r
      else if k >? ka then Br l a ka va (tinsert r n k v)
      else t
  end.

Fixpoint delete_max (t : tree) : tree :=
  match t with
  | Leaf => Leaf
  | Br l a k v r =>
      match r with
      | Leaf => l
      | Br _ _ _ _ _ => Br l a k v (delete_max r)
      end
  end.

Fixpoint delete_min (t : tree) : tree :=
  match t with
  | Leaf => Leaf
  | Br l a k v r =>
      match l with
      | Leaf => r
      | Br _ _ _ _ _ => Br (delete_min l) a k v r
      end
  end.

Fixpoint max_node (t : tree) : option (loc * Z * V) :=
  match t with
  | Leaf => None
  | Br l a k v r =>
      match r with
      | Leaf => Some (a, k, v)
      | Br _ _ _ _ _ => max_node r
      end
  end.

Fixpoint min_node (t : tree) : option (loc * Z * V) :=
  match t with
  | Leaf => None
  | Br l a k v r =>
      match l with
      | Leaf => Some (a, k, v)
      | Br _ _ _ _ _ => min_node l
      end
  end.

(** Removing the root of a subtree; [left] says whether the subtree hangs at
    the root or to the left of its parent. *)
Definition remove_root (left : bool) (t : tree) : tree :=
  match t with
  | Leaf => Leaf
  | Br l a k v r =>
      match r with
      | Leaf => l
      | Br _ _ _ _ _ =>
          match l with
          | Leaf => r
          | Br _ _ _ _ _ =>
              if left then
                match max_node l with
                | Some (m, km, vm) => Br (delete_max l) m km vm r
                | None => Leaf
                end
              else
                match min_node r with
                | Some (m, km, vm) => Br l m km vm (delete_min r)
                | None => Leaf
                end
          end
      end
  end.

(** *** Positions inside a tree *)

(** One step up from a subtree: the node above and the sibling subtree. *)
Inductive frame :=
  | FL (a : loc) (k : Z) (v : V) (r : tree)
  | FR (l : tree) (a : loc) (k : Z) (v : V).

(** A path from a subtree up to the root, nearest ancestor first. *)
Fixpoint plug (c : list frame) (t : tree) : tree :=
  match c with
  | [] => t
  | FL a k v r :: c' => plug c' (Br t a k v r)
  | FR l a k v :: c' => plug c' (Br l a k v t)
  end.

Definition frame_addr (f : frame) : loc :=
  match f with
  | FL a _ _ _ => a
  | FR _ a _ _ => a
  end.

Definition ctx_parent (c : list frame) : option loc :=
  match c with
  | [] => None
  | f :: _ => Some (frame_addr f)
  end.

Definition ctx_left (c : list frame) : bool :=
  match c with
  | FR _ _ _ _ :: _ => false
  | _ => true
  end.

Fixpoint ctx_root (c : list frame) (o : option loc) : option loc :=
  match c with
  | [] => o
  | f :: c' => ctx_root c' (Some (frame_addr f))
  end.

Fixpoint rep_ctx (h : heap) (c : list frame) (o : option loc) : Prop :=
  match c with
  | [] => True
  | FL a k v r :: c' =>
      h !! a = Some (mkNode k v (ctx_parent c') o (root_of r)) ∧
      rep h (Some a) r ∧ rep_ctx h c' (Some a)
  | FR l a k v :: c' =>
      h !! a = Some (mkNode k v (ctx_parent c') (root_of l) o) ∧
      rep h (Some a) l ∧ rep_ctx h c' (Some a)
  end.

(** The nodes visited before and after the subtree in the hole. *)
Fixpoint ctx_before (c : list frame) : list loc :=
  match c with
  | [] => []
  | FL _ _ _ _ :: c' => ctx_before c'
  | FR l a _ _ :: c' => ctx_before c' ++ addrs l ++ [a]
  end.

Fixpoint ctx_after (c : list frame) : list loc :=
  match c with
  | [] => []
  | FL a _ _ r :: c' => a :: addrs r ++ ctx_after c'
  | FR _ _ _ _ :: c' => ctx_after c'
  end.

(** *** Auxiliary notions for the proofs *)

(** The search [get] performs, on the shape. *)
Fixpoint tfind (t : tree) (k : Z) : option loc :=
  match t with
  | Leaf => None
  | Br l a ka _ r =>
      if k <? ka then tfind l k
      else if k >? ka then tfind r k
      else Some a
  end.

(** The stack of [traverse]: each node on it is still to be visited, and
    then its right subtree. *)
Definition pending (h : heap) (e : loc * tree) : Prop :=
  ∃ nd p, h !! e.1 = Some nd ∧ rightChild nd = root_of e.2 ∧ rep h p e.2.

Fixpoint pending_addrs (ts : list (loc * tree)) : list loc :=
  match ts with
  | [] => []
  | (c, r) :: ts' => c :: addrs r ++ pending_addrs ts'
  end.

Fixpoint pending_cost (ts : list (loc * tree)) : nat :=
  match ts with
  | [] => 0
  | (c, r) :: ts' => 1 + 2 * length (addrs r) + pending_cost ts'
  end.

(** The heap after [node.parent = p] when [node] is not [null]. *)
Definition reparent (node : option loc) (p : option loc) (h : heap) : heap :=
  match node with
  | Some n => alter (set_parent p) n h
  | None => h
  end.

(** The heap after the parent's link to [this] is pointed at [node]. *)
Definition relink (p : option loc) (this : loc) (node : option loc)
    (h : heap) : heap :=
  match p with
  | None => h
  | Some pa =>
      match h !! pa with
      | Some p_nd =>
          if decide (leftChild p_nd = Some this)
          then alter (set_leftChild node) pa h
          else alter (set_rightChild node) pa h
      | None => h
      end
  end.

(** How the node above holds [n]: [left] is the outcome of the test
    [this.parent === null || this.parent.leftChild === this]. *)
Definition parent_link (h : heap) (p : option loc) (n : loc) (left : bool)
  : Prop :=
  match p with
  | None => left = true
  | Some pa =>
      ∃ p_nd, h !! pa = Some p_nd ∧
              left = bool_decide (leftChild p_nd = Some n)
  end.

(** A computation that leaves the key and the value of every object as they
    were. *)
Definition keeps_pairs {A} (m : M A) : Prop :=
  ∀ h r h', m h = (r, h') → ∀ x, pair_at h' x = pair_at h x.

(** Some node of the tree holds the key. *)
Definition has_key (s : store) (k : Z) : Prop :=
  ∃ n, in_tree s n ∧ key_at (nodes s) n = Some k.

(** *** Positions of a node relative to its parent *)

Definition is_root (h : heap) (n : loc) : Prop :=
  ∃ nd, h !! n = Some nd ∧ parent nd = None.




(** *** Two example trees *)

(** The tree of the specification's scenario: keys 5, 3, 8, 1, 4, 7, 9
    inserted in this order, all with the value [v]. *)
Definition demo (v : V) : store :=
  Eval vm_compute in
    run [Insert 5 v; Insert 3 v; Insert 8 v; Insert 1 v; Insert 4 v;
         Insert 7 v; Insert 9 v] empty_tree.

Definition demo_tree (v : V) : tree :=
  Br (Br (Br Leaf 3%nat 1 v Leaf) 1%nat 3 v (Br Leaf 4%nat 4 v Leaf))
     0%nat 5 v
     (Br (Br Leaf 5%nat 7 v Leaf) 2%nat 8 v (Br Leaf 6%nat 9 v Leaf)).

(** Keys 5, 2, 8, 3: the root has two children and its predecessor is not
    its left child. *)
Definition small (v : V) : store :=
  Eval vm_compute in
    run [Insert 5 v; Insert 2 v; Insert 8 v; Insert 3 v] empty_tree.

Definition small_tree (v : V) : tree :=
  Br (Br Leaf 1%nat 2 v (Br Leaf 3%nat 3 v Leaf)) 0%nat 5 v
     (Br Leaf 2%nat 8 v Leaf).

(** *** A reference model of the container *)

(** The container read as a list of key/value pairs in ascending key order.
    Inserting puts the pair at its place unless the key is there already, in
    which case nothing changes; removing drops the pair with the key. *)
Fixpoint ins_pair (k : Z) (v : V) (l : list (Z * V)) : list (Z * V) :=
  match l with
  | [] => [(k, v)]
  | (k', v') :: l' =>
      if k <? k' then (k, v) :: l
      else if k >? k' then (k', v') :: ins_pair k v l'
      else l
  end.

Definition model_step (l : list (Z * V)) (o : op) : list (Z * V) :=
  match o with
  | Insert k v => ins_pair k v l
  | Remove k => filter (λ p, p.1 ≠ k) l
  end.

(** In [h'] the link of [n]'s parent that held [n] in [h] holds [o], the
    other link being as it was. *)
Definition link_becomes (h h' : heap) (n : loc) (o : option loc) : Prop :=
  ∃ nd, h !! n = Some nd ∧
    ∀ pa p_nd, parent nd = Some pa → h !! pa = Some p_nd →
      ∃ p_nd', h' !! pa = Some p_nd' ∧
        (leftChild p_nd = Some n →
           leftChild p_nd' = o ∧ rightChild p_nd' = rightChild p_nd) ∧
        (rightChild p_nd = Some n →
           rightChild p_nd' = o ∧ leftChild p_nd' = leftChild p_nd).

(** ** Shapes *)

Lemma keys_pairs t : keys t = (pairs t).*1.
Proof.
  induction t as [|l IHl a k v r IHr]; simpl; [done|].
  by rewrite fmap_app, fmap_cons, IHl, IHr.
Qed.

Lemma length_keys t : length (keys t) = length (addrs t).
Proof.
  induction t as [|l IHl a k v r IHr]; simpl; [done|].
  rewrite !length_app. simpl. lia.
Qed.

Lemma length_pairs t : length (pairs t) = length (addrs t).
Proof.
  induction t as [|l IHl a k v r IHr]; simpl; [done|].
  rewrite !length_app. simpl. lia.
Qed.

Lemma root_of_addrs t a : root_of t = Some a → a ∈ addrs t.
Proof.
  destruct t; simpl; [done|]. intros [= ->].
  rewrite elem_of_app, elem_of_cons. auto.
Qed.

Lemma rep_frame h h' p t :
  (∀ a, a ∈ addrs t → h' !! a = h !! a) → rep h p t → rep h' p t.
Proof.
  revert p. induction t as [|l IHl a k v r IHr]; simpl; [done|].
  intros p Hf (Ha & Hl & Hr). split_and!.
  - rewrite Hf; [done|]. rewrite elem_of_app, elem_of_cons. auto.
  - apply IHl; [|done]. intros x Hx. apply Hf.
    rewrite elem_of_app. auto.
  - apply IHr; [|done]. intros x Hx. apply Hf.
    rewrite elem_of_app, elem_of_cons. auto.
Qed.

Lemma rep_lookup h p t a :
  rep h p t → a ∈ addrs t →
  ∃ nd, h !! a = Some nd ∧ key nd ∈ keys t ∧ (key nd, value nd) ∈ pairs t.
Proof.
  revert p. induction t as [|l IHl b k v r IHr]; simpl.
  - intros _ _ Hin. by apply elem_of_nil in Hin.
  - intros p (Hb & Hl & Hr).
    rewrite !elem_of_app, !elem_of_cons.
    intros [Hin|[->|Hin]].
    + destruct (IHl _ Hl Hin) as (nd & ? & ? & ?).
      exists nd. rewrite !elem_of_app. auto.
    + eexists. split; [done|]. simpl.
      rewrite !elem_of_app, !elem_of_cons. auto.
    + destruct (IHr _ Hr Hin) as (nd & ? & ? & ?).
      exists nd. rewrite !elem_of_app, !elem_of_cons. auto.
Qed.

Lemma rep_lt_length h p t a : rep h p t → a ∈ addrs t → (a < length h)%nat.
Proof.
  intros Hr Hin. destruct (rep_lookup _ _ _ _ Hr Hin) as (nd & Hnd & _).
  by apply lookup_lt_Some in Hnd.
Qed.

Lemma rep_NoDup h p t : rep h p t → bst t → NoDup (addrs t).
Proof.
  revert p. induction t as [|l IHl a k v r IHr]; simpl.
  - intros. apply NoDup_nil_2.
  - intros p (Ha & Hl & Hr) (Bl & Br' & Fl & Fr).
    rewrite Forall_forall in Fl, Fr.
    assert (a ∉ addrs r) as Har.
    { intros Hin. destruct (rep_lookup _ _ _ _ Hr Hin) as (nd & Hnd & Hk & _).
      apply Fr in Hk. rewrite Ha in Hnd. injection Hnd as <-. simpl in Hk. lia. }
    apply NoDup_app. split_and!.
    + eauto.
    + intros x Hx. destruct (rep_lookup _ _ _ _ Hl Hx) as (nd & Hnd & Hk & _).
      apply Fl in Hk. rewrite elem_of_cons. intros [->|Hin].
      * rewrite Ha in Hnd. injection Hnd as <-. simpl in Hk. lia.
      * destruct (rep_lookup _ _ _ _ Hr Hin) as (nd' & Hnd' & Hk' & _).
        apply Fr in Hk'. rewrite Hnd in Hnd'. injection Hnd' as <-. lia.
    + apply NoDup_cons. eauto.
Qed.

Lemma rep_fits h p t : rep h p t → bst t → (length (addrs t) ≤ length h)%nat.
Proof.
  intros Hr Hb.
  assert (length (seq 0 (length h)) = length h) as <- by apply length_seq.
  apply submseteq_length, NoDup_submseteq; [by eapply rep_NoDup|].
  intros x Hx. apply elem_of_seq. split; [lia|].
  simpl. by eapply rep_lt_length.
Qed.

Lemma rep_set_parent h p q t a :
  root_of t = Some a → NoDup (addrs t) → rep h p t →
  rep (alter (set_parent q) a h) q t.
Proof.
  destruct t as [|l b k v r]; simpl; [done|].
  intros [= ->] Hnd (Ha & Hl & Hr).
  apply NoDup_app in Hnd as (_ & Hd & Hnd).
  apply NoDup_cons in Hnd as (Har & _).
  split_and!.
  - by rewrite list_lookup_alter_eq, Ha.
  - eapply rep_frame; [|done]. intros x Hx.
    apply list_lookup_alter_ne. intros ->.
    apply (Hd _ Hx). apply elem_of_cons. auto.
  - eapply rep_frame; [|done]. intros x Hx.
    apply list_lookup_alter_ne. by intros ->.
Qed.

Lemma bst_sorted t : bst t ↔ StronglySorted Z.lt (keys t).
Proof.
  induction t as [|l IHl a k v r IHr]; simpl.
  - split; [constructor|done].
  - rewrite StronglySorted_app, StronglySorted_cons, <- IHl, <- IHr.
    rewrite !Forall_forall. split.
    + intros (Bl & Br' & Fl & Fr). split_and!; auto.
      intros x1 x2 H1. rewrite elem_of_cons. intros [->|H2]; [auto|].
      specialize (Fl _ H1). specialize (Fr _ H2). lia.
    + intros (Hc & Bl & Fr & Br'). split_and!; auto.
      intros x Hx. apply Hc; [done|]. apply elem_of_cons. auto.
Qed.

(** ** The read-only methods on a represented tree *)

Lemma read_Some (h : heap) a nd : h !! a = Some nd → read h a = Ret nd.
Proof. unfold read. by intros ->. Qed.

Ltac step_read H := rewrite (read_Some _ _ _ H); simpl.

Lemma max_node_is_Some t : t ≠ Leaf → is_Some (max_node t).
Proof.
  induction t as [|l IHl a k v r IHr]; [done|]. intros _. simpl.
  destruct r; [by eexists|]. by apply IHr.
Qed.

Lemma min_node_is_Some t : t ≠ Leaf → is_Some (min_node t).
Proof.
  induction t as [|l IHl a k v r IHr]; [done|]. intros _. simpl.
  destruct l; [by eexists|]. by apply IHl.
Qed.

Lemma max_node_last t m km vm :
  max_node t = Some (m, km, vm) →
  addrs t = addrs (delete_max t) ++ [m] ∧
  keys t = keys (delete_max t) ++ [km] ∧
  pairs t = pairs (delete_max t) ++ [(km, vm)].
Proof.
  induction t as [|l IHl a k v r IHr]; [done|]. simpl.
  destruct r as [|rl b kb vb rr].
  - intros [= -> -> ->]. done.
  - intros Hm. destruct (IHr Hm) as (-> & -> & ->). simpl.
    by rewrite <- !app_assoc, <- !app_comm_cons.
Qed.

Lemma min_node_first t m km vm :
  min_node t = Some (m, km, vm) →
  addrs t = m :: addrs (delete_min t) ∧
  keys t = km :: keys (delete_min t) ∧
  pairs t = (km, vm) :: pairs (delete_min t).
Proof.
  induction t as [|l IHl a k v r IHr]; [done|]. simpl.
  destruct l as [|ll b kb vb lr].
  - intros [= -> -> ->]. done.
  - intros Hm. destruct (IHl Hm) as (-> & -> & ->). done.
Qed.

Lemma max_loop_spec h fuel : ∀ t p a m km vm,
  rep h p t → root_of t = Some a → (length (addrs t) ≤ fuel)%nat →
  max_node t = Some (m, km, vm) → max_loop fuel h a = Ret m.
Proof.
  induction fuel as [|fuel IH]; intros t p a m km vm Hr Ha Hf Hm.
  - destruct t; [done|]. simpl in Hf. rewrite length_app in Hf.
    simpl in Hf. lia.
  - destruct t as [|l b k v r]; [done|]. simpl in *.
    injection Ha as ->. destruct Hr as (Ha & Hl & Hr).
    step_read Ha. rewrite length_app in Hf. simpl in Hf.
    destruct r as [|rl c kc vc rr].
    + simpl. by injection Hm as ->.
    + simpl. eapply IH; [exact Hr|done| |done]. lia.
Qed.

Lemma min_loop_spec h fuel : ∀ t p a m km vm,
  rep h p t → root_of t = Some a → (length (addrs t) ≤ fuel)%nat →
  min_node t = Some (m, km, vm) → min_loop fuel h a = Ret m.
Proof.
  induction fuel as [|fuel IH]; intros t p a m km vm Hr Ha Hf Hm.
  - destruct t; [done|]. simpl in Hf. rewrite length_app in Hf.
    simpl in Hf. lia.
  - destruct t as [|l b k v r]; [done|]. simpl in *.
    injection Ha as ->. destruct Hr as (Ha & Hl & Hr).
    step_read Ha. rewrite length_app in Hf. simpl in Hf.
    destruct l as [|ll c kc vc lr].
    + simpl. by injection Hm as ->.
    + simpl. eapply IH; [exact Hl|done| |done]. lia.
Qed.

Lemma get_loop_spec h k fuel : ∀ t p a,
  rep h p t → root_of t = Some a → (length (addrs t) ≤ fuel)%nat →
  get_loop fuel h k a = Ret (tfind t k).
Proof.
  induction fuel as [|fuel IH]; intros t p a Hr Ha Hf.
  - destruct t; [done|]. simpl in Hf. rewrite length_app in Hf.
    simpl in Hf. lia.
  - destruct t as [|l b kb vb r]; [done|]. simpl in *.
    injection Ha as ->. destruct Hr as (Ha & Hl & Hr).
    step_read Ha. rewrite length_app in Hf. simpl in Hf.
    destruct (k <? kb).
    + destruct l as [|ll c kc vc lr]; [done|].
      simpl root_of. eapply IH; [exact Hl|done|lia].
    + destruct (k >? kb); [|done].
      destruct r as [|rl c kc vc rr]; [done|].
      simpl root_of. eapply IH; [exact Hr|done|]. simpl in *. lia.
Qed.

Lemma plug_app c1 c2 t : plug (c1 ++ c2) t = plug c2 (plug c1 t).
Proof.
  revert t. induction c1 as [|[a k v r|l a k v] c1 IH]; intros t; simpl; auto.
Qed.

Lemma tfind_plug t k n :
  tfind t k = Some n → ∃ c l v r, t = plug c (Br l n k v r).
Proof.
  induction t as [|l IHl a ka va r IHr]; [done|]. simpl.
  destruct (k <? ka) eqn:Hlt; [|destruct (k >? ka) eqn:Hgt].
  - intros (c & l' & v & r' & ->)%IHl.
    exists (c ++ [FL a ka va r]), l', v, r'. by rewrite plug_app.
  - intros (c & l' & v & r' & ->)%IHr.
    exists (c ++ [FR l a ka va]), l', v, r'. by rewrite plug_app.
  - intros [= ->]. assert (k = ka) as -> by lia.
    by exists [], l, va, r.
Qed.

Lemma tfind_Some_keys t k n : tfind t k = Some n → k ∈ keys t ∧ n ∈ addrs t.
Proof.
  induction t as [|l IHl a ka va r IHr]; [done|]. simpl.
  rewrite !elem_of_app, !elem_of_cons.
  destruct (k <? ka) eqn:Hlt; [|destruct (k >? ka) eqn:Hgt].
  - intros []%IHl. auto.
  - intros []%IHr. auto.
  - intros [= ->]. assert (k = ka) as -> by lia. auto.
Qed.

Lemma tfind_keys t k : bst t → k ∈ keys t → is_Some (tfind t k).
Proof.
  induction t as [|l IHl a ka va r IHr]; simpl.
  - intros _ Hin. by apply elem_of_nil in Hin.
  - intros (Bl & Br' & Fl & Fr). rewrite Forall_forall in Fl, Fr.
    rewrite elem_of_app, elem_of_cons. intros Hin.
    destruct (k <? ka) eqn:Hlt; [|destruct (k >? ka) eqn:Hgt].
    + destruct Hin as [?|[->|Hin]]; [auto|lia|]. apply Fr in Hin. lia.
    + destruct Hin as [Hin|[->|?]]; [|lia|auto]. apply Fl in Hin. lia.
    + by eexists.
Qed.

Lemma tfind_None t k : k ∉ keys t → tfind t k = None.
Proof.
  intros Hk. destruct (tfind t k) eqn:E; [|done].
  by apply tfind_Some_keys in E as [? _].
Qed.

Lemma traverse_loop_spec {A : Type} h (callback : loc → A → A) fuel :
  ∀ t p ts acc,
  rep h p t → Forall (pending h) ts →
  (2 * length (addrs t) + pending_cost ts + 1 ≤ fuel)%nat →
  traverse_loop fuel h callback ts.*1 (root_of t) acc =
  Ret (foldl (λ acc a, callback a acc) acc (addrs t ++ pending_addrs ts)).
Proof.
  induction fuel as [|fuel IH]; intros t p ts acc Hr Hts Hf; [lia|].
  destruct t as [|l a k v r]; simpl in *.
  - destruct ts as [|[c r] ts]; [done|]. simpl in *.
    apply Forall_cons in Hts as [(nd & p' & Hc & Hrc & Hr') Hts].
    simpl in *. step_read Hc. rewrite Hrc.
    rewrite (IH r p' ts); [done|done|done|lia].
  - destruct Hr as (Ha & Hl & Hr). step_read Ha.
    rewrite length_app in Hf. simpl in Hf.
    rewrite (IH l (Some a) ((a, r) :: ts)).
    + simpl. by rewrite <- app_assoc.
    + done.
    + apply Forall_cons. split; [|done]. by eexists _, _.
    + simpl. lia.
Qed.

Lemma Node_traverse_spec {A : Type} h (callback : loc → A → A) t p a acc :
  rep h p t → bst t → root_of t = Some a →
  Node_traverse h a callback acc =
  Ret (foldl (λ acc a, callback a acc) acc (addrs t)).
Proof.
  intros Hr Hb Ha. pose proof (rep_fits _ _ _ Hr Hb) as Hfit.
  destruct t as [|l b k v r]; [done|]. simpl in *. injection Ha as ->.
  destruct Hr as (Ha & Hl & Hr). unfold Node_traverse. step_read Ha.
  rewrite length_app in Hfit. simpl in Hfit.
  rewrite (traverse_loop_spec h callback _ l (Some a) [(a, r)]).
  - simpl. by rewrite app_nil_r.
  - done.
  - apply Forall_cons. split; [|done]. by eexists _, _.
  - simpl. lia.
Qed.

Lemma foldl_snoc (l : list loc) (acc : list loc) :
  foldl (λ acc a, acc ++ [a]) acc l = acc ++ l.
Proof.
  revert acc. induction l as [|x l IH]; intros acc; simpl.
  - by rewrite app_nil_r.
  - by rewrite IH, <- app_assoc.
Qed.

(** ** Insertion *)

Lemma root_of_tinsert t n k v :
  t ≠ Leaf → root_of (tinsert t n k v) = root_of t.
Proof.
  destruct t as [|l a ka va r]; [done|]. intros _. simpl.
  destruct (k <? ka); [done|]. by destruct (k >? ka).
Qed.

Lemma keys_tinsert_Forall (P : Z → Prop) t n k v :
  Forall P (keys t) → P k → Forall P (keys (tinsert t n k v)).
Proof.
  induction t as [|l IHl a ka va r IHr]; simpl; intros HF Hk.
  - by repeat constructor.
  - apply Forall_app in HF as [HFl HFr].
    apply Forall_cons in HFr as [Ha HFr].
    destruct (k <? ka); [|destruct (k >? ka)]; simpl.
    + apply Forall_app. split; [auto|]. by apply Forall_cons.
    + apply Forall_app. split; [auto|]. apply Forall_cons. auto.
    + apply Forall_app. split; [auto|]. by apply Forall_cons.
Qed.

Lemma bst_tinsert t n k v : bst t → bst (tinsert t n k v).
Proof.
  induction t as [|l IHl a ka va r IHr]; simpl.
  - intros _. repeat split; constructor.
  - intros (Bl & Br' & Fl & Fr).
    destruct (k <? ka) eqn:Hlt; [|destruct (k >? ka) eqn:Hgt]; simpl.
    + split_and!; auto. apply keys_tinsert_Forall; [done|lia].
    + split_and!; auto. apply keys_tinsert_Forall; [done|lia].
    + done.
Qed.

Lemma length_tinsert t n k v :
  tfind t k = None →
  length (addrs (tinsert t n k v)) = S (length (addrs t)).
Proof.
  induction t as [|l IHl a ka va r IHr]; simpl; [done|].
  destruct (k <? ka) eqn:Hlt; [|destruct (k >? ka) eqn:Hgt]; simpl.
  - intros E%IHl. rewrite !length_app. simpl. lia.
  - intros E%IHr. rewrite !length_app. simpl. lia.
  - done.
Qed.

Lemma tinsert_plug t n k v :
  tfind t k = None →
  ∃ c, t = plug c Leaf ∧ tinsert t n k v = plug c (Br Leaf n k v Leaf).
Proof.
  induction t as [|l IHl a ka va r IHr]; simpl.
  - intros _. by exists [].
  - destruct (k <? ka) eqn:Hlt; [|destruct (k >? ka) eqn:Hgt]; simpl.
    + intros (c & Hc & ->)%IHl. exists (c ++ [FL a ka va r]).
      rewrite !plug_app. simpl. by rewrite <- Hc.
    + intros (c & Hc & ->)%IHr. exists (c ++ [FR l a ka va]).
      rewrite !plug_app. simpl. by rewrite <- Hc.
    + done.
Qed.

Lemma insert_loop_step fuel k v a (h : heap) nd :
  h !! a = Some nd →
  insert_loop (S fuel) k v a h =
  if k <? key nd then
    match leftChild nd with
    | None =>
        (Ret (length h),
         alter (set_leftChild (Some (length h))) a
           (h ++ [mkNode k v (Some a) None None]))
    | Some l => insert_loop fuel k v l h
    end
  else if k >? key nd then
    match rightChild nd with
    | None =>
        (Ret (length h),
         alter (set_rightChild (Some (length h))) a
           (h ++ [mkNode k v (Some a) None None]))
    | Some r => insert_loop fuel k v r h
    end
  else (Throw (DuplicateKeyError k), h).
Proof.
  intros Ha. simpl. unfold bind at 1, load, lift. step_read Ha.
  destruct (k <? key nd); [|destruct (k >? key nd)].
  - destruct (leftChild nd); [done|].
    unfold bind, new_Node, assign, ret.
    by rewrite (lookup_app_l_Some _ _ _ _ Ha).
  - destruct (rightChild nd); [done|].
    unfold bind, new_Node, assign, ret.
    by rewrite (lookup_app_l_Some _ _ _ _ Ha).
  - done.
Qed.

Lemma insert_loop_spec k v h : ∀ t fuel p a,
  rep h p t → NoDup (addrs t) → root_of t = Some a →
  (length (addrs t) ≤ fuel)%nat →
  match tfind t k with
  | Some _ => insert_loop fuel k v a h = (Throw (DuplicateKeyError k), h)
  | None =>
      ∃ h', insert_loop fuel k v a h = (Ret (length h), h') ∧
            rep h' p (tinsert t (length h) k v) ∧
            length h' = S (length h) ∧
            (∀ x, x ∉ addrs t → (x < length h)%nat → h' !! x = h !! x)
  end.
Proof.
  induction t as [|l IHl b kb vb r IHr]; intros fuel p a Hr Hnd Ha Hf;
    [done|].
  simpl in *. injection Ha as ->. destruct Hr as (Ha & Hl & Hr).
  rewrite length_app in Hf. simpl in Hf.
  destruct fuel as [|fuel]; [lia|].
  apply NoDup_app in Hnd as (Hndl & Hd & Hnd).
  apply NoDup_cons in Hnd as (Har & Hndr).
  assert (a ∉ addrs l) as Hal.
  { intros Hin. apply (Hd _ Hin). apply elem_of_cons. auto. }
  pose proof (lookup_lt_Some _ _ _ Ha) as Hlen.
  rewrite (insert_loop_step _ _ _ _ _ _ Ha). cbn [key leftChild rightChild].
  destruct (k <? kb) eqn:Hlt; [|destruct (k >? kb) eqn:Hgt].
  - destruct l as [|ll c kc vc lr].
    + simpl.
      eexists. split; [done|]. split_and!.
      * rewrite list_lookup_alter_eq, (lookup_app_l_Some _ _ _ _ Ha). done.
      * rewrite list_lookup_alter_ne by lia.
        rewrite lookup_app_r by lia. by rewrite Nat.sub_diag.
      * done.
      * done.
      * eapply rep_frame; [|exact Hr]. intros x Hx.
        rewrite list_lookup_alter_ne by (intros ->; contradiction).
        apply lookup_app_l. by apply (rep_lt_length _ _ _ _ Hr).
      * by rewrite length_alter, length_app, Nat.add_1_r.
      * intros x Hx Hxl. rewrite elem_of_cons in Hx.
        rewrite list_lookup_alter_ne by (intros ->; auto).
        by apply lookup_app_l.
    + specialize (IHl fuel (Some a) c Hl Hndl eq_refl).
      change (root_of (Br ll c kc vc lr)) with (Some c). cbv iota.
      remember (Br ll c kc vc lr) as l' eqn:El.
      destruct (tfind l' k).
      * apply IHl. lia.
      * destruct IHl as (h' & -> & Hrep & Hlen' & Hfr); [lia|].
        exists h'. split; [done|]. simpl. split_and!.
        -- rewrite Hfr by done. rewrite Ha.
           rewrite root_of_tinsert; [done|by subst].
        -- done.
        -- eapply rep_frame; [|exact Hr]. intros x Hx.
           apply Hfr; [|by apply (rep_lt_length _ _ _ _ Hr)].
           intros Hin. apply (Hd _ Hin). apply elem_of_cons. auto.
        -- done.
        -- intros x Hx Hxl. apply Hfr; [|done].
           rewrite elem_of_app in Hx. auto.
  - destruct r as [|rl c kc vc rr].
    + simpl.
      eexists. split; [done|]. split_and!.
      * rewrite list_lookup_alter_eq, (lookup_app_l_Some _ _ _ _ Ha). done.
      * eapply rep_frame; [|exact Hl]. intros x Hx.
        rewrite list_lookup_alter_ne by (intros ->; contradiction).
        apply lookup_app_l. by apply (rep_lt_length _ _ _ _ Hl).
      * rewrite list_lookup_alter_ne by lia.
        rewrite lookup_app_r by lia. by rewrite Nat.sub_diag.
      * done.
      * done.
      * by rewrite length_alter, length_app, Nat.add_1_r.
      * intros x Hx Hxl. rewrite elem_of_app, elem_of_cons in Hx.
        rewrite list_lookup_alter_ne by (intros ->; auto).
        by apply lookup_app_l.
    + specialize (IHr fuel (Some a) c Hr Hndr eq_refl).
      change (root_of (Br rl c kc vc rr)) with (Some c). cbv iota.
      remember (Br rl c kc vc rr) as r' eqn:El.
      destruct (tfind r' k).
      * apply IHr. lia.
      * destruct IHr as (h' & -> & Hrep & Hlen' & Hfr); [lia|].
        exists h'. split; [done|]. simpl. split_and!.
        -- rewrite Hfr by done. rewrite Ha.
           rewrite root_of_tinsert; [done|by subst].
        -- eapply rep_frame; [|exact Hl]. intros x Hx.
           apply Hfr; [|by apply (rep_lt_length _ _ _ _ Hl)].
           intros Hin. by apply (Hd _ Hx), elem_of_cons; auto.
        -- done.
        -- done.
        -- intros x Hx Hxl. apply Hfr; [|done].
           rewrite elem_of_app, elem_of_cons in Hx. auto.
  - done.
Qed.

(** ** Running the heap-writing methods *)

Lemma bind_Ret {A B} (m : M A) (f : A → M B) h a h1 :
  m h = (Ret a, h1) → bind m f h = f a h1.
Proof. unfold bind. by intros ->. Qed.

Lemma load_Some (h : heap) a nd : h !! a = Some nd → load a h = (Ret nd, h).
Proof. intros H. unfold load, lift. by rewrite (read_Some _ _ _ H). Qed.

Lemma assign_Some (h : heap) a f nd :
  h !! a = Some nd → assign a f h = (Ret tt, alter f a h).
Proof. unfold assign. by intros ->. Qed.

Lemma Node_replaceWith_eq (h : heap) this node nd :
  h !! this = Some nd →
  (∀ n, node = Some n → is_Some (h !! n)) →
  (∀ pa, parent nd = Some pa → is_Some (h !! pa)) →
  Node_replaceWith this node h =
  (Ret tt, relink (parent nd) this node (reparent node (parent nd) h)).
Proof.
  intros Hthis Hnode Hpar. unfold Node_replaceWith.
  rewrite (bind_Ret _ _ _ _ _ (load_Some _ _ _ Hthis)).
  assert (∀ pa, parent nd = Some pa →
            is_Some (reparent node (parent nd) h !! pa)) as Hpar'.
  { intros pa Hpa. destruct (Hpar _ Hpa) as [x Hx].
    destruct node as [n|]; simpl; [|by eexists].
    destruct (decide (n = pa)) as [->|Hne].
    - rewrite list_lookup_alter_eq, Hx. by eexists.
    - rewrite list_lookup_alter_ne by done. by eexists. }
  assert (match node with
          | Some n => assign n (set_parent (parent nd))
          | None => ret tt
          end h = (Ret tt, reparent node (parent nd) h)) as Hstep.
  { destruct node as [n|]; [|done]. destruct (Hnode n eq_refl) as [x Hx].
    by rewrite (assign_Some _ _ _ _ Hx). }
  rewrite (bind_Ret _ _ _ _ _ Hstep). clear Hstep.
  unfold relink. destruct (parent nd) as [pa|]; [|done].
  destruct (Hpar' pa eq_refl) as [p_nd Hp]. rewrite Hp.
  rewrite (bind_Ret _ _ _ _ _ (load_Some _ _ _ Hp)).
  destruct (decide (leftChild p_nd = Some this));
    by rewrite (assign_Some _ _ _ _ Hp).
Qed.

Lemma Node_adoptLeftChild_eq (h : heap) this node nd c :
  h !! node = Some nd → leftChild nd = Some c →
  is_Some (h !! c) → is_Some (h !! this) →
  Node_adoptLeftChild this node h =
  (Ret tt, alter (set_leftChild (Some c)) this
             (alter (set_parent (Some this)) c h)).
Proof.
  intros Hnode Hc [c_nd Hcn] [t_nd Ht]. unfold Node_adoptLeftChild.
  rewrite (bind_Ret _ _ _ _ _ (load_Some _ _ _ Hnode)).
  rewrite Hc. simpl nonnull. unfold ret at 1. unfold bind at 1.
  rewrite (bind_Ret _ _ _ _ _ (assign_Some _ _ _ _ Hcn)).
  assert (∃ nd', alter (set_parent (Some this)) c h !! node = Some nd' ∧
                 leftChild nd' = Some c) as (nd' & Hnd' & Hc').
  { destruct (decide (c = node)) as [->|Hne].
    - rewrite list_lookup_alter_eq, Hnode. by eexists.
    - rewrite list_lookup_alter_ne by done. by eexists. }
  rewrite (bind_Ret _ _ _ _ _ (load_Some _ _ _ Hnd')). rewrite Hc'.
  assert (is_Some (alter (set_parent (Some this)) c h !! this)) as [x Hx].
  { destruct (decide (c = this)) as [->|Hne].
    - rewrite list_lookup_alter_eq, Ht. by eexists.
    - rewrite list_lookup_alter_ne by done. by eexists. }
  by rewrite (assign_Some _ _ _ _ Hx).
Qed.

Lemma Node_adoptRightChild_eq (h : heap) this node nd c :
  h !! node = Some nd → rightChild nd = Some c →
  is_Some (h !! c) → is_Some (h !! this) →
  Node_adoptRightChild this node h =
  (Ret tt, alter (set_rightChild (Some c)) this
             (alter (set_parent (Some this)) c h)).
Proof.
  intros Hnode Hc [c_nd Hcn] [t_nd Ht]. unfold Node_adoptRightChild.
  rewrite (bind_Ret _ _ _ _ _ (load_Some _ _ _ Hnode)).
  rewrite Hc. simpl nonnull. unfold ret at 1. unfold bind at 1.
  rewrite (bind_Ret _ _ _ _ _ (assign_Some _ _ _ _ Hcn)).
  assert (∃ nd', alter (set_parent (Some this)) c h !! node = Some nd' ∧
                 rightChild nd' = Some c) as (nd' & Hnd' & Hc').
  { destruct (decide (c = node)) as [->|Hne].
    - rewrite list_lookup_alter_eq, Hnode. by eexists.
    - rewrite list_lookup_alter_ne by done. by eexists. }
  rewrite (bind_Ret _ _ _ _ _ (load_Some _ _ _ Hnd')). rewrite Hc'.
  assert (is_Some (alter (set_parent (Some this)) c h !! this)) as [x Hx].
  { destruct (decide (c = this)) as [->|Hne].
    - rewrite list_lookup_alter_eq, Ht. by eexists.
    - rewrite list_lookup_alter_ne by done. by eexists. }
  by rewrite (assign_Some _ _ _ _ Hx).
Qed.

(** ** Positions *)

Lemma rep_plug h c : ∀ t,
  rep h None (plug c t) ↔ rep h (ctx_parent c) t ∧ rep_ctx h c (root_of t).
Proof.
  induction c as [|[a k v r|l a k v] c IH]; intros t; simpl.
  - tauto.
  - rewrite IH. simpl. tauto.
  - rewrite IH. simpl. tauto.
Qed.

Lemma root_of_plug c : ∀ t, root_of (plug c t) = ctx_root c (root_of t).
Proof.
  induction c as [|[a k v r|l a k v] c IH]; intros t; simpl; [done|..];
    by rewrite IH.
Qed.

Lemma addrs_plug c : ∀ t,
  addrs (plug c t) = ctx_before c ++ addrs t ++ ctx_after c.
Proof.
  induction c as [|[a k v r|l a k v] c IH]; intros t; simpl.
  - by rewrite app_nil_r.
  - rewrite IH. simpl. by rewrite <- !app_assoc.
  - rewrite IH. simpl. by rewrite <- !app_assoc.
Qed.

Lemma rep_ctx_frame h h' c o :
  (∀ x, x ∈ ctx_before c ++ ctx_after c → h' !! x = h !! x) →
  rep_ctx h c o → rep_ctx h' c o.
Proof.
  revert o. induction c as [|[a k v r|l a k v] c IH]; intros o; simpl;
    [done|..]; intros Hf (Ha & Hs & Hc).
  - split_and!.
    + rewrite Hf; [done|]. rewrite elem_of_app, elem_of_cons. auto.
    + eapply rep_frame; [|exact Hs]. intros x Hx. apply Hf.
      rewrite !elem_of_app, elem_of_cons, elem_of_app. auto.
    + apply IH; [|done]. intros x Hx. apply Hf.
      rewrite !elem_of_app, elem_of_cons, elem_of_app.
      rewrite elem_of_app in Hx. tauto.
  - split_and!.
    + rewrite Hf; [done|]. rewrite !elem_of_app, elem_of_cons.
      rewrite elem_of_nil. auto.
    + eapply rep_frame; [|exact Hs]. intros x Hx. apply Hf.
      rewrite !elem_of_app. auto.
    + apply IH; [|done]. intros x Hx. apply Hf.
      rewrite !elem_of_app. rewrite elem_of_app in Hx. tauto.
Qed.

Lemma bst_plug_inv c : ∀ t, bst (plug c t) → bst t.
Proof.
  induction c as [|[a k v r|l a k v] c IH]; intros t; simpl; [done|..];
    intros Hb%IH; simpl in Hb; tauto.
Qed.

Lemma bst_plug_subst c : ∀ t t',
  bst (plug c t) → bst t' → (∀ x, x ∈ keys t' → x ∈ keys t) →
  bst (plug c t').
Proof.
  induction c as [|[a k v r|l a k v] c IH]; intros t t' Hb Hb' Hsub; simpl;
    [done|..].
  - simpl in Hb. eapply IH; [exact Hb| |].
    + apply bst_plug_inv in Hb. simpl in *.
      destruct Hb as (Bl & Br' & Fl & Fr). split_and!; auto.
      rewrite Forall_forall in *. auto.
    + intros x. simpl. rewrite !elem_of_app. intros [?|?]; auto.
  - simpl in Hb. eapply IH; [exact Hb| |].
    + apply bst_plug_inv in Hb. simpl in *.
      destruct Hb as (Bl & Br' & Fl & Fr). split_and!; auto.
      rewrite Forall_forall in *. auto.
    + intros x. simpl. rewrite !elem_of_app, !elem_of_cons.
      intros [?|[?|?]]; auto.
Qed.

(** ** Splicing out the largest and the smallest node of a subtree *)

Lemma NoDup_Br l a k v r :
  NoDup (addrs (Br l a k v r)) ↔
  NoDup (addrs l) ∧ NoDup (addrs r) ∧ (a ∉ addrs l) ∧ (a ∉ addrs r) ∧
  (∀ x, x ∈ addrs l → x ∉ addrs r).
Proof.
  simpl. rewrite NoDup_app, NoDup_cons. split.
  - intros (Hl & Hd & Har & Hr). split_and!; auto.
    + intros Hin. apply (Hd _ Hin). apply elem_of_cons. auto.
    + intros x Hx Hxr. apply (Hd _ Hx). apply elem_of_cons. auto.
  - intros (Hl & Hr & Hal & Har & Hd). split_and!; auto.
    intros x Hx. rewrite elem_of_cons. intros [->|Hxr]; [done|].
    by apply (Hd x).
Qed.

Lemma rep_root_lookup h p t a :
  rep h p t → root_of t = Some a → ∃ nd, h !! a = Some nd ∧ parent nd = p.
Proof.
  destruct t; simpl; [done|]. intros (Ha & _) [= ->]. by eexists.
Qed.

Lemma rep_reparent h p q t :
  NoDup (addrs t) → rep h p t → rep (reparent (root_of t) q h) q t.
Proof.
  intros Hnd Hr. destruct (root_of t) as [a|] eqn:E; simpl.
  - by eapply rep_set_parent.
  - by destruct t.
Qed.

Lemma max_node_addrs t m km vm : max_node t = Some (m, km, vm) → m ∈ addrs t.
Proof.
  intros (-> & _)%max_node_last. rewrite elem_of_app, elem_of_cons. auto.
Qed.

Lemma min_node_addrs t m km vm : min_node t = Some (m, km, vm) → m ∈ addrs t.
Proof. intros (-> & _)%min_node_first. apply elem_of_cons. auto. Qed.

Lemma delete_max_addrs t x : x ∈ addrs (delete_max t) → x ∈ addrs t.
Proof.
  destruct (max_node t) as [[[m km] vm]|] eqn:E.
  - apply max_node_last in E as (-> & _). rewrite elem_of_app. auto.
  - destruct t; [done|]. destruct (max_node_is_Some (Br t1 a k v t2)) as [? ?];
      [done|congruence].
Qed.

Lemma delete_min_addrs t x : x ∈ addrs (delete_min t) → x ∈ addrs t.
Proof.
  destruct (min_node t) as [[[m km] vm]|] eqn:E.
  - apply min_node_first in E as (-> & _). rewrite elem_of_cons. auto.
  - destruct t; [done|]. destruct (min_node_is_Some (Br t1 a k v t2)) as [? ?];
      [done|congruence].
Qed.

Lemma splice_max h : ∀ t q m km vm,
  rep h q t → NoDup (addrs t) →
  max_node t = Some (m, km, vm) → root_of t ≠ Some m →
  ∃ m_nd h1,
    h !! m = Some m_nd ∧ key m_nd = km ∧ value m_nd = vm ∧
    Node_replaceWith m (leftChild m_nd) h = (Ret tt, h1) ∧
    rep h1 q (delete_max t) ∧
    root_of (delete_max t) = root_of t ∧
    (∀ x, x ∉ addrs (delete_max t) → h1 !! x = h !! x).
Proof.
  induction t as [|l IHl a k v r IHr]; intros q m km vm Hr Hnd Hm Hroot;
    [done|].
  apply NoDup_Br in Hnd as (Hndl & Hndr & Hal & Har & Hd).
  destruct Hr as (Ha & Hl & Hr).
  destruct r as [|rl b kb vb rr]; [simpl in *; congruence|].
  assert (a ≠ b) as Hab.
  { intros ->. apply Har. simpl. rewrite elem_of_app, elem_of_cons. auto. }
  change (max_node (Br l a k v (Br rl b kb vb rr)))
    with (max_node (Br rl b kb vb rr)) in Hm.
  change (delete_max (Br l a k v (Br rl b kb vb rr)))
    with (Br l a k v (delete_max (Br rl b kb vb rr))).
  destruct rr as [|rrl c kc vc rrr].
  - (* the largest node is the right child of [a] *)
    simpl in Hm. injection Hm as -> -> ->.
    destruct Hr as (Hb & Hrl & _). simpl root_of in *.
    apply NoDup_Br in Hndr as (Hndrl & _ & Hbrl & _ & _).
    assert (∀ c, root_of rl = Some c → c ≠ a ∧ c ≠ m ∧ is_Some (h !! c))
      as Hc.
    { intros c Hc. pose proof (root_of_addrs _ _ Hc) as Hin. split_and!.
      - intros ->. apply Har. simpl. rewrite elem_of_app. auto.
      - by intros ->.
      - destruct (rep_root_lookup _ _ _ _ Hrl Hc) as (? & ? & _). by eexists. }
    eexists _, _. split; [exact Hb|]. split; [done|]. split; [done|].
    split.
    { erewrite Node_replaceWith_eq; [done|exact Hb|..].
      - intros c Hc'. by apply Hc.
      - simpl. intros ? [= <-]. by eexists. }
    simpl. unfold relink.
    assert (reparent (root_of rl) (Some a) h !! a = h !! a) as Ea.
    { destruct (root_of rl) as [c|] eqn:E; [|done]. simpl.
      apply list_lookup_alter_ne. by apply Hc. }
    rewrite Ea, Ha. simpl.
    destruct (decide (root_of l = Some m)) as [El|_].
    { exfalso. apply root_of_addrs in El. apply (Hd _ El).
      simpl. rewrite elem_of_app, elem_of_cons. auto. }
    split_and!.
    + by rewrite list_lookup_alter_eq, Ea, Ha.
    + eapply rep_frame; [|exact Hl]. intros x Hx.
      rewrite list_lookup_alter_ne by (intros ->; contradiction).
      destruct (root_of rl) as [c|] eqn:E; [|done]. simpl.
      apply list_lookup_alter_ne. intros ->. apply (Hd _ Hx).
      simpl. rewrite elem_of_app. left. by apply root_of_addrs.
    + eapply rep_frame; [|by eapply rep_reparent; [|exact Hrl]]. intros x Hx.
      apply list_lookup_alter_ne. intros ->. apply Har.
      simpl. rewrite elem_of_app. auto.
    + done.
    + intros x Hx. rewrite elem_of_app, elem_of_cons in Hx.
      rewrite list_lookup_alter_ne by (intros ->; tauto).
      destruct (root_of rl) as [c|] eqn:E; [|done]. simpl.
      apply list_lookup_alter_ne. intros ->.
      apply root_of_addrs in E. tauto.
  - (* the largest node is deeper *)
    remember (Br rl b kb vb (Br rrl c kc vc rrr)) as r eqn:Er.
    assert (root_of r ≠ Some m) as Hrm.
    { subst r. simpl. intros [= ->]. simpl in Hm.
      apply NoDup_Br in Hndr as (_ & _ & _ & Hbr & _). apply Hbr.
      by eapply max_node_addrs. }
    destruct (IHr (Some a) m km vm Hr Hndr Hm Hrm)
      as (m_nd & h1 & Hmn & Hk & Hv & Hrun & Hrep & Hroot' & Hfr).
    exists m_nd, h1. split_and!; try done.
    + simpl. split_and!.
      * rewrite Hfr, Ha, Hroot'; [done|].
        intros Hin%delete_max_addrs. done.
      * eapply rep_frame; [|exact Hl]. intros x Hx. apply Hfr.
        intros Hin%delete_max_addrs. by apply (Hd x).
      * done.
    + intros x Hx. apply Hfr. intros Hin. apply Hx. simpl.
      rewrite elem_of_app, elem_of_cons. auto.
Qed.

Lemma splice_min h : ∀ t q m km vm,
  rep h q t → NoDup (addrs t) →
  min_node t = Some (m, km, vm) → root_of t ≠ Some m →
  ∃ m_nd h1,
    h !! m = Some m_nd ∧ key m_nd = km ∧ value m_nd = vm ∧
    Node_replaceWith m (rightChild m_nd) h = (Ret tt, h1) ∧
    rep h1 q (delete_min t) ∧
    root_of (delete_min t) = root_of t ∧
    (∀ x, x ∉ addrs (delete_min t) → h1 !! x = h !! x).
Proof.
  induction t as [|l IHl a k v r IHr]; intros q m km vm Hr Hnd Hm Hroot;
    [done|].
  apply NoDup_Br in Hnd as (Hndl & Hndr & Hal & Har & Hd).
  destruct Hr as (Ha & Hl & Hr).
  destruct l as [|ll b kb vb lr]; [simpl in *; congruence|].
  assert (a ≠ b) as Hab.
  { intros ->. apply Hal. simpl. rewrite elem_of_app, elem_of_cons. auto. }
  change (min_node (Br (Br ll b kb vb lr) a k v r))
    with (min_node (Br ll b kb vb lr)) in Hm.
  change (delete_min (Br (Br ll b kb vb lr) a k v r))
    with (Br (delete_min (Br ll b kb vb lr)) a k v r).
  destruct ll as [|lll c kc vc llr].
  - (* the smallest node is the left child of [a] *)
    simpl in Hm. injection Hm as -> -> ->.
    destruct Hl as (Hb & _ & Hlr). simpl root_of in *.
    apply NoDup_Br in Hndl as (_ & Hndlr & _ & Hblr & _).
    assert (∀ c, root_of lr = Some c → c ≠ a ∧ c ≠ m ∧ is_Some (h !! c))
      as Hc.
    { intros c Hc. pose proof (root_of_addrs _ _ Hc) as Hin. split_and!.
      - intros ->. apply Hal. simpl. rewrite ?elem_of_app, ?elem_of_cons. auto.
      - by intros ->.
      - destruct (rep_root_lookup _ _ _ _ Hlr Hc) as (? & ? & _). by eexists. }
    eexists _, _. split; [exact Hb|]. split; [done|]. split; [done|].
    split.
    { erewrite Node_replaceWith_eq; [done|exact Hb|..].
      - intros c Hc'. by apply Hc.
      - simpl. intros ? [= <-]. by eexists. }
    simpl. unfold relink.
    assert (reparent (root_of lr) (Some a) h !! a = h !! a) as Ea.
    { destruct (root_of lr) as [c|] eqn:E; [|done]. simpl.
      apply list_lookup_alter_ne. by apply Hc. }
    rewrite Ea, Ha. simpl.
    destruct (decide (Some m = Some m)) as [_|?]; [|done].
    split_and!.
    + by rewrite list_lookup_alter_eq, Ea, Ha.
    + eapply rep_frame; [|by eapply rep_reparent; [|exact Hlr]]. intros x Hx.
      apply list_lookup_alter_ne. intros ->. apply Hal.
      simpl. rewrite ?elem_of_app, ?elem_of_cons. auto.
    + eapply rep_frame; [|exact Hr]. intros x Hx.
      rewrite list_lookup_alter_ne by (intros ->; contradiction).
      destruct (root_of lr) as [c|] eqn:E; [|done]. simpl.
      apply list_lookup_alter_ne. intros ->.
      apply root_of_addrs in E. apply (Hd x); [|done].
      simpl. rewrite ?elem_of_app, ?elem_of_cons. auto.
    + done.
    + intros x Hx. rewrite elem_of_app, elem_of_cons in Hx.
      rewrite list_lookup_alter_ne by (intros ->; tauto).
      destruct (root_of lr) as [c|] eqn:E; [|done]. simpl.
      apply list_lookup_alter_ne. intros ->.
      apply root_of_addrs in E. tauto.
  - (* the smallest node is deeper *)
    remember (Br (Br lll c kc vc llr) b kb vb lr) as l eqn:El.
    assert (root_of l ≠ Some m) as Hlm.
    { subst l. simpl. intros [= ->]. simpl in Hm.
      apply NoDup_Br in Hndl as (_ & _ & Hbl & _ & _). apply Hbl.
      by eapply min_node_addrs. }
    destruct (IHl (Some a) m km vm Hl Hndl Hm Hlm)
      as (m_nd & h1 & Hmn & Hk & Hv & Hrun & Hrep & Hroot' & Hfr).
    exists m_nd, h1. split_and!; try done.
    + simpl. split_and!.
      * rewrite Hfr, Ha, Hroot'; [done|].
        intros Hin%delete_min_addrs. done.
      * done.
      * eapply rep_frame; [|exact Hr]. intros x Hx. apply Hfr.
        intros Hin%delete_min_addrs. by apply (Hd x).
    + intros x Hx. apply Hfr. intros Hin. apply Hx. simpl.
      rewrite elem_of_app, elem_of_cons. auto.
Qed.

(** ** Removing the root of a subtree *)

Lemma rep_fits_NoDup h p t :
  rep h p t → NoDup (addrs t) → (length (addrs t) ≤ length h)%nat.
Proof.
  intros Hr Hnd.
  assert (length (seq 0 (length h)) = length h) as <- by apply length_seq.
  apply submseteq_length, NoDup_submseteq; [done|].
  intros x Hx. apply elem_of_seq. split; [lia|].
  simpl. by eapply rep_lt_length.
Qed.

Lemma is_root_or_leftChild_eq (h : heap) n nd left :
  h !! n = Some nd → parent_link h (parent nd) n left →
  is_root_or_leftChild n h = (Ret left, h).
Proof.
  intros Hn Hp. unfold is_root_or_leftChild.
  rewrite (bind_Ret _ _ _ _ _ (load_Some _ _ _ Hn)).
  unfold parent_link in Hp. destruct (parent nd) as [pa|].
  - destruct Hp as (p_nd & Hpa & ->).
    by rewrite (bind_Ret _ _ _ _ _ (load_Some _ _ _ Hpa)).
  - by subst.
Qed.

Lemma replace_subtree h3 n nd t' q left :
  h3 !! n = Some nd → parent_link h3 (parent nd) n left →
  rep h3 q t' → NoDup (addrs t') →
  (∀ pa, parent nd = Some pa → pa ∉ addrs t') →
  ∃ h', Node_replaceWith n (root_of t') h3 = (Ret tt, h') ∧
        rep h' (parent nd) t' ∧
        (∀ x, root_of t' ≠ Some x → parent nd ≠ Some x →
              h' !! x = h3 !! x) ∧
        (∀ pa p_nd, parent nd = Some pa → h3 !! pa = Some p_nd →
           h' !! pa =
           Some (if left then set_leftChild (root_of t') p_nd
                 else set_rightChild (root_of t') p_nd)).
Proof.
  intros Hn Hlink Hrep Hnd Hpa.
  eexists. split.
  { eapply Node_replaceWith_eq; [exact Hn|..].
    - intros c Hc. destruct (rep_root_lookup _ _ _ _ Hrep Hc) as (? & ? & _).
      by eexists.
    - intros pa Hp. unfold parent_link in Hlink. rewrite Hp in Hlink.
      destruct Hlink as (? & ? & _). by eexists. }
  pose proof (rep_reparent _ _ (parent nd) _ Hnd Hrep) as Hrep'.
  unfold relink, parent_link in *.
  destruct (parent nd) as [pa|] eqn:Ep.
  - destruct Hlink as (p_nd & Hp & ->).
    specialize (Hpa pa eq_refl).
    assert (reparent (root_of t') (Some pa) h3 !! pa = Some p_nd) as Hp'.
    { destruct (root_of t') as [c|] eqn:Ec; [|done]. simpl.
      rewrite list_lookup_alter_ne; [done|]. intros ->.
      by apply root_of_addrs in Ec. }
    rewrite Hp'.
    assert (∀ f, rep (alter f pa (reparent (root_of t') (Some pa) h3))
                   (Some pa) t') as Hfr.
    { intros f. eapply rep_frame; [|exact Hrep']. intros x Hx.
      apply list_lookup_alter_ne. by intros ->. }
    assert (∀ f x, root_of t' ≠ Some x → Some pa ≠ Some x →
              alter f pa (reparent (root_of t') (Some pa) h3) !! x = h3 !! x)
      as Hfr'.
    { intros f x Hx1 Hx2. rewrite list_lookup_alter_ne by congruence.
      destruct (root_of t') as [c|]; [|done]. simpl.
      apply list_lookup_alter_ne. congruence. }
    destruct (decide (leftChild p_nd = Some n)) as [E|E].
    + rewrite (bool_decide_eq_true_2 _ E). split_and!; [apply Hfr|apply Hfr'|].
      intros ? ? [= <-] Hp2. rewrite list_lookup_alter_eq, Hp'.
      rewrite Hp in Hp2. by injection Hp2 as <-.
    + rewrite (bool_decide_eq_false_2 _ E). split_and!; [apply Hfr|apply Hfr'|].
      intros ? ? [= <-] Hp2. rewrite list_lookup_alter_eq, Hp'.
      rewrite Hp in Hp2. by injection Hp2 as <-.
  - split_and!; [done| |done].
    intros x Hx _. destruct (root_of t') as [c|]; [|done]. simpl.
    apply list_lookup_alter_ne. congruence.
Qed.

Lemma max_node_root l ll a k v lr m km vm :
  l = Br ll a k v lr → NoDup (addrs l) →
  max_node l = Some (m, km, vm) → m = a →
  lr = Leaf ∧ km = k ∧ vm = v.
Proof.
  intros -> Hnd Hm ->. apply NoDup_Br in Hnd as (_ & _ & _ & Har & _).
  simpl in Hm. destruct lr; [by injection Hm as -> ->|].
  apply max_node_addrs in Hm. done.
Qed.

Lemma min_node_root r rl a k v rr m km vm :
  r = Br rl a k v rr → NoDup (addrs r) →
  min_node r = Some (m, km, vm) → m = a →
  rl = Leaf ∧ km = k ∧ vm = v.
Proof.
  intros -> Hnd Hm ->. apply NoDup_Br in Hnd as (_ & _ & Hal & _ & _).
  simpl in Hm. destruct rl; [by injection Hm as -> ->|].
  apply min_node_addrs in Hm. done.
Qed.

(** The first half of the two-children case: afterwards the predecessor [m]
    holds what is left of the left subtree. *)
Lemma adopt_left_of_predecessor h n nd l lroot m km vm :
  h !! n = Some nd → leftChild nd = Some lroot →
  rep h (Some n) l → NoDup (addrs l) → n ∉ addrs l →
  root_of l = Some lroot → max_node l = Some (m, km, vm) →
  ∃ h2 mp mr,
    (if decide (m ≠ lroot) then
       m_nd <- load m ;;
       Node_replaceWith m (leftChild m_nd) ;;;
       Node_adoptLeftChild m n
     else ret tt) h = (Ret tt, h2) ∧
    h2 !! m = Some (mkNode km vm mp (root_of (delete_max l)) mr) ∧
    rep h2 (Some m) (delete_max l) ∧
    (∀ x, x ∉ addrs l → h2 !! x = h !! x).
Proof.
  intros Hn Hlc Hrep Hnd Hnl Hroot Hm.
  pose proof (max_node_last _ _ _ _ Hm) as (Eaddrs & _).
  assert (m ∉ addrs (delete_max l)) as Hml.
  { rewrite Eaddrs in Hnd. apply NoDup_app in Hnd as (_ & Hd & _).
    intros Hin. apply (Hd _ Hin). apply elem_of_cons. auto. }
  destruct (decide (m ≠ lroot)) as [Hne|Heq].
  - destruct (splice_max h l (Some n) m km vm Hrep Hnd Hm)
      as (m_nd & h1 & Hmn & Hk & Hv & Hrun & Hrep1 & Hroot1 & Hfr1);
      [congruence|].
    rewrite Hroot in Hroot1.
    destruct (rep_root_lookup _ _ _ _ Hrep1 Hroot1) as (l_nd & Hl1 & _).
    assert (lroot ∈ addrs (delete_max l)) as Hlin by by apply root_of_addrs.
    assert (h1 !! n = Some nd) as Hn1.
    { rewrite Hfr1; [done|]. by intros Hin%delete_max_addrs. }
    assert (h1 !! m = Some m_nd) as Hm1 by by rewrite Hfr1.
    eexists _, (parent m_nd), (rightChild m_nd). split_and!.
    + rewrite (bind_Ret _ _ _ _ _ (load_Some _ _ _ Hmn)).
      rewrite (bind_Ret _ _ _ _ _ Hrun).
      eapply Node_adoptLeftChild_eq; [exact Hn1|done|by eexists|by eexists].
    + rewrite list_lookup_alter_eq, list_lookup_alter_ne by congruence.
      rewrite Hm1. simpl. unfold set_leftChild. by rewrite Hk, Hv, Hroot1.
    + eapply rep_frame;
        [|eapply rep_set_parent; [exact Hroot1| |exact Hrep1]].
      * intros x Hx. apply list_lookup_alter_ne. by intros ->.
      * rewrite Eaddrs in Hnd. by apply NoDup_app in Hnd as (? & _).
    + intros x Hx.
      rewrite !list_lookup_alter_ne.
      * apply Hfr1. by intros Hin%delete_max_addrs.
      * intros ->. by apply Hx, delete_max_addrs.
      * intros ->. apply Hx. by eapply max_node_addrs.
  - assert (m = lroot) as -> by (destruct (decide (m = lroot)); tauto).
    destruct l as [|ll a k v lr]; [done|]. simpl in Hroot.
    injection Hroot as ->.
    destruct (max_node_root _ _ _ _ _ _ _ _ _ eq_refl Hnd Hm eq_refl)
      as (-> & -> & ->).
    simpl in *. destruct Hrep as (Ha & Hll & _).
    eexists h, _, _. split_and!; done.
Qed.

Lemma adopt_right_of_successor h n nd r rroot m km vm :
  h !! n = Some nd → rightChild nd = Some rroot →
  rep h (Some n) r → NoDup (addrs r) → n ∉ addrs r →
  root_of r = Some rroot → min_node r = Some (m, km, vm) →
  ∃ h2 mp ml,
    (if decide (m ≠ rroot) then
       m_nd <- load m ;;
       Node_replaceWith m (rightChild m_nd) ;;;
       Node_adoptRightChild m n
     else ret tt) h = (Ret tt, h2) ∧
    h2 !! m = Some (mkNode km vm mp ml (root_of (delete_min r))) ∧
    rep h2 (Some m) (delete_min r) ∧
    (∀ x, x ∉ addrs r → h2 !! x = h !! x).
Proof.
  intros Hn Hrc Hrep Hnd Hnr Hroot Hm.
  pose proof (min_node_first _ _ _ _ Hm) as (Eaddrs & _).
  assert (m ∉ addrs (delete_min r)) as Hmr.
  { rewrite Eaddrs in Hnd. by apply NoDup_cons in Hnd as (? & _). }
  destruct (decide (m ≠ rroot)) as [Hne|Heq].
  - destruct (splice_min h r (Some n) m km vm Hrep Hnd Hm)
      as (m_nd & h1 & Hmn & Hk & Hv & Hrun & Hrep1 & Hroot1 & Hfr1);
      [congruence|].
    rewrite Hroot in Hroot1.
    destruct (rep_root_lookup _ _ _ _ Hrep1 Hroot1) as (r_nd & Hr1 & _).
    assert (rroot ∈ addrs (delete_min r)) as Hrin by by apply root_of_addrs.
    assert (h1 !! n = Some nd) as Hn1.
    { rewrite Hfr1; [done|]. by intros Hin%delete_min_addrs. }
    assert (h1 !! m = Some m_nd) as Hm1 by by rewrite Hfr1.
    eexists _, (parent m_nd), (leftChild m_nd). split_and!.
    + rewrite (bind_Ret _ _ _ _ _ (load_Some _ _ _ Hmn)).
      rewrite (bind_Ret _ _ _ _ _ Hrun).
      eapply Node_adoptRightChild_eq; [exact Hn1|done|by eexists|by eexists].
    + rewrite list_lookup_alter_eq, list_lookup_alter_ne by congruence.
      rewrite Hm1. simpl. unfold set_rightChild. by rewrite Hk, Hv, Hroot1.
    + eapply rep_frame;
        [|eapply rep_set_parent; [exact Hroot1| |exact Hrep1]].
      * intros x Hx. apply list_lookup_alter_ne. by intros ->.
      * rewrite Eaddrs in Hnd. by apply NoDup_cons in Hnd as (_ & ?).
    + intros x Hx.
      rewrite !list_lookup_alter_ne.
      * apply Hfr1. by intros Hin%delete_min_addrs.
      * intros ->. by apply Hx, delete_min_addrs.
      * intros ->. apply Hx. by eapply min_node_addrs.
  - assert (m = rroot) as -> by (destruct (decide (m = rroot)); tauto).
    destruct r as [|rl a k v rr]; [done|]. simpl in Hroot.
    injection Hroot as ->.
    destruct (min_node_root _ _ _ _ _ _ _ _ _ eq_refl Hnd Hm eq_refl)
      as (-> & -> & ->).
    simpl in *. destruct Hrep as (Ha & _ & Hrr).
    eexists h, _, _. split_and!; done.
Qed.

Lemma Node_remove_subtree h p l n k v r left :
  rep h p (Br l n k v r) → NoDup (addrs (Br l n k v r)) →
  parent_link h p n left →
  (∀ pa, p = Some pa → pa ∉ addrs (Br l n k v r)) →
  ∃ h',
    Node_remove n h = (Ret (root_of (remove_root left (Br l n k v r))), h') ∧
    rep h' p (remove_root left (Br l n k v r)) ∧
    (∀ x, x ∉ addrs l → x ∉ addrs r → p ≠ Some x → h' !! x = h !! x) ∧
    (∀ pa p_nd, p = Some pa → h !! pa = Some p_nd →
       h' !! pa =
       Some (if left
             then set_leftChild (root_of (remove_root left (Br l n k v r))) p_nd
             else set_rightChild (root_of (remove_root left (Br l n k v r))) p_nd)).
Proof.
  intros (Hn & Hl & Hr) Hnd Hlink Hpa.
  apply NoDup_Br in Hnd as (Hndl & Hndr & Hnl & Hnr & Hd).
  assert (∀ pa, p = Some pa → (pa ∉ addrs l) ∧ (pa ∉ addrs r) ∧ pa ≠ n)
    as Hpa'.
  { intros pa E. specialize (Hpa pa E). simpl in Hpa.
    rewrite elem_of_app, elem_of_cons in Hpa. split_and!; auto. }
  unfold Node_remove. rewrite (bind_Ret _ _ _ _ _ (load_Some _ _ _ Hn)).
  cbn [rightChild leftChild].
  destruct r as [|rl rroot kr vr rr].
  { (* no right child *)
    cbn [root_of remove_root]. unfold bind at 1, ret at 1.
    destruct (replace_subtree h n _ l (Some n) left Hn Hlink Hl Hndl)
      as (h' & Hrun & Hrep & Hfr & Hpar).
    { simpl. intros pa E. by apply Hpa'. }
    simpl in *. rewrite (bind_Ret _ _ _ _ _ Hrun).
    exists h'. split_and!; [done|done| |done].
    intros x Hxl _ Hxp. apply Hfr; [|done].
    intros Hx. by apply root_of_addrs in Hx. }
  destruct l as [|ll lroot kl vl lr].
  { (* no left child *)
    cbn [root_of remove_root]. unfold bind at 1, ret at 1.
    destruct (replace_subtree h n _ (Br rl rroot kr vr rr) (Some n) left
                Hn Hlink Hr Hndr)
      as (h' & Hrun & Hrep & Hfr & Hpar).
    { simpl. intros pa E. by apply Hpa'. }
    cbn [root_of parent] in *. rewrite (bind_Ret _ _ _ _ _ Hrun).
    exists h'. split_and!; [done|done| |done].
    intros x _ Hxr Hxp. apply Hfr; [|done].
    intros [= <-]. apply Hxr. simpl.
    rewrite elem_of_app, elem_of_cons. auto. }
  remember (Br ll lroot kl vl lr) as l eqn:El.
  remember (Br rl rroot kr vr rr) as r eqn:Er.
  assert (root_of l = Some lroot) as Hlroot by by subst.
  assert (root_of r = Some rroot) as Hrroot by by subst.
  rewrite Hlroot, Hrroot in *.
  assert (remove_root left (Br l n k v r) =
          if left then
            match max_node l with
            | Some (m, km, vm) => Br (delete_max l) m km vm r
            | None => Leaf
            end
          else
            match min_node r with
            | Some (m, km, vm) => Br l m km vm (delete_min r)
            | None => Leaf
            end) as -> by by subst.
  pose proof (is_root_or_leftChild_eq h n _ left Hn Hlink) as Htest.
  unfold bind at 1. rewrite (bind_Ret _ _ _ _ _ Htest).
  destruct (rep_root_lookup _ _ _ _ Hl Hlroot) as (l_nd & Hlr & _).
  destruct (rep_root_lookup _ _ _ _ Hr Hrroot) as (r_nd & Hrr & _).
  assert (lroot ∈ addrs l) as Hlin by by apply root_of_addrs.
  assert (rroot ∈ addrs r) as Hrin by by apply root_of_addrs.
  destruct left.
  - (* the predecessor takes the place *)
    destruct (max_node_is_Some l) as [[[m km] vm] Hm]; [by subst|].
    rewrite Hm.
    pose proof (max_node_last _ _ _ _ Hm) as (Eaddrs & _).
    pose proof (max_node_addrs _ _ _ _ Hm) as Hmin.
    assert (lift (λ h, Node_max h lroot) h = (Ret m, h)) as Hmax.
    { unfold lift, Node_max.
      rewrite (max_loop_spec h _ l (Some n) lroot m km vm); try done.
      by eapply rep_fits_NoDup. }
    rewrite (bind_Ret _ _ _ _ _ Hmax).
    destruct (adopt_left_of_predecessor h n _ l lroot m km vm Hn eq_refl
                Hl Hndl Hnl Hlroot Hm)
      as (h2 & mp & mr & Hrun2 & Hm2 & Hrep2 & Hfr2).
    rewrite (bind_Ret _ _ _ _ _ Hrun2).
    assert (h2 !! n = h !! n) as Hn2 by by apply Hfr2.
    assert (h2 !! rroot = h !! rroot) as Hr2.
    { apply Hfr2. intros Hin. by apply (Hd _ Hin). }
    erewrite (bind_Ret _ _ _ _ _ (Node_adoptRightChild_eq h2 m n _ rroot _ _ _ _)).
    Unshelve.
    3: { rewrite Hn2. exact Hn. }
    2: { done. }
    2: { rewrite Hr2. by eexists. }
    2: { by eexists. }
    unfold ret at 1.
    set (h3 := alter (set_rightChild (Some rroot)) m
                 (alter (set_parent (Some m)) rroot h2)).
    assert (m ≠ n) as Hmn by (by intros ->).
    assert (m ≠ rroot) as Hmr. { intros ->. by apply (Hd rroot). }
    assert (m ∉ addrs r) as Hmnr by by apply Hd.
    assert (m ∉ addrs (delete_max l)) as Hml.
    { rewrite Eaddrs in Hndl. apply NoDup_app in Hndl as (_ & Hd' & _).
      intros Hin. apply (Hd' _ Hin). apply elem_of_cons. auto. }
    assert (∀ x, x ≠ m → x ≠ rroot → h3 !! x = h2 !! x) as Hfr3.
    { intros x ? ?. unfold h3. by rewrite !list_lookup_alter_ne. }
    assert (h3 !! n = Some (mkNode k v p (Some lroot) (Some rroot))) as Hn3.
    { rewrite Hfr3, Hn2; [done|congruence|]. by intros ->. }
    assert (rep h3 mp (Br (delete_max l) m km vm r)) as Hrep3.
    { simpl. split_and!.
      - unfold h3. rewrite list_lookup_alter_eq.
        rewrite list_lookup_alter_ne by congruence.
        rewrite Hm2, Hrroot. done.
      - eapply rep_frame; [|exact Hrep2]. intros x Hx. apply Hfr3.
        + by intros ->.
        + intros ->. apply delete_max_addrs in Hx. by apply (Hd rroot).
      - eapply rep_frame;
          [|eapply (rep_set_parent h2 (Some n)); [exact Hrroot|done|]].
        + intros x Hx. apply list_lookup_alter_ne. by intros ->.
        + eapply rep_frame; [|exact Hr]. intros x Hx. apply Hfr2.
          intros Hin. by apply (Hd x). }
    destruct (replace_subtree h3 n _ (Br (delete_max l) m km vm r) mp true
                Hn3) as (h' & Hrun & Hrep & Hfr & Hpar).
    { simpl. unfold parent_link in *. destruct p as [pa|]; [|done].
      destruct Hlink as (p_nd & Hp & Hb). exists p_nd. split; [|done].
      destruct (Hpa' pa eq_refl) as (? & ? & ?).
      rewrite Hfr3, Hfr2; [done|done| |].
      - intros ->. by apply Hpa' in Hmin.
      - by intros ->. }
    { exact Hrep3. }
    { apply NoDup_Br. split_and!; try done.
      - rewrite Eaddrs in Hndl. by apply NoDup_app in Hndl as (? & _).
      - intros x Hx%delete_max_addrs. by apply Hd. }
    { simpl. intros pa E. destruct (Hpa' pa E) as (? & ? & ?).
      rewrite elem_of_app, elem_of_cons.
      intros [Hin%delete_max_addrs|[->|?]]; done. }
    cbn [root_of parent] in *. rewrite (bind_Ret _ _ _ _ _ Hrun).
    exists h'. split; [done|]. split; [done|]. split.
    + intros x Hxl Hxr Hxp. rewrite Hfr, Hfr3, Hfr2; try done.
      * by intros ->.
      * by intros ->.
      * by intros [= <-].
    + intros pa p_nd E Hp. apply Hpar; [done|].
      destruct (Hpa' pa E) as (? & ? & ?).
      rewrite Hfr3, Hfr2; [done|done| |].
      * by intros ->.
      * by intros ->.
  - (* the successor takes the place *)
    destruct (min_node_is_Some r) as [[[m km] vm] Hm]; [by subst|].
    rewrite Hm.
    pose proof (min_node_first _ _ _ _ Hm) as (Eaddrs & _).
    pose proof (min_node_addrs _ _ _ _ Hm) as Hmin.
    assert (lift (λ h, Node_min h rroot) h = (Ret m, h)) as Hmin'.
    { unfold lift, Node_min.
      rewrite (min_loop_spec h _ r (Some n) rroot m km vm); try done.
      by eapply rep_fits_NoDup. }
    rewrite (bind_Ret _ _ _ _ _ Hmin').
    destruct (adopt_right_of_successor h n _ r rroot m km vm Hn eq_refl
                Hr Hndr Hnr Hrroot Hm)
      as (h2 & mp & ml & Hrun2 & Hm2 & Hrep2 & Hfr2).
    rewrite (bind_Ret _ _ _ _ _ Hrun2).
    assert (h2 !! n = h !! n) as Hn2 by by apply Hfr2.
    assert (h2 !! lroot = h !! lroot) as Hl2.
    { apply Hfr2. by apply Hd. }
    erewrite (bind_Ret _ _ _ _ _ (Node_adoptLeftChild_eq h2 m n _ lroot _ _ _ _)).
    Unshelve.
    3: { rewrite Hn2. exact Hn. }
    2: { done. }
    2: { rewrite Hl2. by eexists. }
    2: { by eexists. }
    unfold ret at 1.
    set (h3 := alter (set_leftChild (Some lroot)) m
                 (alter (set_parent (Some m)) lroot h2)).
    assert (m ≠ n) as Hmn by (by intros ->).
    assert (m ≠ lroot) as Hmr. { intros ->. by apply (Hd lroot). }
    assert (m ∉ addrs l) as Hmnl. { intros Hin. by apply (Hd m). }
    assert (m ∉ addrs (delete_min r)) as Hmr'.
    { rewrite Eaddrs in Hndr. by apply NoDup_cons in Hndr as (? & _). }
    assert (∀ x, x ≠ m → x ≠ lroot → h3 !! x = h2 !! x) as Hfr3.
    { intros x ? ?. unfold h3. by rewrite !list_lookup_alter_ne. }
    assert (h3 !! n = Some (mkNode k v p (Some lroot) (Some rroot))) as Hn3.
    { rewrite Hfr3, Hn2; [done|congruence|]. by intros ->. }
    assert (rep h3 mp (Br l m km vm (delete_min r))) as Hrep3.
    { simpl. split_and!.
      - unfold h3. rewrite list_lookup_alter_eq.
        rewrite list_lookup_alter_ne by congruence.
        rewrite Hm2, Hlroot. done.
      - eapply rep_frame;
          [|eapply (rep_set_parent h2 (Some n)); [exact Hlroot|done|]].
        + intros x Hx. apply list_lookup_alter_ne. by intros ->.
        + eapply rep_frame; [|exact Hl]. intros x Hx. apply Hfr2.
          by apply Hd.
      - eapply rep_frame; [|exact Hrep2]. intros x Hx. apply Hfr3.
        + by intros ->.
        + intros ->. apply delete_min_addrs in Hx. by apply (Hd lroot). }
    destruct (replace_subtree h3 n _ (Br l m km vm (delete_min r)) mp false
                Hn3) as (h' & Hrun & Hrep & Hfr & Hpar).
    { simpl. unfold parent_link in *. destruct p as [pa|]; [|done].
      destruct Hlink as (p_nd & Hp & Hb). exists p_nd. split; [|done].
      destruct (Hpa' pa eq_refl) as (? & ? & ?).
      rewrite Hfr3, Hfr2; [done|done| |].
      - intros ->. by apply Hpa' in Hmin.
      - by intros ->. }
    { exact Hrep3. }
    { apply NoDup_Br. split_and!; try done.
      - rewrite Eaddrs in Hndr. by apply NoDup_cons in Hndr as (_ & ?).
      - intros x Hx Hx'%delete_min_addrs. by apply (Hd x). }
    { simpl. intros pa E. destruct (Hpa' pa E) as (? & ? & ?).
      rewrite elem_of_app, elem_of_cons.
      intros [?|[->|Hin%delete_min_addrs]]; done. }
    cbn [root_of parent] in *. rewrite (bind_Ret _ _ _ _ _ Hrun).
    exists h'. split; [done|]. split; [done|]. split.
    + intros x Hxl Hxr Hxp. rewrite Hfr, Hfr3, Hfr2; try done.
      * by intros ->.
      * by intros ->.
      * by intros [= <-].
    + intros pa p_nd E Hp. apply Hpar; [done|].
      destruct (Hpa' pa E) as (? & ? & ?).
      rewrite Hfr3, Hfr2; [done|done| |].
      * by intros ->.
      * by intros ->.
Qed.

(** ** Removing a node anywhere in the tree *)

Lemma remove_root_inorder left l n k v r :
  let t' := remove_root left (Br l n k v r) in
  addrs t' = addrs l ++ addrs r ∧
  keys t' = keys l ++ keys r ∧
  pairs t' = pairs l ++ pairs r.
Proof.
  simpl. destruct r as [|rl b kb vb rr].
  { simpl. by rewrite !app_nil_r. }
  destruct l as [|ll a ka va lr]; [done|].
  remember (Br ll a ka va lr) as l eqn:El.
  remember (Br rl b kb vb rr) as r eqn:Er.
  destruct left.
  - destruct (max_node_is_Some l) as [[[m km] vm] Hm]; [by subst|].
    rewrite Hm. destruct (max_node_last _ _ _ _ Hm) as (-> & -> & ->).
    simpl. by rewrite <- !app_assoc.
  - destruct (min_node_is_Some r) as [[[m km] vm] Hm]; [by subst|].
    rewrite Hm. destruct (min_node_first _ _ _ _ Hm) as (-> & -> & ->).
    done.
Qed.

Lemma NoDup_plug c t :
  NoDup (addrs (plug c t)) →
  NoDup (addrs t) ∧ NoDup (ctx_before c ++ ctx_after c) ∧
  (∀ x, x ∈ addrs t → x ∉ ctx_before c ++ ctx_after c).
Proof.
  rewrite addrs_plug.
  assert (ctx_before c ++ addrs t ++ ctx_after c ≡ₚ
          addrs t ++ ctx_before c ++ ctx_after c) as ->.
  { rewrite !app_assoc. f_equiv. apply Permutation_app_comm. }
  rewrite NoDup_app. tauto.
Qed.

Lemma parent_link_ctx h c n :
  rep_ctx h c (Some n) → NoDup (ctx_before c ++ ctx_after c) →
  n ∉ ctx_before c ++ ctx_after c →
  parent_link h (ctx_parent c) n (ctx_left c).
Proof.
  destruct c as [|[a k v r|l a k v] c]; simpl; [done|..].
  - intros (Ha & _) _ _. eexists. split; [exact Ha|].
    simpl. by rewrite bool_decide_eq_true_2.
  - intros (Ha & _) _ Hn. eexists. split; [exact Ha|].
    simpl. rewrite bool_decide_eq_false_2; [done|].
    intros E%root_of_addrs. apply Hn. rewrite !elem_of_app. auto.
Qed.

Lemma rep_ctx_replace h h' c n o :
  rep_ctx h c (Some n) → NoDup (ctx_before c ++ ctx_after c) →
  (∀ x, x ∈ ctx_before c ++ ctx_after c → ctx_parent c ≠ Some x →
        h' !! x = h !! x) →
  (∀ pa p_nd, ctx_parent c = Some pa → h !! pa = Some p_nd →
     h' !! pa = Some (if ctx_left c then set_leftChild o p_nd
                      else set_rightChild o p_nd)) →
  rep_ctx h' c o.
Proof.
  destruct c as [|[a k v r|l a k v] c]; simpl; [done|..];
    intros (Ha & Hs & Hc) Hnd Hfr Hpar.
  - apply NoDup_app in Hnd as (Hb & Hd & Hnd).
    apply NoDup_cons in Hnd as (Ha' & Hnd).
    rewrite elem_of_app in Ha'.
    split_and!.
    + by rewrite (Hpar a _ eq_refl Ha).
    + eapply rep_frame; [|exact Hs]. intros x Hx. apply Hfr.
      * rewrite elem_of_app, elem_of_cons, elem_of_app. auto.
      * intros [= ->]. tauto.
    + eapply rep_ctx_frame; [|exact Hc]. intros x Hx. apply Hfr.
      * rewrite elem_of_app, elem_of_cons, elem_of_app.
        rewrite elem_of_app in Hx. tauto.
      * intros [= ->]. apply elem_of_app in Hx as [Hx|Hx]; [|tauto].
        apply (Hd _ Hx). apply elem_of_cons. auto.
  - rewrite <- !app_assoc in Hnd.
    apply NoDup_app in Hnd as (Hb & Hd & Hnd).
    apply NoDup_app in Hnd as (Hl & Hd' & Hnd).
    apply NoDup_cons in Hnd as (Ha' & Hnd).
    split_and!.
    + by rewrite (Hpar a _ eq_refl Ha).
    + eapply rep_frame; [|exact Hs]. intros x Hx. apply Hfr.
      * rewrite !elem_of_app. auto.
      * intros [= ->]. apply (Hd' _ Hx). simpl. apply elem_of_cons. auto.
    + eapply rep_ctx_frame; [|exact Hc]. intros x Hx. apply Hfr.
      * rewrite !elem_of_app. rewrite elem_of_app in Hx. tauto.
      * intros [= ->]. apply elem_of_app in Hx as [Hx|Hx]; [|done].
        apply (Hd _ Hx). rewrite !elem_of_app, elem_of_cons. auto.
Qed.

Lemma ctx_parent_elem c pa :
  ctx_parent c = Some pa → pa ∈ ctx_before c ++ ctx_after c.
Proof.
  destruct c as [|[a k v r|l a k v] c]; simpl; [done|..]; intros [= ->].
  - rewrite elem_of_app, elem_of_cons. auto.
  - rewrite !elem_of_app, elem_of_cons. auto.
Qed.

Lemma Node_remove_plug h c l n k v r :
  rep h None (plug c (Br l n k v r)) →
  NoDup (addrs (plug c (Br l n k v r))) →
  let t' := remove_root (ctx_left c) (Br l n k v r) in
  ∃ h', Node_remove n h = (Ret (root_of t'), h') ∧
        rep h' None (plug c t') ∧
        h' !! n = h !! n.
Proof.
  intros (Hsub & Hctx)%rep_plug (Hndt & Hndc & Hd)%NoDup_plug t'.
  simpl root_of in Hctx.
  assert (n ∈ addrs (Br l n k v r)) as Hn.
  { simpl. rewrite elem_of_app, elem_of_cons. auto. }
  pose proof (parent_link_ctx h c n Hctx Hndc (Hd _ Hn)) as Hlink.
  destruct (Node_remove_subtree h (ctx_parent c) l n k v r (ctx_left c)
              Hsub Hndt Hlink) as (h' & Hrun & Hrep & Hfr & Hpar).
  { intros pa Hpa%ctx_parent_elem Hin. by apply (Hd _ Hin). }
  exists h'. split; [done|]. split.
  - apply rep_plug. split; [done|].
    eapply rep_ctx_replace; [exact Hctx|done| |done].
    intros x Hx Hxp. apply Hfr; [| |done].
    + intros Hin. apply (Hd x); [|done]. simpl. rewrite elem_of_app. auto.
    + intros Hin. apply (Hd x); [|done]. simpl.
      rewrite elem_of_app, elem_of_cons. auto.
  - pose proof (NoDup_Br l n k v r) as [HB _].
    destruct (HB Hndt) as (_ & _ & Hnl & Hnr & _).
    apply Hfr; [done|done|].
    intros Hp%ctx_parent_elem. by apply (Hd n).
Qed.

(** ** The container on a represented tree *)

Lemma well_formed_represents s : well_formed s ↔ ∃ t, represents s t.
Proof. done. Qed.

Lemma omap_cons_Some {A B} (f : A → option B) x y l :
  f x = Some y → omap f (x :: l) = y :: omap f l.
Proof. intros E. simpl. by rewrite E. Qed.

Lemma rep_keys h p t : rep h p t → omap (key_at h) (addrs t) = keys t.
Proof.
  revert p. induction t as [|l IHl a k v r IHr]; intros p; simpl; [done|].
  intros (Ha & Hl & Hr). rewrite omap_app, (omap_cons_Some _ a k).
  - by rewrite (IHl _ Hl), (IHr _ Hr).
  - unfold key_at. by rewrite Ha.
Qed.

Lemma rep_pairs h p t : rep h p t → omap (pair_at h) (addrs t) = pairs t.
Proof.
  revert p. induction t as [|l IHl a k v r IHr]; intros p; simpl; [done|].
  intros (Ha & Hl & Hr). rewrite omap_app, (omap_cons_Some _ a (k, v)).
  - by rewrite (IHl _ Hl), (IHr _ Hr).
  - unfold pair_at. by rewrite Ha.
Qed.

Lemma visited_represents s t : represents s t → visited s = Ret (addrs t).
Proof.
  intros (Hroot & Hrep & Hbst & _). unfold visited, BinarySearchTree_traverse.
  rewrite Hroot. destruct (root_of t) as [a|] eqn:E.
  - rewrite (Node_traverse_spec _ _ t None a); try done.
    by rewrite foldl_snoc.
  - by destruct t.
Qed.

Lemma visited_keys_represents s t :
  represents s t → visited_keys s = Ret (keys t).
Proof.
  intros Hs. unfold visited_keys. rewrite (visited_represents _ _ Hs).
  simpl. destruct Hs as (_ & Hrep & _). by rewrite (rep_keys _ _ _ Hrep).
Qed.

Lemma visited_pairs_represents s t :
  represents s t → visited_pairs s = Ret (pairs t).
Proof.
  intros Hs. unfold visited_pairs. rewrite (visited_represents _ _ Hs).
  simpl. destruct Hs as (_ & Hrep & _). by rewrite (rep_pairs _ _ _ Hrep).
Qed.

Lemma get_represents s t k :
  represents s t → BinarySearchTree_get s k = Ret (tfind t k).
Proof.
  intros (Hroot & Hrep & Hbst & _). unfold BinarySearchTree_get, Node_get.
  rewrite Hroot. destruct (root_of t) as [a|] eqn:E.
  - eapply get_loop_spec; [done|done|]. by eapply rep_fits.
  - by destruct t.
Qed.

Lemma insert_represents s t k v :
  represents s t →
  match tfind t k with
  | Some _ => BinarySearchTree_insert k v s = (Throw (DuplicateKeyError k), s)
  | None =>
      ∃ s', BinarySearchTree_insert k v s = (Ret Undefined, s') ∧
            represents s' (tinsert t (length (nodes s)) k v)
  end.
Proof.
  intros (Hroot & Hrep & Hbst & Hnum). destruct s as [rt num h].
  simpl in *. unfold BinarySearchTree_insert. simpl. subst rt.
  destruct t as [|l a ka va r].
  - simpl. eexists. split; [done|]. unfold represents. simpl.
    split_and!; try done.
    + by rewrite lookup_app_r, Nat.sub_diag.
    + simpl in Hnum. lia.
  - remember (Br l a ka va r) as t eqn:Et.
    assert (root_of t = Some a) as -> by by subst.
    pose proof (insert_loop_spec k v h t (length h) None a Hrep
                  (rep_NoDup _ _ _ Hrep Hbst)) as Hins.
    unfold Node_insert.
    destruct (tfind t k) eqn:Ef.
    + rewrite Hins; [done|by subst|by eapply rep_fits].
    + destruct Hins as (h' & -> & Hrep' & Hlen & Hfr);
        [by subst|by eapply rep_fits|].
      eexists. split; [done|]. unfold represents. simpl.
      split_and!.
      * rewrite root_of_tinsert; by subst.
      * done.
      * by apply bst_tinsert.
      * rewrite length_tinsert by done. lia.
Qed.

Lemma tfind_plug_bst c : ∀ t k,
  bst (plug c t) → k ∈ keys t → tfind (plug c t) k = tfind t k.
Proof.
  induction c as [|[a ka va r|l a ka va] c IH]; intros t k Hb Hk; simpl;
    [done|..].
  - rewrite IH; [|done|simpl; rewrite elem_of_app; auto].
    apply (bst_plug_inv c (Br t a ka va r)) in Hb.
    simpl in Hb. destruct Hb as (_ & _ & Fl & _).
    rewrite Forall_forall in Fl. apply Fl in Hk. simpl.
    by destruct (Z.ltb_spec k ka); [|lia].
  - rewrite IH; [|done|simpl; rewrite elem_of_app, elem_of_cons; auto].
    apply (bst_plug_inv c (Br l a ka va t)) in Hb.
    simpl in Hb. destruct Hb as (_ & _ & _ & Fr).
    rewrite Forall_forall in Fr. apply Fr in Hk. simpl.
    destruct (Z.ltb_spec k ka); [lia|].
    rewrite Z.gtb_ltb. by destruct (Z.ltb_spec ka k); [|lia].
Qed.

Lemma tfind_root l n k v r : tfind (Br l n k v r) k = Some n.
Proof.
  simpl. rewrite Z.ltb_irrefl. by rewrite Z.gtb_ltb, Z.ltb_irrefl.
Qed.

Lemma tfind_at c l n k v r :
  bst (plug c (Br l n k v r)) → tfind (plug c (Br l n k v r)) k = Some n.
Proof.
  intros Hb. rewrite tfind_plug_bst; [apply tfind_root|done|].
  simpl. rewrite elem_of_app, elem_of_cons. auto.
Qed.

Lemma ctx_root_cons c f o o' : ctx_root (f :: c) o = ctx_root (f :: c) o'.
Proof. done. Qed.

Lemma ctx_root_elem c o a :
  c ≠ [] → ctx_root c o = Some a → a ∈ ctx_before c ++ ctx_after c.
Proof.
  revert o. induction c as [|f c IH]; intros o Hne; [done|].
  destruct c as [|f' c'].
  - simpl. destruct f; simpl; intros [= ->].
    + rewrite elem_of_cons. auto.
    + rewrite !elem_of_app, elem_of_cons. auto.
  - intros Hr. change (ctx_root (f' :: c') (Some (frame_addr f)) = Some a) in Hr.
    apply IH in Hr; [|done]. destruct f; simpl in *.
    + rewrite !elem_of_app, ?elem_of_cons, ?elem_of_app in *. tauto.
    + rewrite !elem_of_app, ?elem_of_cons, ?elem_of_app in *. tauto.
Qed.

Lemma bst_remove_root left l n k v r :
  bst (Br l n k v r) → bst (remove_root left (Br l n k v r)).
Proof.
  rewrite !bst_sorted.
  destruct (remove_root_inorder left l n k v r) as (_ & -> & _).
  simpl. rewrite !StronglySorted_app, StronglySorted_cons.
  intros (Hc & Hl & _ & Hr). split_and!; [|done..].
  intros x1 x2 H1 H2. apply Hc; [done|]. apply elem_of_cons. auto.
Qed.

Lemma remove_represents s c l n k v r :
  represents s (plug c (Br l n k v r)) →
  let t' := remove_root (ctx_left c) (Br l n k v r) in
  ∃ h', Node_remove n (nodes s) = (Ret (root_of t'), h') ∧
        h' !! n = nodes s !! n ∧
        BinarySearchTree_remove k s =
          (Ret Undefined,
           mkStore (if decide (root s = Some n) then root_of t' else root s)
                   (numNodes s - 1) h') ∧
        represents
          (mkStore (if decide (root s = Some n) then root_of t' else root s)
                   (numNodes s - 1) h')
          (plug c t').
Proof.
  intros (Hroot & Hrep & Hbst & Hnum) t'.
  pose proof (rep_NoDup _ _ _ Hrep Hbst) as Hnd.
  destruct (Node_remove_plug _ c l n k v r Hrep Hnd)
    as (h' & Hrun & Hrep' & Hn).
  fold t' in Hrun, Hrep'. exists h'. split; [done|]. split; [done|]. split.
  { unfold BinarySearchTree_remove.
    rewrite (get_represents s _ k (conj Hroot (conj Hrep (conj Hbst Hnum)))).
    rewrite (tfind_at _ _ _ _ _ _ Hbst). by rewrite Hrun. }
  unfold represents. simpl. split_and!.
  - rewrite root_of_plug. rewrite Hroot, root_of_plug. simpl root_of.
    destruct c as [|f c].
    + simpl. by rewrite decide_True.
    + rewrite decide_False; [done|].
      intros Hr. apply ctx_root_elem in Hr; [|done].
      apply NoDup_plug in Hnd as (_ & _ & Hd). apply (Hd n); [|done].
      simpl. rewrite elem_of_app, elem_of_cons. auto.
  - done.
  - eapply bst_plug_subst; [exact Hbst| |].
    + apply bst_remove_root. by eapply bst_plug_inv.
    + intros x. unfold t'.
      destruct (remove_root_inorder (ctx_left c) l n k v r) as (_ & -> & _).
      simpl. rewrite !elem_of_app, elem_of_cons. tauto.
  - rewrite Hnum, !addrs_plug. unfold t'.
    destruct (remove_root_inorder (ctx_left c) l n k v r) as (-> & _ & _).
    simpl. rewrite !length_app. simpl. lia.
Qed.

Lemma remove_missing s t k :
  represents s t → tfind t k = None →
  BinarySearchTree_remove k s = (Throw KeyNotFoundError, s).
Proof.
  intros Hs Hf. unfold BinarySearchTree_remove.
  by rewrite (get_represents s t k Hs), Hf.
Qed.

Lemma step_well_formed s o : well_formed s → well_formed (step s o).
Proof.
  intros (t & Hs). destruct o as [k v|k]; simpl.
  - pose proof (insert_represents s t k v Hs) as Hi.
    destruct (tfind t k).
    + rewrite Hi. by exists t.
    + destruct Hi as (s' & -> & Hs'). by eexists.
  - destruct (tfind t k) as [n|] eqn:Ef.
    + destruct (tfind_plug _ _ _ Ef) as (c & l & v & r & ->).
      destruct (remove_represents s c l n k v r Hs) as (h' & _ & _ & -> & Hs').
      by eexists.
    + rewrite (remove_missing s t k Hs Ef). by exists t.
Qed.

Lemma run_well_formed ops : ∀ s, well_formed s → well_formed (run ops s).
Proof.
  induction ops as [|o ops IH]; intros s Hs; [done|].
  simpl. apply IH. by apply step_well_formed.
Qed.

Lemma empty_tree_well_formed : well_formed empty_tree.
Proof. exists Leaf. repeat split. Qed.

(** ** Nodes of the tree and how they are reached *)

Lemma addrs_decompose t n :
  n ∈ addrs t → ∃ c l k v r, t = plug c (Br l n k v r).
Proof.
  induction t as [|l IHl a ka va r IHr]; simpl.
  - intros Hin. by apply elem_of_nil in Hin.
  - rewrite elem_of_app, elem_of_cons. intros [Hin|[->|Hin]].
    + destruct (IHl Hin) as (c & l' & k & v & r' & ->).
      exists (c ++ [FL a ka va r]), l', k, v, r'. by rewrite plug_app.
    + by exists [], l, ka, va, r.
    + destruct (IHr Hin) as (c & l' & k & v & r' & ->).
      exists (c ++ [FR l a ka va]), l', k, v, r'. by rewrite plug_app.
Qed.

Lemma child_rep h p t a b :
  rep h p t → root_of t = Some a → child h a b →
  ∃ t', rep h (Some a) t' ∧ root_of t' = Some b ∧
        ∀ x, x ∈ addrs t' → x ∈ addrs t.
Proof.
  destruct t as [|l a' k v r]; simpl; [done|].
  intros (Ha & Hl & Hr) [= ->] (nd & Hnd & Hc).
  rewrite Ha in Hnd. injection Hnd as <-. simpl in Hc.
  destruct Hc as [Hc|Hc].
  - exists l. split_and!; [done..|]. intros x. rewrite elem_of_app. auto.
  - exists r. split_and!; [done..|]. intros x.
    rewrite elem_of_app, elem_of_cons. auto.
Qed.

Lemma reach_addrs h a x :
  rtc (child h) a x →
  ∀ p t, rep h p t → root_of t = Some a → x ∈ addrs t.
Proof.
  induction 1 as [a|a b x Hab _ IH]; intros p t Hrep Hroot.
  - by apply root_of_addrs.
  - destruct (child_rep _ _ _ _ _ Hrep Hroot Hab) as (t' & ? & ? & Hsub).
    eapply Hsub, IH; done.
Qed.

Lemma addrs_reach h : ∀ t p a x,
  rep h p t → root_of t = Some a → x ∈ addrs t → rtc (child h) a x.
Proof.
  induction t as [|l IHl a' k v r IHr]; intros p a x; simpl; [done|].
  intros (Ha & Hl & Hr) [= ->]. rewrite elem_of_app, elem_of_cons.
  intros [Hin|[->|Hin]].
  - destruct (root_of l) as [b|] eqn:E; [|by destruct l; [apply elem_of_nil in Hin|]].
    eapply rtc_l; [|by eapply IHl]. eexists. split; [done|]. simpl. auto.
  - apply rtc_refl.
  - destruct (root_of r) as [b|] eqn:E; [|by destruct r; [apply elem_of_nil in Hin|]].
    eapply rtc_l; [|by eapply IHr]. eexists. split; [done|]. simpl. auto.
Qed.

Lemma reachable_addrs h t x :
  rep h None t → reachable h (root_of t) x ↔ x ∈ addrs t.
Proof.
  intros Hrep. unfold reachable. split.
  - intros (a & Ha & Hr). by eapply reach_addrs.
  - intros Hin. destruct (root_of t) as [a|] eqn:E.
    + exists a. split; [done|]. by eapply addrs_reach.
    + destruct t; [by apply elem_of_nil in Hin|done].
Qed.

Lemma in_tree_addrs s t n : represents s t → in_tree s n ↔ n ∈ addrs t.
Proof.
  intros (Hroot & Hrep & _). unfold in_tree. rewrite Hroot.
  by apply reachable_addrs.
Qed.

(** ** Predecessor and successor *)

Lemma perm_rot {A} (xs ys zs : list A) a :
  xs ++ a :: ys ++ zs ≡ₚ ys ++ a :: xs ++ zs.
Proof.
  rewrite <- !Permutation_middle. constructor.
  rewrite !app_assoc. f_equiv. apply Permutation_app_comm.
Qed.

Lemma perm_rot_snoc {A} (xs ys zs : list A) a :
  (xs ++ ys ++ [a]) ++ zs ≡ₚ ys ++ a :: xs ++ zs.
Proof.
  rewrite <- !app_assoc. simpl. rewrite <- !Permutation_middle. constructor.
  rewrite !app_assoc. f_equiv. apply Permutation_app_comm.
Qed.

Lemma NoDup_split_unique {A} (l1 l2 k1 k2 : list A) x :
  NoDup (l1 ++ x :: l2) → l1 ++ x :: l2 = k1 ++ x :: k2 → l1 = k1 ∧ l2 = k2.
Proof.
  revert k1. induction l1 as [|y l1 IH]; intros k1 Hnd E.
  - destruct k1 as [|z k1]; simpl in *.
    + by injection E as ->.
    + injection E as <- ->. apply NoDup_cons in Hnd as (Hx & _).
      exfalso. apply Hx. rewrite elem_of_app, elem_of_cons. auto.
  - destruct k1 as [|z k1]; simpl in *.
    + injection E as -> <-. apply NoDup_cons in Hnd as (Hx & _).
      exfalso. apply Hx. rewrite elem_of_app, elem_of_cons. auto.
    + injection E as <- E. apply NoDup_cons in Hnd as (_ & Hnd).
      destruct (IH _ Hnd E) as (-> & ->). done.
Qed.

Lemma predecessor_loop_ctx h : ∀ c prev fuel,
  rep_ctx h c (Some prev) →
  NoDup (prev :: ctx_before c ++ ctx_after c) →
  (length c < fuel)%nat →
  predecessor_loop fuel h prev (ctx_parent c) = Ret (last (ctx_before c)).
Proof.
  induction c as [|[a k v r|l a k v] c IH]; intros prev fuel Hctx Hnd Hf;
    (destruct fuel as [|fuel]; [lia|]); simpl in *; [done|..];
    destruct Hctx as (Ha & Hs & Hc); step_read Ha.
  - apply NoDup_cons in Hnd as (Hprev & Hnd).
    rewrite decide_False.
    + apply IH; [done| |lia].
      rewrite perm_rot in Hnd. by apply NoDup_app in Hnd as (_ & _ & ?).
    + intros E%root_of_addrs. apply Hprev.
      rewrite elem_of_app, elem_of_cons, elem_of_app. auto.
  - rewrite decide_True by done.
    by rewrite !app_assoc, last_snoc.
Qed.

Lemma successor_loop_ctx h : ∀ c prev fuel,
  rep_ctx h c (Some prev) →
  NoDup (prev :: ctx_before c ++ ctx_after c) →
  (length c < fuel)%nat →
  successor_loop fuel h prev (ctx_parent c) = Ret (head (ctx_after c)).
Proof.
  induction c as [|[a k v r|l a k v] c IH]; intros prev fuel Hctx Hnd Hf;
    (destruct fuel as [|fuel]; [lia|]); simpl in *; [done|..];
    destruct Hctx as (Ha & Hs & Hc); step_read Ha.
  - by rewrite decide_True.
  - apply NoDup_cons in Hnd as (Hprev & Hnd).
    rewrite decide_False.
    + apply IH; [done| |lia].
      rewrite perm_rot_snoc in Hnd.
      by apply NoDup_app in Hnd as (_ & _ & ?).
    + intros E%root_of_addrs. apply Hprev. rewrite !elem_of_app. auto.
Qed.

Lemma ctx_length c : (length c ≤ length (ctx_before c ++ ctx_after c))%nat.
Proof.
  induction c as [|[a k v r|l a k v] c IH]; simpl; [done|..];
    rewrite !length_app in *; simpl; rewrite ?length_app; simpl; lia.
Qed.

Lemma ctx_fits h c t :
  rep h None (plug c t) → NoDup (addrs (plug c t)) →
  (length c ≤ length h)%nat.
Proof.
  intros Hrep Hnd. pose proof (rep_fits_NoDup _ _ _ Hrep Hnd) as Hfit.
  rewrite addrs_plug, !length_app in Hfit.
  pose proof (ctx_length c) as Hc. rewrite length_app in Hc. lia.
Qed.

Lemma Node_predecessor_spec h c l n k v r :
  rep h None (plug c (Br l n k v r)) →
  NoDup (addrs (plug c (Br l n k v r))) →
  Node_predecessor h n = Ret (last (ctx_before c ++ addrs l)).
Proof.
  intros Hrep Hnd. pose proof (ctx_fits _ _ _ Hrep Hnd) as Hfit.
  apply rep_plug in Hrep as ((Hn & Hl & Hr) & Hctx).
  apply NoDup_plug in Hnd as (Hndt & Hndc & Hd).
  unfold Node_predecessor.
  assert (length c < S (length h))%nat as Hf by lia.
  revert Hf. generalize (S (length h)) as fuel. intros fuel Hf.
  step_read Hn.
  destruct l as [|ll a ka va lr].
  - simpl. rewrite app_nil_r. apply predecessor_loop_ctx; [done| |lia].
    apply NoDup_cons. split; [|done]. apply Hd. simpl. apply elem_of_cons. auto.
  - remember (Br ll a ka va lr) as l eqn:El.
    assert (root_of l = Some a) as -> by by subst.
    destruct (max_node_is_Some l) as [[[m km] vm] Hm]; [by subst|].
    unfold Node_max.
    rewrite (max_loop_spec h _ l (Some n) a m km vm); [|done|by subst| |done].
    + simpl. destruct (max_node_last _ _ _ _ Hm) as (-> & _).
      by rewrite !app_assoc, last_snoc.
    + apply NoDup_Br in Hndt as (? & _). by eapply rep_fits_NoDup.
Qed.

Lemma Node_successor_spec h c l n k v r :
  rep h None (plug c (Br l n k v r)) →
  NoDup (addrs (plug c (Br l n k v r))) →
  Node_successor h n = Ret (head (addrs r ++ ctx_after c)).
Proof.
  intros Hrep Hnd. pose proof (ctx_fits _ _ _ Hrep Hnd) as Hfit.
  apply rep_plug in Hrep as ((Hn & Hl & Hr) & Hctx).
  apply NoDup_plug in Hnd as (Hndt & Hndc & Hd).
  unfold Node_successor.
  assert (length c < S (length h))%nat as Hf by lia.
  revert Hf. generalize (S (length h)) as fuel. intros fuel Hf.
  step_read Hn.
  destruct r as [|rl a ka va rr].
  - simpl. apply successor_loop_ctx; [done| |lia].
    apply NoDup_cons. split; [|done]. apply Hd. simpl.
    rewrite elem_of_app, elem_of_cons. auto.
  - remember (Br rl a ka va rr) as r eqn:El.
    assert (root_of r = Some a) as -> by by subst.
    destruct (min_node_is_Some r) as [[[m km] vm] Hm]; [by subst|].
    unfold Node_min.
    rewrite (min_loop_spec h _ r (Some n) a m km vm); [|done|by subst| |done].
    + simpl. by destruct (min_node_first _ _ _ _ Hm) as (-> & _).
    + apply NoDup_Br in Hndt as (_ & ? & _). by eapply rep_fits_NoDup.
Qed.

(** ** Keys and values are never assigned *)

Lemma keeps_pairs_ret {A} (a : A) : keeps_pairs (ret a).
Proof. by intros h r h' [= _ ->]. Qed.

Lemma keeps_pairs_lift {A} (f : heap → outcome A) : keeps_pairs (lift f).
Proof. by intros h r h' [= _ ->]. Qed.

Lemma keeps_pairs_bind {A B} (m : M A) (f : A → M B) :
  keeps_pairs m → (∀ a, keeps_pairs (f a)) → keeps_pairs (bind m f).
Proof.
  intros Hm Hf h r h' E x. unfold bind in E.
  destruct (m h) as [[a|e|] h1] eqn:E1.
  - rewrite (Hf a _ _ _ E). by eapply Hm.
  - injection E as _ <-. by eapply Hm.
  - injection E as _ <-. by eapply Hm.
Qed.

Lemma keeps_pairs_assign a f :
  (∀ nd, key (f nd) = key nd ∧ value (f nd) = value nd) →
  keeps_pairs (assign a f).
Proof.
  intros Hf h r h' E x. unfold assign in E.
  destruct (h !! a) as [nd|] eqn:Ea; injection E as _ <-; [|done].
  unfold pair_at. destruct (decide (a = x)) as [->|Hne].
  - rewrite list_lookup_alter_eq, Ea. simpl.
    by destruct (Hf nd) as [-> ->].
  - by rewrite list_lookup_alter_ne.
Qed.

Lemma keeps_pairs_nonnull o : keeps_pairs (nonnull o).
Proof. destruct o; by intros h r h' [= _ ->]. Qed.

Ltac keeps_tac :=
  repeat first
    [ apply keeps_pairs_ret
    | apply keeps_pairs_lift
    | apply keeps_pairs_nonnull
    | apply keeps_pairs_assign; by intros []
    | apply keeps_pairs_bind; [|intros ?]
    | match goal with
      | |- keeps_pairs (match ?o with _ => _ end) => destruct o
      | |- keeps_pairs (if ?b then _ else _) => destruct b
      end ].

Lemma keeps_pairs_replaceWith this node :
  keeps_pairs (Node_replaceWith this node).
Proof. unfold Node_replaceWith, load. keeps_tac. Qed.

Lemma keeps_pairs_adoptLeftChild this node :
  keeps_pairs (Node_adoptLeftChild this node).
Proof. unfold Node_adoptLeftChild, load. keeps_tac. Qed.

Lemma keeps_pairs_adoptRightChild this node :
  keeps_pairs (Node_adoptRightChild this node).
Proof. unfold Node_adoptRightChild, load. keeps_tac. Qed.

Lemma keeps_pairs_remove this : keeps_pairs (Node_remove this).
Proof.
  unfold Node_remove, is_root_or_leftChild, load.
  repeat first
    [ apply keeps_pairs_replaceWith
    | apply keeps_pairs_adoptLeftChild
    | apply keeps_pairs_adoptRightChild
    | progress keeps_tac ].
Qed.

(** ** Presence of a key *)

Lemma has_key_keys s t k : represents s t → has_key s k ↔ k ∈ keys t.
Proof.
  intros Hs. pose proof Hs as (Hroot & Hrep & Hbst & _). split.
  - intros (n & Hn & Hk). apply (in_tree_addrs _ _ _ Hs) in Hn.
    destruct (rep_lookup _ _ _ _ Hrep Hn) as (nd & Hnd & Hin & _).
    unfold key_at in Hk. rewrite Hnd in Hk. by injection Hk as <-.
  - intros Hk. destruct (tfind_keys _ _ Hbst Hk) as [n Hf].
    destruct (tfind_plug _ _ _ Hf) as (c & l & v & r & ->).
    exists n. split.
    + apply (in_tree_addrs _ _ _ Hs). by apply tfind_Some_keys in Hf as [_ ?].
    + apply rep_plug in Hrep as ((Hn & _) & _).
      unfold key_at. by rewrite Hn.
Qed.

(** ** Positions in the heap and in the shape *)




(** ** The keys along a traversal *)

Lemma rep_keys_Forall2 h : ∀ t p,
  rep h p t → Forall2 (λ a k, key_at h a = Some k) (addrs t) (keys t).
Proof.
  induction t as [|l IHl a k v r IHr]; intros p; simpl; [constructor|].
  intros (Ha & Hl & Hr). apply Forall2_app; [by eapply IHl|].
  constructor; [|by eapply IHr]. unfold key_at. by rewrite Ha.
Qed.

Lemma Forall2_Forall_exists {A B} (R : A → B → Prop) (P : B → Prop) l ks :
  Forall2 R l ks → Forall P ks → Forall (λ a, ∃ k, R a k ∧ P k) l.
Proof.
  induction 1 as [|a k l ks Hak _ IH]; intros HP; [constructor|].
  apply Forall_cons in HP as [Hk HP]. constructor; [by exists k|auto].
Qed.

(** In a run of nodes whose keys increase strictly, the nodes before a node
    have smaller keys and the nodes after it larger ones. *)
Lemma sorted_run_split (h : heap) (xs ys : list loc) (n : loc) (ks : list Z) :
  Forall2 (λ a k, key_at h a = Some k) (xs ++ n :: ys) ks →
  StronglySorted Z.lt ks →
  ∃ kn, key_at h n = Some kn ∧
        Forall (λ a, ∃ ka, key_at h a = Some ka ∧ ka < kn) xs ∧
        Forall (λ a, ∃ ka, key_at h a = Some ka ∧ kn < ka) ys.
Proof.
  intros HF Hs.
  apply Forall2_app_inv_l in HF as (k1 & k2 & H1 & H2 & ->).
  apply Forall2_cons_inv_l in H2 as (kn & k2' & Hn & H2 & ->).
  apply StronglySorted_app in Hs as (Hc & _ & Hs).
  apply StronglySorted_cons in Hs as (Hall & _).
  exists kn. split; [done|]. split.
  - eapply Forall2_Forall_exists; [exact H1|].
    apply Forall_forall. intros k Hk. apply Hc; [done|].
    apply elem_of_cons. auto.
  - eapply Forall2_Forall_exists; [exact H2|done].
Qed.

(** ** The properties of the specification *)

(** C1.  After any sequence of insert and remove calls applied to a tree,
    [traverse] visits the nodes in strictly ascending key order: the call
    returns; the nodes it visits are exactly the nodes of the resulting tree,
    each visited once; every visited node has a key, and the list of those
    keys, in the order of the visits, is strictly increasing. *)
Theorem traverse_ascending (s : store) (ops : list op) :
  well_formed s →
  ∃ vis ks, visited (run ops s) = Ret vis ∧
            NoDup vis ∧
            (∀ x, in_tree (run ops s) x ↔ x ∈ vis) ∧
            Forall2 (λ a k, key_at (nodes (run ops s)) a = Some k) vis ks ∧
            visited_keys (run ops s) = Ret ks ∧
            length ks = length vis ∧
            StronglySorted Z.lt ks.
Proof.
  intros Hwf. destruct (run_well_formed ops s Hwf) as (t & Ht).
  pose proof Ht as (_ & Hrep & Hbst & _).
  exists (addrs t), (keys t). split_and!.
  - by apply visited_represents.
  - by eapply rep_NoDup.
  - intros x. by apply in_tree_addrs.
  - by eapply rep_keys_Forall2.
  - by apply visited_keys_represents.
  - apply length_keys.
  - by apply bst_sorted.
Qed.

(** Whatever the tree, a call of the container's [insert] that returns hands
    back [undefined]. *)
Lemma BinarySearchTree_insert_result (k : Z) (v : V) (s s' : store) r :
  BinarySearchTree_insert k v s = (Ret r, s') → r = Undefined.
Proof.
  unfold BinarySearchTree_insert. destruct (root s) as [a|].
  - destruct (Node_insert a k v (nodes s)) as [[n|e|] h']; congruence.
  - simpl. congruence.
Qed.

(** C2 (as the code has it).  [BinarySearchTree.prototype.insert] has no
    [return] statement and drops what [this.root.insert] returns.  On the
    empty tree it creates the root node, the object at reference 0, and hands
    back [undefined]; on the scenario tree, where [Node.prototype.insert]
    returns the node it creates (reference 7), the container's method again
    hands back [undefined]. *)
Theorem tree_insert_returns_undefined (k : Z) (v : V) :
  BinarySearchTree_insert k v empty_tree =
    (Ret Undefined, mkStore (Some 0%nat) 1 [mkNode k v None None None]) ∧
  fst (Node_insert 0%nat 6 v (nodes (demo v))) = Ret 7%nat ∧
  fst (BinarySearchTree_insert 6 v (demo v)) = Ret Undefined.
Proof. repeat split. Qed.


(** C4 (as the code has it).  Removing a node of the tree, through
    [Node.remove] or through [BinarySearchTree.remove] with its key, leaves
    the key and the value of every object as they were.  After
    [BinarySearchTree.remove] every other node of the tree is still reachable
    from the container's [root].  After a bare [Node.remove] every other node
    is reachable from the container's [root] when the removed node was not
    the root, and from the returned replacement when it was: [Node.remove]
    does not assign to the container. *)
Theorem remove_keeps_other_nodes (s : store) (n : loc) :
  well_formed s → in_tree s n →
  ∃ k replacement h',
    key_at (nodes s) n = Some k ∧
    Node_remove n (nodes s) = (Ret replacement, h') ∧
    BinarySearchTree_remove k s =
      (Ret Undefined,
       mkStore (if decide (root s = Some n) then replacement else root s)
               (numNodes s - 1) h') ∧
    (∀ x, pair_at h' x = pair_at (nodes s) x) ∧
    (∀ x, in_tree s x → x ≠ n →
          reachable h' (if decide (root s = Some n) then replacement
                        else root s) x).
Proof.
  intros (t & Hs) Hin.
  apply (in_tree_addrs _ _ _ Hs) in Hin.
  destruct (addrs_decompose _ _ Hin) as (c & l & k & v & r & ->).
  destruct (remove_represents s c l n k v r Hs)
    as (h' & Hrun & Hn' & Htree & Hs').
  eexists k, _, h'. split_and!.
  - destruct Hs as (_ & ((Hn & _) & _)%rep_plug & _).
    unfold key_at. by rewrite Hn.
  - done.
  - done.
  - by eapply keeps_pairs_remove.
  - intros x Hx Hxn. apply (in_tree_addrs _ _ _ Hs) in Hx.
    apply (in_tree_addrs _ _ _ Hs').
    rewrite addrs_plug in *.
    destruct (remove_root_inorder (ctx_left c) l n k v r) as (-> & _ & _).
    simpl in Hx. rewrite !elem_of_app, ?elem_of_cons in *. tauto.
Qed.

(** C5.  On every tree built from the empty tree by insert and remove calls,
    [size()] is the number of nodes [traverse] visits, and these are, without
    repetition, the nodes reachable from the root. *)
Theorem size_counts_nodes (ops : list op) :
  ∃ vis, visited (run ops empty_tree) = Ret vis ∧
         BinarySearchTree_size (run ops empty_tree) = Z.of_nat (length vis) ∧
         NoDup vis ∧
         (∀ x, in_tree (run ops empty_tree) x ↔ x ∈ vis).
Proof.
  destruct (run_well_formed ops _ empty_tree_well_formed) as (t & Ht).
  exists (addrs t). split_and!.
  - by apply visited_represents.
  - by destruct Ht as (_ & _ & _ & ?).
  - destruct Ht as (_ & ? & ? & _). by eapply rep_NoDup.
  - intros x. by apply in_tree_addrs.
Qed.

(** C6.  Inserting a key that is already in the tree throws the
    duplicate-key exception and leaves the store as it was: in particular
    [size()] and the sequence of key/value pairs in traversal order are
    unchanged. *)
Theorem insert_duplicate_fails (s : store) (k : Z) (v : V) :
  well_formed s → has_key s k →
  fst (BinarySearchTree_insert k v s) = Throw (DuplicateKeyError k) ∧
  snd (BinarySearchTree_insert k v s) = s ∧
  BinarySearchTree_size (snd (BinarySearchTree_insert k v s)) =
    BinarySearchTree_size s ∧
  visited_pairs (snd (BinarySearchTree_insert k v s)) = visited_pairs s.
Proof.
  intros (t & Hs) Hk. apply (has_key_keys _ _ _ Hs) in Hk.
  pose proof (insert_represents s t k v Hs) as Hi.
  destruct Hs as (_ & _ & Hbst & _).
  destruct (tfind_keys _ _ Hbst Hk) as [n Hf]. rewrite Hf in Hi.
  by rewrite Hi.
Qed.

(** C7.  Removing a key that is not in the tree (the empty tree included)
    throws the key-not-found exception and leaves the store, that is [root],
    [numNodes] and every node, as it was; removing a key that is in the tree
    does not throw. *)
Theorem remove_missing_or_present (s : store) (k : Z) :
  well_formed s →
  (¬ has_key s k →
     BinarySearchTree_remove k s = (Throw KeyNotFoundError, s)) ∧
  (has_key s k →
     ∃ s', BinarySearchTree_remove k s = (Ret Undefined, s')).
Proof.
  intros (t & Hs). split; intros Hk.
  - apply (remove_missing s t k Hs), tfind_None.
    intros Hin. by apply Hk, (has_key_keys _ _ _ Hs).
  - apply (has_key_keys _ _ _ Hs) in Hk.
    pose proof Hs as (_ & _ & Hbst & _).
    destruct (tfind_keys _ _ Hbst Hk) as [n Hf].
    destruct (tfind_plug _ _ _ Hf) as (c & l & v & r & ->).
    destruct (remove_represents s c l n k v r Hs) as (h' & _ & _ & -> & _).
    by eexists.
Qed.

(** C8.  In a tree satisfying the invariants, [predecessor] and [successor]
    return on every node, the successor of the predecessor of a node is the
    node itself whenever the predecessor exists, and the predecessor of the
    successor is the node itself whenever the successor exists. *)
Theorem predecessor_successor_inverse (s : store) (n : loc) :
  well_formed s → in_tree s n →
  (∃ o, Node_predecessor (nodes s) n = Ret o) ∧
  (∃ o, Node_successor (nodes s) n = Ret o) ∧
  (∀ m, Node_predecessor (nodes s) n = Ret (Some m) →
        Node_successor (nodes s) m = Ret (Some n)) ∧
  (∀ m, Node_successor (nodes s) n = Ret (Some m) →
        Node_predecessor (nodes s) m = Ret (Some n)).
Proof.
  intros (t & Hs) Hin.
  apply (in_tree_addrs _ _ _ Hs) in Hin.
  destruct Hs as (Hroot & Hrep & Hbst & Hnum).
  pose proof (rep_NoDup _ _ _ Hrep Hbst) as Hnd.
  destruct (addrs_decompose _ _ Hin) as (c & l & k & v & r & Et).
  pose proof Hrep as Hrep0. pose proof Hnd as Hnd0.
  rewrite Et in Hrep0, Hnd0.
  pose proof (Node_predecessor_spec _ _ _ _ _ _ _ Hrep0 Hnd0) as Hpred.
  pose proof (Node_successor_spec _ _ _ _ _ _ _ Hrep0 Hnd0) as Hsucc.
  assert (addrs t = (ctx_before c ++ addrs l) ++ n :: addrs r ++ ctx_after c)
    as Eaddrs.
  { rewrite Et, addrs_plug. simpl. by rewrite <- !app_assoc. }
  split; [by eexists|]. split; [by eexists|]. split.
  - intros m Hm. rewrite Hpred in Hm. injection Hm as Hm.
    apply last_Some in Hm as (xs & Exs).
    assert (m ∈ addrs t) as Hmin.
    { rewrite Eaddrs, Exs. rewrite !elem_of_app, elem_of_cons. auto. }
    destruct (addrs_decompose _ _ Hmin) as (c' & l' & k' & v' & r' & Et').
    pose proof Hrep as Hrep1. pose proof Hnd as Hnd1.
    rewrite Et' in Hrep1, Hnd1.
    rewrite (Node_successor_spec _ _ _ _ _ _ _ Hrep1 Hnd1).
    assert (addrs t =
            (ctx_before c' ++ addrs l') ++ m :: addrs r' ++ ctx_after c')
      as Eaddrs'.
    { rewrite Et', addrs_plug. simpl. by rewrite <- !app_assoc. }
    rewrite Eaddrs, Exs in Eaddrs'. rewrite <- app_assoc in Eaddrs'.
    simpl in Eaddrs'.
    apply NoDup_split_unique in Eaddrs' as (_ & <-); [done|].
    rewrite Eaddrs, Exs, <- app_assoc in Hnd. exact Hnd.
  - intros m Hm. rewrite Hsucc in Hm. injection Hm as Hm.
    apply head_Some in Hm as (ys & Eys).
    assert (m ∈ addrs t) as Hmin.
    { rewrite Eaddrs, Eys. rewrite !elem_of_app, !elem_of_cons. auto. }
    destruct (addrs_decompose _ _ Hmin) as (c' & l' & k' & v' & r' & Et').
    pose proof Hrep as Hrep1. pose proof Hnd as Hnd1.
    rewrite Et' in Hrep1, Hnd1.
    rewrite (Node_predecessor_spec _ _ _ _ _ _ _ Hrep1 Hnd1).
    assert (addrs t =
            (ctx_before c' ++ addrs l') ++ m :: addrs r' ++ ctx_after c')
      as Eaddrs'.
    { rewrite Et', addrs_plug. simpl. by rewrite <- !app_assoc. }
    rewrite Eaddrs, Eys in Eaddrs'.
    change ((ctx_before c ++ addrs l) ++ n :: m :: ys)
      with ((ctx_before c ++ addrs l) ++ [n] ++ m :: ys) in Eaddrs'.
    rewrite app_assoc in Eaddrs'.
    apply NoDup_split_unique in Eaddrs' as (<- & _).
    + by rewrite last_snoc.
    + rewrite Eaddrs, Eys in Hnd.
      change ((ctx_before c ++ addrs l) ++ n :: m :: ys)
        with ((ctx_before c ++ addrs l) ++ [n] ++ m :: ys) in Hnd.
      by rewrite app_assoc in Hnd.
Qed.

(** C9.  Inserting a key that is not in the tree and removing it at once
    gives a tree whose traversal yields the same sequence of key/value pairs
    as before the insertion; both calls succeed. *)
Theorem insert_then_remove (s : store) (k : Z) (v : V) :
  well_formed s → ¬ has_key s k →
  ∃ s1 s2 kvs,
    BinarySearchTree_insert k v s = (Ret Undefined, s1) ∧
    BinarySearchTree_remove k s1 = (Ret Undefined, s2) ∧
    visited_pairs s = Ret kvs ∧ visited_pairs s2 = Ret kvs.
Proof.
  intros (t & Hs) Hk.
  assert (tfind t k = None) as Hf.
  { apply tfind_None. intros Hin. by apply Hk, (has_key_keys _ _ _ Hs). }
  pose proof (insert_represents s t k v Hs) as Hi. rewrite Hf in Hi.
  destruct Hi as (s1 & Hi & Hs1).
  destruct (tinsert_plug t (length (nodes s)) k v Hf) as (c & Et & Et').
  rewrite Et' in Hs1.
  destruct (remove_represents s1 c Leaf _ k v Leaf Hs1)
    as (h' & _ & _ & Hr & Hs2).
  simpl in Hs2. rewrite <- Et in Hs2.
  eexists s1, _, (pairs t). split_and!; [done|exact Hr| |].
  - by apply visited_pairs_represents.
  - by apply visited_pairs_represents.
Qed.

(** C10.  [remove] assigns to no field of the node it removes: after the
    call the removed node has the key, value, parent, left child and right
    child it had before. *)
Theorem remove_leaves_node_unchanged (s : store) (n : loc) :
  well_formed s → in_tree s n →
  ∃ replacement h',
    Node_remove n (nodes s) = (Ret replacement, h') ∧
    h' !! n = nodes s !! n.
Proof.
  intros (t & Hs) Hin.
  apply (in_tree_addrs _ _ _ Hs) in Hin.
  destruct (addrs_decompose _ _ Hin) as (c & l & k & v & r & ->).
  destruct (remove_represents s c l n k v r Hs) as (h' & Hrun & Hn' & _).
  by eexists _, h'.
Qed.

(** ** Two example trees *)

Lemma demo_run (v : V) :
  demo v =
  run [Insert 5 v; Insert 3 v; Insert 8 v; Insert 1 v; Insert 4 v;
       Insert 7 v; Insert 9 v] empty_tree.
Proof. reflexivity. Qed.

Lemma small_run (v : V) :
  small v = run [Insert 5 v; Insert 2 v; Insert 8 v; Insert 3 v] empty_tree.
Proof. reflexivity. Qed.

(** The scenarios of the specification: the traversal of the seven keys, the
    size, the minimum and the maximum; then the removal of the root, whose
    place the node with key 4 takes; then the removal of a missing key. *)
Lemma demo_scenario (v : V) :
  visited_keys (demo v) = Ret [1; 3; 4; 5; 7; 8; 9] ∧
  BinarySearchTree_size (demo v) = 7 ∧
  BinarySearchTree_min (demo v) = Ret (Some 3%nat) ∧
  BinarySearchTree_max (demo v) = Ret (Some 6%nat) ∧
  visited_keys (run [Remove 5] (demo v)) = Ret [1; 3; 4; 7; 8; 9] ∧
  BinarySearchTree_size (run [Remove 5] (demo v)) = 6 ∧
  key_at (nodes (run [Remove 5] (demo v))) 4%nat = Some 4 ∧
  root (run [Remove 5] (demo v)) = Some 4%nat ∧
  fst (BinarySearchTree_remove 99 (run [Remove 5] (demo v))) =
    Throw KeyNotFoundError ∧
  BinarySearchTree_size (run [Remove 5; Remove 99] (demo v)) = 6.
Proof. repeat split. Qed.

Lemma demo_represents (v : V) : represents (demo v) (demo_tree v).
Proof.
  unfold represents, demo, demo_tree. simpl.
  repeat split; repeat constructor.
Qed.

Lemma demo_well_formed (v : V) : well_formed (demo v).
Proof. exists (demo_tree v). apply demo_represents. Qed.

Lemma demo_in_tree (v : V) (n : loc) : (n < 7)%nat → in_tree (demo v) n.
Proof.
  intros Hn. apply (in_tree_addrs _ _ _ (demo_represents v)). simpl.
  repeat (destruct n as [|n]; [set_solver|]). lia.
Qed.

Lemma demo_has_key (v : V) (k : Z) :
  has_key (demo v) k ↔ k ∈ [1; 3; 4; 5; 7; 8; 9].
Proof. apply (has_key_keys _ _ _ (demo_represents v)). Qed.

Lemma small_represents (v : V) : represents (small v) (small_tree v).
Proof.
  unfold represents, small, small_tree. simpl.
  repeat split; repeat constructor.
Qed.

Lemma small_well_formed (v : V) : well_formed (small v).
Proof. exists (small_tree v). apply small_represents. Qed.

Lemma small_in_tree (v : V) (n : loc) : (n < 4)%nat → in_tree (small v) n.
Proof.
  intros Hn. apply (in_tree_addrs _ _ _ (small_represents v)). simpl.
  repeat (destruct n as [|n]; [set_solver|]). lia.
Qed.

(** ** Further lemmas on keys and search *)

Lemma rep_key_bound h p t (P : Z → Prop) a :
  rep h p t → Forall P (keys t) → a ∈ addrs t →
  ∃ ka, key_at h a = Some ka ∧ P ka.
Proof.
  intros Hrep HP Hin.
  destruct (rep_lookup _ _ _ _ Hrep Hin) as (nd & Hnd & Hk & _).
  exists (key nd). split.
  - unfold key_at. by rewrite Hnd.
  - rewrite Forall_forall in HP. auto.
Qed.

Lemma rep_key_inj h : ∀ t p a a',
  rep h p t → bst t → a ∈ addrs t → a' ∈ addrs t →
  key_at h a = key_at h a' → a = a'.
Proof.
  induction t as [|l IHl b k v r IHr]; intros p a a'; simpl.
  - intros _ _ Hin. by apply elem_of_nil in Hin.
  - intros (Hb & Hl & Hr) (Bl & Br' & Fl & Fr).
    assert (key_at h b = Some k) as Hkb by (unfold key_at; by rewrite Hb).
    rewrite !elem_of_app, !elem_of_cons.
    intros [H1|[->|H1]] [H2|[->|H2]] E; try done.
    + by eapply IHl.
    + destruct (rep_key_bound _ _ _ _ _ Hl Fl H1) as (k1 & E1 & ?).
      rewrite E1, Hkb in E. injection E as ->. lia.
    + destruct (rep_key_bound _ _ _ _ _ Hl Fl H1) as (k1 & E1 & ?).
      destruct (rep_key_bound _ _ _ _ _ Hr Fr H2) as (k2 & E2 & ?).
      rewrite E1, E2 in E. injection E as ->. lia.
    + destruct (rep_key_bound _ _ _ _ _ Hl Fl H2) as (k2 & E2 & ?).
      rewrite E2, Hkb in E. injection E as ->. lia.
    + destruct (rep_key_bound _ _ _ _ _ Hr Fr H2) as (k2 & E2 & ?).
      rewrite E2, Hkb in E. injection E as ->. lia.
    + destruct (rep_key_bound _ _ _ _ _ Hr Fr H1) as (k1 & E1 & ?).
      destruct (rep_key_bound _ _ _ _ _ Hl Fl H2) as (k2 & E2 & ?).
      rewrite E1, E2 in E. injection E as ->. lia.
    + destruct (rep_key_bound _ _ _ _ _ Hr Fr H1) as (k1 & E1 & ?).
      rewrite E1, Hkb in E. injection E as ->. lia.
    + by eapply IHr.
Qed.

Lemma tfind_key h k a : ∀ t p,
  rep h p t → tfind t k = Some a → key_at h a = Some k.
Proof.
  induction t as [|l IHl b kb vb r IHr]; intros p; simpl; [done|].
  intros (Hb & Hl & Hr).
  destruct (k <? kb) eqn:Hlt; [|destruct (k >? kb) eqn:Hgt].
  - by eapply IHl.
  - by eapply IHr.
  - intros [= <-]. unfold key_at. rewrite Hb. simpl. f_equal. lia.
Qed.

Lemma tfind_iff h p t k a :
  rep h p t → bst t →
  tfind t k = Some a ↔ a ∈ addrs t ∧ key_at h a = Some k.
Proof.
  intros Hrep Hbst. split.
  - intros Hf. split; [by apply tfind_Some_keys in Hf as [_ ?]|].
    by eapply tfind_key.
  - intros (Hin & Hk).
    destruct (rep_lookup _ _ _ _ Hrep Hin) as (nd & Hnd & Hkin & _).
    unfold key_at in Hk. rewrite Hnd in Hk. injection Hk as <-.
    destruct (tfind_keys _ _ Hbst Hkin) as [a' Hf]. rewrite Hf. f_equal.
    eapply rep_key_inj; [done..|by apply tfind_Some_keys in Hf as [_ ?]|done|].
    rewrite (tfind_key _ _ _ _ _ Hrep Hf). unfold key_at. by rewrite Hnd.
Qed.

Lemma option_ext {A} (o1 o2 : option A) :
  (∀ a, o1 = Some a ↔ o2 = Some a) → o1 = o2.
Proof.
  intros H. destruct o1 as [a|], o2 as [b|]; try done.
  - by apply H.
  - symmetry. by apply H.
  - by apply H.
Qed.

Lemma head_omap_keys h (l : list loc) (ks : list Z) m km :
  omap (key_at h) (m :: l) = km :: ks → is_Some (key_at h m) →
  key_at h m = Some km.
Proof. simpl. intros E [x Hx]. rewrite Hx in E. by injection E as -> _. Qed.

(** ** Further properties of the code *)

(** X1.  [traverse] calls the callback exactly once on every node of the
    tree, in ascending key order, whatever the callback computes: the result
    is the callback folded over the list of visited nodes; that list has no
    repetition, holds exactly the nodes of the tree, and the keys of its
    nodes, in the order of the list, increase strictly.  On the empty tree
    the callback is not called. *)
Theorem traverse_calls_back_in_order {A : Type} (s : store)
    (callback : loc → A → A) (acc : A) :
  well_formed s →
  ∃ vis ks,
    visited s = Ret vis ∧ NoDup vis ∧
    (∀ x, in_tree s x ↔ x ∈ vis) ∧
    Forall2 (λ a k, key_at (nodes s) a = Some k) vis ks ∧
    StronglySorted Z.lt ks ∧
    (root s = None → vis = []) ∧
    BinarySearchTree_traverse s callback acc =
      Ret (foldl (λ acc a, callback a acc) acc vis).
Proof.
  intros (t & Hs). exists (addrs t), (keys t).
  split; [by apply visited_represents|].
  pose proof Hs as (Hroot & Hrep & Hbst & _).
  split; [by eapply rep_NoDup|].
  split; [intros x; by apply in_tree_addrs|].
  split; [by eapply rep_keys_Forall2|].
  split; [by apply bst_sorted|]. split.
  - rewrite Hroot. by destruct t.
  - unfold BinarySearchTree_traverse. rewrite Hroot.
    destruct (root_of t) as [a|] eqn:E.
    + by eapply Node_traverse_spec.
    + by destruct t.
Qed.

(** X2.  [min] and [max] of the container return the first and the last node
    of the traversal ([null] exactly on the empty tree), and no node of the
    tree has a key below that of [min] or above that of [max]. *)
Theorem min_max_are_ends (s : store) :
  well_formed s →
  ∃ vis, visited s = Ret vis ∧
         BinarySearchTree_min s = Ret (head vis) ∧
         BinarySearchTree_max s = Ret (last vis) ∧
         (∀ m n, head vis = Some m → in_tree s n →
            ∃ km kn, key_at (nodes s) m = Some km ∧
                     key_at (nodes s) n = Some kn ∧ km ≤ kn) ∧
         (∀ m n, last vis = Some m → in_tree s n →
            ∃ km kn, key_at (nodes s) m = Some km ∧
                     key_at (nodes s) n = Some kn ∧ kn ≤ km).
Proof.
  intros (t & Hs). exists (addrs t).
  split; [by apply visited_represents|].
  pose proof Hs as (Hroot & Hrep & Hbst & _).
  pose proof (rep_fits _ _ _ Hrep Hbst) as Hfit.
  pose proof (proj1 (bst_sorted t) Hbst) as Hsorted.
  unfold BinarySearchTree_min, BinarySearchTree_max, Node_min, Node_max.
  rewrite Hroot.
  destruct t as [|l a k v r]; [by repeat split|].
  remember (Br l a k v r) as t eqn:Et.
  assert (root_of t = Some a) as -> by by subst.
  destruct (min_node_is_Some t) as [[[m1 k1] v1] Hm1]; [by subst|].
  destruct (max_node_is_Some t) as [[[m2 k2] v2] Hm2]; [by subst|].
  rewrite (min_loop_spec _ _ t None a m1 k1 v1) by (done || by subst).
  rewrite (max_loop_spec _ _ t None a m2 k2 v2) by (done || by subst).
  destruct (min_node_first _ _ _ _ Hm1) as (Ea1 & Ek1 & _).
  destruct (max_node_last _ _ _ _ Hm2) as (Ea2 & Ek2 & _).
  split; [by rewrite Ea1|]. split; [by rewrite Ea2, last_snoc|].
  assert (∀ n, in_tree s n →
            ∃ kn, key_at (nodes s) n = Some kn ∧ kn ∈ keys t) as Hkeys.
  { intros n Hn. apply (in_tree_addrs _ _ _ Hs) in Hn.
    destruct (rep_lookup _ _ _ _ Hrep Hn) as (nd & Hnd & Hk & _).
    exists (key nd). unfold key_at. by rewrite Hnd. }
  split.
  - intros m n Hm Hn. rewrite Ea1 in Hm. injection Hm as <-.
    destruct (Hkeys n Hn) as (kn & Hkn & Hin).
    exists k1, kn. split_and!; [|done|].
    + pose proof (rep_keys _ _ _ Hrep) as Ek. rewrite Ea1, Ek1 in Ek.
      eapply head_omap_keys; [exact Ek|].
      destruct (Hkeys m1) as (? & -> & _); [|by eexists].
      apply (in_tree_addrs _ _ _ Hs). by eapply min_node_addrs.
    + rewrite Ek1 in Hin, Hsorted. apply StronglySorted_cons in Hsorted.
      destruct Hsorted as (Hall & _). rewrite Forall_forall in Hall.
      apply elem_of_cons in Hin as [->|Hin]; [lia|].
      apply Hall in Hin. lia.
  - intros m n Hm Hn. rewrite Ea2, last_snoc in Hm. injection Hm as <-.
    destruct (Hkeys n Hn) as (kn & Hkn & Hin).
    destruct (Hkeys m2) as (km & Hkm & _).
    { apply (in_tree_addrs _ _ _ Hs). by eapply max_node_addrs. }
    assert (km = k2) as ->.
    { pose proof (rep_keys _ _ _ Hrep) as Ek. rewrite Ea2, Ek2 in Ek.
      rewrite omap_app in Ek. simpl in Ek. rewrite Hkm in Ek.
      apply app_inj_2 in Ek as (_ & Ek); [by injection Ek|done]. }
    exists k2, kn. split_and!; [done..|].
    rewrite Ek2 in Hin, Hsorted. apply StronglySorted_app in Hsorted.
    destruct Hsorted as (Hall & _).
    apply elem_of_app in Hin as [Hin|Hin].
    + specialize (Hall kn k2 Hin). rewrite list_elem_of_singleton in Hall.
      specialize (Hall eq_refl). lia.
    + apply list_elem_of_singleton in Hin. lia.
Qed.

(** X3.  [get] of the container returns a node of the tree holding the key
    when some node holds it, and [null] otherwise; it never throws. *)
Theorem get_finds_key (s : store) (k : Z) :
  well_formed s →
  (has_key s k →
     ∃ n, BinarySearchTree_get s k = Ret (Some n) ∧ in_tree s n ∧
          key_at (nodes s) n = Some k) ∧
  (¬ has_key s k → BinarySearchTree_get s k = Ret None).
Proof.
  intros (t & Hs). rewrite (get_represents s t k Hs).
  pose proof Hs as (_ & Hrep & Hbst & _). split; intros Hk.
  - apply (has_key_keys _ _ _ Hs) in Hk.
    destruct (tfind_keys _ _ Hbst Hk) as [n Hf]. exists n.
    apply (tfind_iff _ _ _ _ _ Hrep Hbst) in Hf as Hf'.
    destruct Hf' as (Hin & Hkey). split_and!; [by rewrite Hf| |done].
    by apply (in_tree_addrs _ _ _ Hs).
  - f_equal. apply tfind_None. intros Hin.
    by apply Hk, (has_key_keys _ _ _ Hs).
Qed.

(** X7.  [predecessor] returns the node visited just before the node by the
    traversal of the whole tree, and [successor] the node visited just after
    it; each returns [null] exactly when there is no such node. *)
Theorem predecessor_successor_are_neighbours (s : store) (n : loc) :
  well_formed s → in_tree s n →
  ∃ before after,
    visited s = Ret (before ++ n :: after) ∧
    Node_predecessor (nodes s) n = Ret (last before) ∧
    Node_successor (nodes s) n = Ret (head after).
Proof.
  intros (t & Hs) Hin. apply (in_tree_addrs _ _ _ Hs) in Hin.
  destruct (addrs_decompose _ _ Hin) as (c & l & k & v & r & ->).
  pose proof Hs as (_ & Hrep & Hbst & _).
  pose proof (rep_NoDup _ _ _ Hrep Hbst) as Hnd.
  exists (ctx_before c ++ addrs l), (addrs r ++ ctx_after c). split_and!.
  - rewrite (visited_represents _ _ Hs), addrs_plug. simpl.
    by rewrite <- !app_assoc.
  - by apply (Node_predecessor_spec _ c l n k v r).
  - by apply (Node_successor_spec _ c l n k v r).
Qed.

(** X15.  On every tree built from the empty tree by insert and remove
    calls, [root] is [null] exactly when [size()] is 0, and [size()] is never
    negative. *)
Theorem root_null_iff_empty (ops : list op) :
  (root (run ops empty_tree) = None ↔
     BinarySearchTree_size (run ops empty_tree) = 0) ∧
  0 ≤ BinarySearchTree_size (run ops empty_tree).
Proof.
  destruct (run_well_formed ops _ empty_tree_well_formed)
    as (t & Hroot & _ & _ & Hnum).
  unfold BinarySearchTree_size. rewrite Hroot, Hnum.
  destruct t as [|l a k v r]; simpl; [done|].
  rewrite length_app. simpl. split; [|lia]. split; [done|lia].
Qed.

Lemma tfind_tinsert_same t n k v :
  tfind t k = None → tfind (tinsert t n k v) k = Some n.
Proof.
  induction t as [|l IHl a ka va r IHr]; simpl.
  - intros _. by rewrite Z.ltb_irrefl, Z.gtb_ltb, Z.ltb_irrefl.
  - destruct (k <? ka) eqn:Hlt; [|destruct (k >? ka) eqn:Hgt]; simpl;
      rewrite ?Hlt, ?Hgt; auto. done.
Qed.

Lemma tfind_tinsert_other t n k v k' :
  k' ≠ k → tfind (tinsert t n k v) k' = tfind t k'.
Proof.
  intros Hne. induction t as [|l IHl a ka va r IHr]; simpl.
  - destruct (Z.ltb_spec k' k); [done|].
    rewrite Z.gtb_ltb. destruct (Z.ltb_spec k k'); [done|lia].
  - destruct (k <? ka) eqn:Hlt; [|destruct (k >? ka) eqn:Hgt]; simpl;
      rewrite ?IHl, ?IHr; done.
Qed.

Lemma tinsert_found t n k v a : tfind t k = Some a → tinsert t n k v = t.
Proof.
  induction t as [|l IHl b kb vb r IHr]; simpl; [done|].
  destruct (k <? kb) eqn:Hlt; [|destruct (k >? kb) eqn:Hgt].
  - intros Hf. by rewrite IHl.
  - intros Hf. by rewrite IHr.
  - done.
Qed.

Lemma key_at_pair_at (h : heap) a : key_at h a = fst <$> pair_at h a.
Proof. unfold key_at, pair_at. by destruct (h !! a). Qed.

Lemma addrs_after_remove c l n k v r left x :
  NoDup (addrs (plug c (Br l n k v r))) →
  x ∈ addrs (plug c (remove_root left (Br l n k v r))) ↔
  x ∈ addrs (plug c (Br l n k v r)) ∧ x ≠ n.
Proof.
  rewrite !addrs_plug.
  destruct (remove_root_inorder left l n k v r) as (-> & _ & _). simpl.
  intros Hnd.
  assert (x = n → (x ∉ ctx_before c) ∧ (x ∉ addrs l) ∧ (x ∉ addrs r) ∧
                  (x ∉ ctx_after c)) as Hn.
  { intros ->. apply NoDup_app in Hnd as (_ & Hd1 & Hnd).
    rewrite <- app_assoc in Hnd. simpl in Hnd.
    apply NoDup_app in Hnd as (_ & Hd2 & Hnd).
    apply NoDup_cons in Hnd as (Hd3 & _).
    rewrite elem_of_app in Hd3. split_and!; try tauto.
    - intros Hin. apply (Hd1 _ Hin). rewrite !elem_of_app, elem_of_cons.
      auto.
    - intros Hin. apply (Hd2 _ Hin). apply elem_of_cons. auto. }
  rewrite !elem_of_app, elem_of_cons.
  destruct (decide (x = n)) as [E|E]; [|tauto].
  destruct (Hn E) as (? & ? & ? & ?). tauto.
Qed.

Lemma ins_pair_app_l k v l1 k' v' l2 :
  k < k' →
  ins_pair k v (l1 ++ (k', v') :: l2) = ins_pair k v l1 ++ (k', v') :: l2.
Proof.
  intros Hlt. induction l1 as [|[a b] l1 IH]; simpl.
  - by destruct (Z.ltb_spec k k'); [|lia].
  - destruct (k <? a); [done|]. destruct (k >? a); [|done].
    by rewrite IH.
Qed.

Lemma ins_pair_app_r k v l1 l2 :
  Forall (λ p, p.1 < k) l1 → ins_pair k v (l1 ++ l2) = l1 ++ ins_pair k v l2.
Proof.
  induction 1 as [|[a b] l1 Ha _ IH]; simpl; [done|]. simpl in Ha.
  destruct (Z.ltb_spec k a); [lia|]. rewrite Z.gtb_ltb.
  destruct (Z.ltb_spec a k); [|lia]. by rewrite IH.
Qed.

Lemma pairs_tinsert t n k v :
  bst t → pairs (tinsert t n k v) = ins_pair k v (pairs t).
Proof.
  induction t as [|l IHl a ka va r IHr]; simpl; [done|].
  intros (Bl & Br' & Fl & Fr).
  assert (Forall (λ p : Z * V, p.1 < ka) (pairs l)) as Fl'.
  { rewrite keys_pairs in Fl. by apply Forall_fmap in Fl. }
  destruct (k <? ka) eqn:Hlt; [|destruct (k >? ka) eqn:Hgt]; simpl.
  - rewrite ins_pair_app_l by lia. by rewrite IHl.
  - rewrite ins_pair_app_r.
    + simpl. rewrite Hlt, Hgt. by rewrite IHr.
    + eapply Forall_impl; [exact Fl'|]. simpl. intros. lia.
  - rewrite ins_pair_app_r.
    + simpl. by rewrite Hlt, Hgt.
    + eapply Forall_impl; [exact Fl'|]. simpl. intros. lia.
Qed.

Lemma filter_all {A} (P : A → Prop) `{∀ x, Decision (P x)} (l : list A) :
  Forall P l → filter P l = l.
Proof.
  induction 1 as [|x l Hx _ IH]; [done|].
  rewrite filter_cons, decide_True by done. by rewrite IH.
Qed.

Lemma filter_sorted_middle (p1 p2 : list (Z * V)) k v :
  StronglySorted Z.lt ((p1 ++ (k, v) :: p2).*1) →
  filter (λ p, p.1 ≠ k) (p1 ++ (k, v) :: p2) = p1 ++ p2.
Proof.
  rewrite fmap_app, fmap_cons. simpl.
  rewrite StronglySorted_app, StronglySorted_cons.
  intros (Hc & _ & Hall & _).
  rewrite filter_app, filter_cons, decide_False by (simpl; auto).
  rewrite !filter_all; [done|..].
  - rewrite Forall_forall in Hall. apply Forall_forall. intros p Hp. simpl.
    assert (k < p.1); [|lia]. apply Hall, list_elem_of_fmap. by exists p.
  - apply Forall_forall. intros p Hp. simpl.
    assert (p.1 < k); [|lia]. apply Hc.
    + apply list_elem_of_fmap. by exists p.
    + apply elem_of_cons. auto.
Qed.

Lemma omap_ext_all {A B} (f g : A → option B) (l : list A) :
  (∀ x, f x = g x) → omap f l = omap g l.
Proof.
  intros E. induction l as [|x l IH]; [done|].
  change (omap f (x :: l))
    with (match f x with Some y => y :: omap f l | None => omap f l end).
  change (omap g (x :: l))
    with (match g x with Some y => y :: omap g l | None => omap g l end).
  by rewrite E, IH.
Qed.

(** The pairs after a removal are the pairs before with the removed node's
    pair taken out. *)
Lemma pairs_after_remove s c l n k v r h' :
  represents s (plug c (Br l n k v r)) →
  (∀ x, pair_at h' x = pair_at (nodes s) x) →
  rep h' None (plug c (remove_root (ctx_left c) (Br l n k v r))) →
  pairs (plug c (remove_root (ctx_left c) (Br l n k v r))) =
  filter (λ p, p.1 ≠ k) (pairs (plug c (Br l n k v r))).
Proof.
  intros (_ & Hrep & Hbst & _) Hkeep Hrep'.
  pose proof (proj1 (bst_sorted _) Hbst) as Hsorted.
  rewrite keys_pairs in Hsorted.
  rewrite <- (rep_pairs _ _ _ Hrep') in *.
  rewrite <- (rep_pairs _ _ _ Hrep) in *.
  rewrite (omap_ext_all _ _ _ Hkeep).
  apply rep_plug in Hrep as ((Hn & _) & _).
  rewrite !addrs_plug in *.
  destruct (remove_root_inorder (ctx_left c) l n k v r) as (-> & _ & _).
  simpl in *.
  assert (omap (pair_at (nodes s))
            (ctx_before c ++ (addrs l ++ n :: addrs r) ++ ctx_after c) =
          omap (pair_at (nodes s)) (ctx_before c ++ addrs l) ++
          (k, v) :: omap (pair_at (nodes s)) (addrs r ++ ctx_after c)) as E.
  { rewrite <- !app_assoc. simpl. rewrite !omap_app.
    rewrite (omap_cons_Some _ n (k, v)); [|unfold pair_at; by rewrite Hn].
    by rewrite !omap_app, <- !app_assoc. }
  rewrite E in *. rewrite filter_sorted_middle by done.
  by rewrite !omap_app, <- !app_assoc.
Qed.

(** X4.  Inserting a key that is not in the tree succeeds and adds one to
    [size()]; afterwards [get] of that key returns the node just created,
    a childless node holding the key and the value, and [get] of every other
    key returns what it returned before. *)
Theorem insert_then_get (s : store) (k : Z) (v : V) :
  well_formed s → ¬ has_key s k →
  ∃ s' nd,
    BinarySearchTree_insert k v s = (Ret Undefined, s') ∧
    well_formed s' ∧
    BinarySearchTree_size s' = BinarySearchTree_size s + 1 ∧
    BinarySearchTree_get s' k = Ret (Some (length (nodes s))) ∧
    nodes s' !! length (nodes s) = Some nd ∧
    key nd = k ∧ value nd = v ∧ leftChild nd = None ∧ rightChild nd = None ∧
    (∀ k', k' ≠ k → BinarySearchTree_get s' k' = BinarySearchTree_get s k').
Proof.
  intros (t & Hs) Hk.
  assert (tfind t k = None) as Hf.
  { apply tfind_None. intros Hin. by apply Hk, (has_key_keys _ _ _ Hs). }
  pose proof (insert_represents s t k v Hs) as Hi. rewrite Hf in Hi.
  destruct Hi as (s' & Hi & Hs').
  destruct (tinsert_plug t (length (nodes s)) k v Hf) as (c & Et & Et').
  pose proof Hs' as (_ & Hrep' & _ & Hnum').
  rewrite Et' in Hrep'. apply rep_plug in Hrep' as ((Hn & _) & _).
  eexists s', _. split_and!; [done|by eexists| |
    |exact Hn|done|done|done|done|].
  - unfold BinarySearchTree_size. rewrite Hnum'.
    destruct Hs as (_ & _ & _ & ->). rewrite length_tinsert by done. lia.
  - rewrite (get_represents _ _ _ Hs'). by rewrite tfind_tinsert_same.
  - intros k' Hne. rewrite (get_represents _ _ _ Hs'), (get_represents _ _ _ Hs).
    by rewrite tfind_tinsert_other.
Qed.

(** X5.  Removing a key that is in the tree succeeds and takes one from
    [size()]; afterwards [get] of that key returns [null], and [get] of every
    other key returns the very node it returned before. *)
Theorem remove_then_get (s : store) (k : Z) :
  well_formed s → has_key s k →
  ∃ s',
    BinarySearchTree_remove k s = (Ret Undefined, s') ∧
    well_formed s' ∧
    BinarySearchTree_size s' = BinarySearchTree_size s - 1 ∧
    BinarySearchTree_get s' k = Ret None ∧
    (∀ k', k' ≠ k → BinarySearchTree_get s' k' = BinarySearchTree_get s k').
Proof.
  intros (t & Hs) Hk. apply (has_key_keys _ _ _ Hs) in Hk.
  pose proof Hs as (_ & Hrep & Hbst & _).
  destruct (tfind_keys _ _ Hbst Hk) as [n Hf].
  destruct (tfind_plug _ _ _ Hf) as (c & l & v & r & ->).
  destruct (remove_represents s c l n k v r Hs)
    as (h' & Hrun & Hn' & Htree & Hs').
  pose proof (rep_NoDup _ _ _ Hrep Hbst) as Hnd.
  pose proof (addrs_after_remove c l n k v r (ctx_left c)) as Haddrs.
  remember (plug c (remove_root (ctx_left c) (Br l n k v r))) as t' eqn:Et'.
  pose proof Hs' as (_ & Hrep' & Hbst' & _). cbn [nodes] in Hrep'.
  assert (∀ x, key_at h' x = key_at (nodes s) x) as Hkeep.
  { intros x. rewrite !key_at_pair_at.
    by rewrite (keeps_pairs_remove n _ _ _ Hrun x). }
  assert (key_at (nodes s) n = Some k) as Hkn.
  { by eapply tfind_key. }
  eexists. split; [exact Htree|]. split; [by eexists|]. split; [done|].
  rewrite !(get_represents _ _ _ Hs'). split.
  - f_equal. destruct (tfind t' k) as [a|] eqn:Ef; [|done]. exfalso.
    apply (tfind_iff _ _ _ _ _ Hrep' Hbst') in Ef as (Hin & Hka).
    apply Haddrs in Hin as (Hin & Hne); [|done].
    apply Hne. eapply rep_key_inj; [exact Hrep|done|done| |].
    + by apply tfind_Some_keys in Hf as [_ ?].
    + by rewrite <- Hkeep, Hka.
  - intros k' Hne.
    rewrite (get_represents _ _ k' Hs'), (get_represents _ _ k' Hs). f_equal.
    apply option_ext. intros a.
    rewrite (tfind_iff _ _ _ _ _ Hrep' Hbst'), (tfind_iff _ _ _ _ _ Hrep Hbst).
    rewrite Haddrs by done. rewrite Hkeep. split; [tauto|].
    intros (Hin & Hka). split_and!; [done| |done].
    intros ->. congruence.
Qed.

(** X6.  The container behaves as a list of key/value pairs kept in ascending
    key order: after any sequence of insert and remove calls the traversal
    yields the list obtained by inserting each new key at its place (a
    repeated key changes nothing) and dropping each removed key. *)
Theorem container_refines_sorted_list (s : store) (ops : list op) :
  well_formed s →
  ∃ l, visited_pairs s = Ret l ∧
       visited_pairs (run ops s) = Ret (foldl model_step l ops).
Proof.
  intros (t & Hs). exists (pairs t).
  split; [by apply visited_pairs_represents|].
  revert s t Hs. induction ops as [|o ops IH]; intros s t Hs; simpl.
  { by apply visited_pairs_represents. }
  destruct o as [k v|k]; simpl.
  - pose proof (insert_represents s t k v Hs) as Hi.
    pose proof Hs as (_ & _ & Hbst & _).
    rewrite <- (pairs_tinsert t (length (nodes s)) k v Hbst).
    destruct (tfind t k) eqn:Ef.
    + rewrite Hi. simpl. rewrite (tinsert_found _ _ _ _ _ Ef). by apply IH.
    + destruct Hi as (s' & -> & Hs'). simpl. by apply IH.
  - destruct (tfind t k) as [n|] eqn:Ef.
    + destruct (tfind_plug _ _ _ Ef) as (c & l & v & r & ->).
      destruct (remove_represents s c l n k v r Hs)
        as (h' & Hrun & _ & -> & Hs').
      simpl. rewrite <- (pairs_after_remove s c l n k v r h' Hs).
      * by apply IH.
      * intros x. by rewrite (keeps_pairs_remove n _ _ _ Hrun x).
      * by destruct Hs' as (_ & ? & _).
    + rewrite (remove_missing s t k Hs Ef). simpl.
      rewrite filter_all; [by apply IH|].
      apply Forall_forall. intros p Hp. simpl. intros <-.
      assert (p.1 ∈ keys t) as Hin.
      { rewrite keys_pairs. apply list_elem_of_fmap. by exists p. }
      pose proof Hs as (_ & _ & Hbst & _).
      destruct (tfind_keys _ _ Hbst Hin) as [? ?]. congruence.
Qed.

Lemma in_tree_subtree s t n :
  represents s t → in_tree s n →
  ∃ c l k v r,
    t = plug c (Br l n k v r) ∧
    rep (nodes s) (ctx_parent c) (Br l n k v r) ∧
    rep_ctx (nodes s) c (Some n) ∧
    bst (Br l n k v r) ∧ NoDup (addrs (Br l n k v r)) ∧
    (length (addrs (Br l n k v r)) ≤ length (nodes s))%nat.
Proof.
  intros Hs Hin. apply (in_tree_addrs _ _ _ Hs) in Hin.
  destruct (addrs_decompose _ _ Hin) as (c & l & k & v & r & ->).
  destruct Hs as (_ & Hrep & Hbst & _).
  pose proof (rep_NoDup _ _ _ Hrep Hbst) as Hnd.
  apply rep_plug in Hrep as (Hsub & Hctx).
  apply bst_plug_inv in Hbst. apply NoDup_plug in Hnd as (Hnd & _).
  exists c, l, k, v, r. split_and!; try done.
  by eapply rep_fits_NoDup.
Qed.

Lemma subtree_reach h p t n x :
  rep h p t → root_of t = Some n → x ∈ addrs t ↔ rtc (child h) n x.
Proof.
  intros Hrep Hroot. split.
  - by eapply addrs_reach.
  - intros Hr. by eapply reach_addrs.
Qed.

(** X8.  At every node of the tree, the node's own [traverse] calls the
    callback once on each node of the subtree below it, in ascending key
    order: the result is the callback folded over a list without repetition
    that holds exactly the nodes reachable from the node by child links and
    whose keys, in the order of the list, increase strictly.  These nodes
    are visited consecutively by the traversal of the whole tree; the node's
    [min] and [max] return the first and the last of them. *)
Theorem subtree_traverse_min_max (s : store) (n : loc) :
  well_formed s → in_tree s n →
  ∃ sub ks m1 m2 before after,
    visited s = Ret (before ++ sub ++ after) ∧
    NoDup sub ∧
    (∀ x, x ∈ sub ↔ rtc (child (nodes s)) n x) ∧
    Forall2 (λ a k, key_at (nodes s) a = Some k) sub ks ∧
    StronglySorted Z.lt ks ∧
    (∀ (A : Type) (callback : loc → A → A) (acc : A),
       Node_traverse (nodes s) n callback acc =
       Ret (foldl (λ acc a, callback a acc) acc sub)) ∧
    Node_min (nodes s) n = Ret m1 ∧ head sub = Some m1 ∧
    Node_max (nodes s) n = Ret m2 ∧ last sub = Some m2.
Proof.
  intros (t & Hs) Hin.
  destruct (in_tree_subtree s t n Hs Hin)
    as (c & l & k & v & r & -> & Hsub & Hctx & Hbst & Hnd & Hfit).
  remember (Br l n k v r) as sub eqn:Esub.
  assert (root_of sub = Some n) as Hroot by by subst.
  destruct (min_node_is_Some sub) as [[[m1 k1] v1] Hm1]; [by subst|].
  destruct (max_node_is_Some sub) as [[[m2 k2] v2] Hm2]; [by subst|].
  exists (addrs sub), (keys sub), m1, m2, (ctx_before c), (ctx_after c).
  split_and!.
  - by rewrite (visited_represents _ _ Hs), addrs_plug.
  - done.
  - intros x. by eapply subtree_reach.
  - by eapply rep_keys_Forall2.
  - by apply bst_sorted.
  - intros A callback acc. by eapply Node_traverse_spec.
  - unfold Node_min. by eapply min_loop_spec.
  - by destruct (min_node_first _ _ _ _ Hm1) as (-> & _).
  - unfold Node_max. by eapply max_loop_spec.
  - destruct (max_node_last _ _ _ _ Hm2) as (-> & _). apply last_snoc.
Qed.

(** X9.  At every node of the tree, the node's own [get] returns a node
    exactly when that node lies in the subtree below it and holds the key;
    when the subtree has no such node it returns [null]. *)
Theorem Node_get_searches_subtree (s : store) (n : loc) (k : Z) :
  well_formed s → in_tree s n →
  ∃ o, Node_get (nodes s) n k = Ret o ∧
       ∀ m, o = Some m ↔
            rtc (child (nodes s)) n m ∧ key_at (nodes s) m = Some k.
Proof.
  intros (t & Hs) Hin.
  destruct (in_tree_subtree s t n Hs Hin)
    as (c & l & kn & v & r & -> & Hsub & Hctx & Hbst & Hnd & Hfit).
  exists (tfind (Br l n kn v r) k). split.
  - unfold Node_get. by eapply get_loop_spec.
  - intros m. rewrite (tfind_iff _ _ _ _ _ Hsub Hbst).
    by rewrite (subtree_reach _ _ _ n m Hsub eq_refl).
Qed.

Lemma ctx_link_becomes h h' c n nd o :
  rep_ctx h c (Some n) → rep_ctx h' c o →
  n ∉ ctx_before c ++ ctx_after c →
  h !! n = Some nd → parent nd = ctx_parent c →
  link_becomes h h' n o.
Proof.
  intros Hctx Hctx' Hn Hnd Hp. exists nd. split; [done|].
  intros pa p_nd Hpa Hpnd. rewrite Hp in Hpa.
  destruct c as [|[a k v r|l a k v] c]; [done|..]; simpl in *;
    injection Hpa as ->; destruct Hctx as (Ha & _);
    destruct Hctx' as (Ha' & _); rewrite Ha in Hpnd; injection Hpnd as <-;
    eexists; (split; [exact Ha'|]); simpl; split; try done.
  - intros E%root_of_addrs. exfalso. apply Hn.
    rewrite elem_of_app, elem_of_cons, elem_of_app. auto.
  - intros E%root_of_addrs. exfalso. apply Hn. rewrite !elem_of_app. auto.
Qed.

(** X10.  Removing a node that lacks a child: without a right child the node
    is replaced by its left child (by [null] when it has none), otherwise,
    without a left child, by its right child.  [remove] returns that
    replacement; the parent's link that held the node holds the replacement;
    the replacement, when there is one, gets the node's parent; and when the
    node was the root the container's [remove] makes the replacement the
    root. *)
Theorem remove_with_missing_child (s : store) (n : loc) (nd : Node) :
  well_formed s → in_tree s n → nodes s !! n = Some nd →
  leftChild nd = None ∨ rightChild nd = None →
  ∃ h',
    Node_remove n (nodes s) =
      (Ret (match rightChild nd with
            | None => leftChild nd
            | Some _ => rightChild nd
            end), h') ∧
    link_becomes (nodes s) h' n
      (match rightChild nd with
       | None => leftChild nd
       | Some _ => rightChild nd
       end) ∧
    (∀ m, match rightChild nd with
          | None => leftChild nd
          | Some _ => rightChild nd
          end = Some m →
          ∃ m_nd, h' !! m = Some m_nd ∧ parent m_nd = parent nd) ∧
    (is_root (nodes s) n →
       root (snd (BinarySearchTree_remove (key nd) s)) =
       match rightChild nd with
       | None => leftChild nd
       | Some _ => rightChild nd
       end).
Proof.
  intros (t & Hs) Hin Hnd Hchild.
  apply (in_tree_addrs _ _ _ Hs) in Hin.
  destruct (addrs_decompose _ _ Hin) as (c & l & k & v & r & ->).
  destruct (remove_represents s c l n k v r Hs)
    as (h' & Hrun & Hn' & Htree & Hs').
  pose proof Hs as (Hroot & Hrep & Hbst & _).
  pose proof (rep_NoDup _ _ _ Hrep Hbst) as Hndp.
  pose proof Hrep as ((Hn & _) & Hctx)%rep_plug.
  pose proof Hndp as (_ & _ & Hd)%NoDup_plug.
  assert (n ∉ ctx_before c ++ ctx_after c) as Hnc.
  { apply Hd. simpl. rewrite elem_of_app, elem_of_cons. auto. }
  rewrite Hn in Hnd. injection Hnd as <-. cbn [leftChild rightChild parent key] in *.
  assert (remove_root (ctx_left c) (Br l n k v r) =
          match r with Leaf => l | _ => r end) as Et.
  { destruct r; [done|]. destruct l; [done|].
    simpl in Hchild. by destruct Hchild. }
  rewrite Et in *. clear Et.
  assert (root_of (match r with Leaf => l | _ => r end) =
          match root_of r with None => root_of l | Some _ => root_of r end)
    as Eo by by destruct r.
  rewrite Eo in *.
  destruct Hs' as (_ & (Hsub' & Hctx')%rep_plug & _). rewrite Eo in Hctx'.
  exists h'. split_and!.
  - done.
  - by eapply ctx_link_becomes.
  - intros m Hm. rewrite <- Eo in Hm.
    destruct (rep_root_lookup _ _ _ _ Hsub' Hm) as (m_nd & ? & ?).
    by exists m_nd.
  - intros (nd' & Hnd' & Hp'). rewrite Hn in Hnd'. injection Hnd' as <-.
    simpl in Hp'. rewrite Htree. simpl. destruct c; [|done].
    rewrite decide_True; [done|]. by rewrite Hroot.
Qed.

(** X11.  On every tree built from the empty tree by insert and remove calls
    the links are consistent: the root has no parent; the left and right
    child of a node of the tree are distinct nodes whose [parent] is that
    node; and the left child's key is below the node's key, the right
    child's above. *)
Theorem links_consistent (ops : list op) :
  let s := run ops empty_tree in
  (∀ r, root s = Some r →
     ∃ nd, nodes s !! r = Some nd ∧ parent nd = None) ∧
  (∀ n, in_tree s n →
     ∃ nd, nodes s !! n = Some nd ∧
       (∀ c, leftChild nd = Some c →
          ∃ c_nd, nodes s !! c = Some c_nd ∧ parent c_nd = Some n ∧
                  key c_nd < key nd ∧ in_tree s c) ∧
       (∀ c, rightChild nd = Some c →
          ∃ c_nd, nodes s !! c = Some c_nd ∧ parent c_nd = Some n ∧
                  key nd < key c_nd ∧ in_tree s c) ∧
       (∀ c, leftChild nd = Some c → rightChild nd ≠ Some c)).
Proof.
  intros s.
  destruct (run_well_formed ops _ empty_tree_well_formed) as (t & Hs).
  fold s in Hs. split.
  - intros a Ha. destruct Hs as (Hroot & Hrep & _). rewrite Hroot in Ha.
    by eapply rep_root_lookup.
  - intros n Hin.
    destruct (in_tree_subtree s t n Hs Hin)
      as (c & l & k & v & r & Et & (Hn & Hl & Hr) & Hctx & Hbst & Hnd & _).
    destruct Hbst as (_ & _ & Fl & Fr). rewrite Forall_forall in Fl, Fr.
    apply NoDup_Br in Hnd as (_ & _ & Hnl & Hnr & Hd).
    assert (∀ x, x ∈ addrs (Br l n k v r) → in_tree s x) as Hsub.
    { intros x Hx. apply (in_tree_addrs _ _ _ Hs). rewrite Et, addrs_plug.
      rewrite !elem_of_app. auto. }
    eexists. split; [exact Hn|]. simpl. split_and!.
    + intros a Ha. destruct l as [|ll a' ka va lr]; [done|].
      injection Ha as ->. destruct Hl as (Ha & _).
      eexists. split; [exact Ha|]. simpl. split_and!; [done| |].
      * apply Fl. simpl. rewrite elem_of_app, elem_of_cons. auto.
      * apply Hsub. simpl.
        repeat (rewrite elem_of_app || rewrite elem_of_cons). tauto.
    + intros a Ha. destruct r as [|rl a' ka va rr]; [done|].
      injection Ha as ->. destruct Hr as (Ha & _).
      eexists. split; [exact Ha|]. simpl. split_and!; [done| |].
      * apply Fr. simpl. rewrite elem_of_app, elem_of_cons. auto.
      * apply Hsub. simpl.
        repeat (rewrite elem_of_app || rewrite elem_of_cons). tauto.
    + intros a Hl' Hr'. apply root_of_addrs in Hl', Hr'. by apply (Hd a).
Qed.

Lemma reparent_lookup (h : heap) node p x :
  reparent node p h !! x =
  if decide (node = Some x) then set_parent p <$> h !! x else h !! x.
Proof.
  unfold reparent. destruct node as [c|].
  - destruct (decide (Some c = Some x)) as [[= ->]|Hne].
    + by rewrite list_lookup_alter_eq.
    + rewrite list_lookup_alter_ne; [done|]. congruence.
  - by rewrite decide_False.
Qed.

Lemma length_reparent (h : heap) node p :
  length (reparent node p h) = length h.
Proof. unfold reparent. destruct node; [apply length_alter|done]. Qed.

(** X12.  [replaceWith] assigns to two fields at most: the [parent] of the
    given node, which becomes this node's parent, and the link of this
    node's parent that held this node (the left one if it is this node,
    else the right one), which becomes the given node.  Every object of the
    heap is afterwards, field for field, what these two assignments make of
    it: the children of the given node, the other link and the [parent] of
    the parent, every key and value, and every other object (this node among
    them, when it is neither the given node nor its own parent) are as
    before. *)
Theorem replaceWith_effect (h : heap) (this : loc) (node : option loc)
    (this_nd : Node) :
  h !! this = Some this_nd →
  (∀ c, node = Some c → is_Some (h !! c)) →
  (∀ pa, parent this_nd = Some pa → is_Some (h !! pa)) →
  ∃ h',
    Node_replaceWith this node h = (Ret tt, h') ∧
    length h' = length h ∧
    (∀ x, pair_at h' x = pair_at h x) ∧
    (∀ x, node ≠ Some x → parent this_nd ≠ Some x → h' !! x = h !! x) ∧
    (∀ c c_nd, node = Some c → h !! c = Some c_nd →
       ∃ c_nd', h' !! c = Some c_nd' ∧ parent c_nd' = parent this_nd ∧
         (parent this_nd ≠ Some c →
            leftChild c_nd' = leftChild c_nd ∧
            rightChild c_nd' = rightChild c_nd)) ∧
    (∀ pa p_nd, parent this_nd = Some pa → h !! pa = Some p_nd →
       ∃ p_nd', h' !! pa = Some p_nd' ∧
         if decide (leftChild p_nd = Some this)
         then leftChild p_nd' = node ∧ rightChild p_nd' = rightChild p_nd
         else rightChild p_nd' = node ∧ leftChild p_nd' = leftChild p_nd) ∧
    (∀ x x_nd, h !! x = Some x_nd →
       h' !! x =
       Some (let a := if decide (node = Some x)
                      then set_parent (parent this_nd) x_nd else x_nd in
             if decide (parent this_nd = Some x) then
               if decide (leftChild x_nd = Some this)
               then set_leftChild node a else set_rightChild node a
             else a)).
Proof.
  intros Hthis Hnode Hpar.
  pose proof (Node_replaceWith_eq h this node this_nd Hthis Hnode Hpar) as Hrun.
  eexists. split; [exact Hrun|].
  split.
  { unfold relink. destruct (parent this_nd) as [pa|];
      [|apply length_reparent].
    destruct (reparent node (Some pa) h !! pa) as [p_nd|];
      [|apply length_reparent].
    destruct (decide (leftChild p_nd = Some this));
      by rewrite length_alter, length_reparent. }
  split; [by eapply keeps_pairs_replaceWith|].
  set (p := parent this_nd) in *.
  assert (∀ pa p_nd, p = Some pa → h !! pa = Some p_nd →
            ∃ q, reparent node p h !! pa = Some q ∧
                 leftChild q = leftChild p_nd ∧
                 rightChild q = rightChild p_nd ∧
                 (node ≠ Some pa → q = p_nd)) as Hpa.
  { intros pa p_nd _ Hp. rewrite reparent_lookup, Hp.
    destruct (decide (node = Some pa)); eexists; (split; [done|]); done. }
  split_and!.
  - intros x Hx1 Hx2. unfold relink. destruct p as [pa|].
    + destruct (reparent node (Some pa) h !! pa) as [p_nd|].
      * destruct (decide (leftChild p_nd = Some this));
          (rewrite list_lookup_alter_ne by congruence);
          rewrite reparent_lookup; by rewrite decide_False.
      * rewrite reparent_lookup. by rewrite decide_False.
    + rewrite reparent_lookup. by rewrite decide_False.
  - intros c c_nd -> Hc. unfold relink. destruct p as [pa|].
    + destruct (Hpar pa eq_refl) as [p_nd Hp].
      destruct (Hpa pa p_nd eq_refl Hp) as (q & Hq & Hql & Hqr & Hqe).
      rewrite Hq.
      assert (reparent (Some c) (Some pa) h !! c =
              Some (set_parent (Some pa) c_nd)) as Hc'.
      { rewrite reparent_lookup, decide_True by done. by rewrite Hc. }
      destruct (decide (pa = c)) as [->|Hne].
      * destruct (decide (leftChild q = Some this));
          rewrite list_lookup_alter_eq, Hc'; eexists;
          (split; [done|]); (split; [done|]); intros; congruence.
      * destruct (decide (leftChild q = Some this));
          rewrite list_lookup_alter_ne, Hc' by done; eexists;
          (split; [done|]); done.
    + rewrite reparent_lookup, decide_True by done. rewrite Hc.
      eexists. split; [done|]. done.
  - intros pa p_nd Ep Hp. unfold relink. rewrite Ep.
    destruct (Hpa pa p_nd Ep Hp) as (q & Hq & Hql & Hqr & Hqe).
    rewrite Ep in Hq. rewrite Hq. rewrite <- Hql.
    destruct (decide (leftChild q = Some this));
      rewrite list_lookup_alter_eq, Hq; eexists; (split; [done|]); simpl;
      split; congruence.
  - intros x x_nd Hx. unfold relink. cbv zeta.
    assert (reparent node p h !! x =
            Some (if decide (node = Some x) then set_parent p x_nd
                  else x_nd)) as Hrx.
    { rewrite reparent_lookup, Hx. by destruct (decide (node = Some x)). }
    destruct p as [pa|];
      [|by rewrite Hrx, (decide_False (P := None = Some x))].
    destruct (Hpar pa eq_refl) as [p_nd Hp].
    destruct (Hpa pa p_nd eq_refl Hp) as (q & Hq & Hql & Hqr & Hqe).
    rewrite Hq.
    destruct (decide (pa = x)) as [->|Hne].
    + rewrite Hx in Hp. injection Hp as <-.
      rewrite Hrx in Hq. injection Hq as <-.
      rewrite (decide_True (P := Some x = Some x)) by done.
      rewrite Hql.
      destruct (decide (leftChild x_nd = Some this));
        by rewrite list_lookup_alter_eq, Hrx.
    + rewrite (decide_False (P := Some pa = Some x)) by congruence.
      destruct (decide (leftChild q = Some this));
        by rewrite list_lookup_alter_ne, Hrx.
Qed.

(** X13.  [adoptLeftChild] throws a [TypeError] and assigns nothing when the
    given node has no left child; otherwise it makes that child the left
    child of this node and this node the child's parent, and leaves every
    other object, every key and every value as they were.  [adoptRightChild]
    does the same on the right. *)
Theorem adopt_effect (h : heap) (this node : loc) (node_nd : Node) :
  h !! node = Some node_nd → is_Some (h !! this) →
  (∀ c, leftChild node_nd = Some c ∨ rightChild node_nd = Some c →
        is_Some (h !! c)) →
  match leftChild node_nd with
  | None => Node_adoptLeftChild this node h = (Throw TypeError, h)
  | Some c =>
      ∃ h' c_nd this_nd,
        Node_adoptLeftChild this node h = (Ret tt, h') ∧
        h' !! c = Some c_nd ∧ parent c_nd = Some this ∧
        h' !! this = Some this_nd ∧ leftChild this_nd = Some c ∧
        (∀ x, x ≠ c → x ≠ this → h' !! x = h !! x) ∧
        (∀ x, pair_at h' x = pair_at h x)
  end ∧
  match rightChild node_nd with
  | None => Node_adoptRightChild this node h = (Throw TypeError, h)
  | Some c =>
      ∃ h' c_nd this_nd,
        Node_adoptRightChild this node h = (Ret tt, h') ∧
        h' !! c = Some c_nd ∧ parent c_nd = Some this ∧
        h' !! this = Some this_nd ∧ rightChild this_nd = Some c ∧
        (∀ x, x ≠ c → x ≠ this → h' !! x = h !! x) ∧
        (∀ x, pair_at h' x = pair_at h x)
  end.
Proof.
  intros Hnode [t_nd Ht] Hc. split.
  - destruct (leftChild node_nd) as [c|] eqn:El.
    + destruct (Hc c (or_introl eq_refl)) as [c_nd Hcn].
      pose proof (Node_adoptLeftChild_eq h this node node_nd c Hnode El
                    (ex_intro _ _ Hcn) (ex_intro _ _ Ht)) as Hrun.
      destruct (decide (c = this)) as [->|Hne].
      * eexists _, _, _. split; [exact Hrun|]. split_and!.
        -- by rewrite list_lookup_alter_eq, list_lookup_alter_eq, Ht.
        -- done.
        -- by rewrite list_lookup_alter_eq, list_lookup_alter_eq, Ht.
        -- done.
        -- intros x Hx _. by rewrite !list_lookup_alter_ne.
        -- by eapply keeps_pairs_adoptLeftChild.
      * eexists _, _, _. split; [exact Hrun|]. split_and!.
        -- rewrite list_lookup_alter_ne, list_lookup_alter_eq, Hcn by done.
           done.
        -- done.
        -- rewrite list_lookup_alter_eq, list_lookup_alter_ne, Ht by done.
           done.
        -- done.
        -- intros x Hx1 Hx2. by rewrite !list_lookup_alter_ne.
        -- by eapply keeps_pairs_adoptLeftChild.
    + unfold Node_adoptLeftChild.
      rewrite (bind_Ret _ _ _ _ _ (load_Some _ _ _ Hnode)). by rewrite El.
  - destruct (rightChild node_nd) as [c|] eqn:El.
    + destruct (Hc c (or_intror eq_refl)) as [c_nd Hcn].
      pose proof (Node_adoptRightChild_eq h this node node_nd c Hnode El
                    (ex_intro _ _ Hcn) (ex_intro _ _ Ht)) as Hrun.
      destruct (decide (c = this)) as [->|Hne].
      * eexists _, _, _. split; [exact Hrun|]. split_and!.
        -- by rewrite list_lookup_alter_eq, list_lookup_alter_eq, Ht.
        -- done.
        -- by rewrite list_lookup_alter_eq, list_lookup_alter_eq, Ht.
        -- done.
        -- intros x Hx _. by rewrite !list_lookup_alter_ne.
        -- by eapply keeps_pairs_adoptRightChild.
      * eexists _, _, _. split; [exact Hrun|]. split_and!.
        -- rewrite list_lookup_alter_ne, list_lookup_alter_eq, Hcn by done.
           done.
        -- done.
        -- rewrite list_lookup_alter_eq, list_lookup_alter_ne, Ht by done.
           done.
        -- done.
        -- intros x Hx1 Hx2. by rewrite !list_lookup_alter_ne.
        -- by eapply keeps_pairs_adoptRightChild.
    + unfold Node_adoptRightChild.
      rewrite (bind_Ret _ _ _ _ _ (load_Some _ _ _ Hnode)). by rewrite El.
Qed.

Lemma insert_loop_dangling fuel k v a (h : heap) :
  h !! a = None → insert_loop (S fuel) k v a h = (Throw TypeError, h).
Proof.
  intros Ha. simpl. unfold bind at 1, load, lift, read. by rewrite Ha.
Qed.

(** X14.  [Node.insert] either returns or assigns nothing.  When it returns,
    the result is a newly created object, a childless node with the given
    key and value; its parent is a node that had no child on the side where
    the key belongs (left when the key is below the parent's key, right when
    above), and that one link of the parent, now holding the new node, is
    the only field of an existing object that changed. *)
Theorem Node_insert_effect (h : heap) (this : loc) (k : Z) (v : V)
    (r : outcome loc) (h' : heap) :
  Node_insert this k v h = (r, h') →
  match r with
  | Ret n =>
      n = length h ∧
      ∃ p p_nd, h !! p = Some p_nd ∧
        ((k < key p_nd ∧ leftChild p_nd = None ∧
          h' = alter (set_leftChild (Some n)) p
                 (h ++ [mkNode k v (Some p) None None])) ∨
         (key p_nd < k ∧ rightChild p_nd = None ∧
          h' = alter (set_rightChild (Some n)) p
                 (h ++ [mkNode k v (Some p) None None])))
  | _ => h' = h
  end.
Proof.
  unfold Node_insert. generalize (length h) at 1 as fuel. intros fuel.
  revert this r h'. induction fuel as [|fuel IH]; intros a r h' E.
  - simpl in E. by injection E as <- <-.
  - destruct (h !! a) as [nd|] eqn:Ha.
    + rewrite (insert_loop_step _ _ _ _ _ _ Ha) in E.
      destruct (Z.ltb_spec k (key nd)) as [Hlt|Hge].
      * destruct (leftChild nd) as [l|] eqn:El; [by eapply IH|].
        injection E as <- <-. split; [done|]. exists a, nd. auto.
      * rewrite Z.gtb_ltb in E.
        destruct (Z.ltb_spec (key nd) k) as [Hgt|Hle].
        -- destruct (rightChild nd) as [c|] eqn:Er; [by eapply IH|].
           injection E as <- <-. split; [done|]. exists a, nd. auto.
        -- by injection E as <- <-.
    + rewrite (insert_loop_dangling _ _ _ _ _ Ha) in E.
      by injection E as <- <-.
Qed.

Lemma insert_keeps_pairs (s s' : store) (k : Z) (v : V) r :
  BinarySearchTree_insert k v s = (r, s') →
  ∀ x, (x < length (nodes s))%nat → pair_at (nodes s') x = pair_at (nodes s) x.
Proof.
  unfold BinarySearchTree_insert. destruct (root s) as [a|].
  - destruct (Node_insert a k v (nodes s)) as [o h'] eqn:Ei.
    pose proof (Node_insert_effect _ _ _ _ _ _ Ei) as He.
    intros E x Hx.
    assert (nodes s' = h') as -> by (destruct o; by injection E as _ <-).
    destruct o as [n|e|]; [|by subst..].
    destruct He as (-> & p & p_nd & Hp & [(_ & _ & ->)|(_ & _ & ->)]);
      unfold pair_at;
      (destruct (decide (p = x)) as [->|Hne];
       [rewrite list_lookup_alter_eq, lookup_app_l, Hp by done; done
       |rewrite list_lookup_alter_ne, lookup_app_l by done; done]).
  - simpl. intros [= _ <-] x Hx. simpl. unfold pair_at.
    by rewrite lookup_app_l.
Qed.

(** X16.  Removing a key unlinks exactly the node that held it: the
    traversal afterwards visits the same nodes as before, in the same order,
    without that node, which is no longer reachable from the root. *)
Theorem remove_unlinks_node (s : store) (k : Z) :
  well_formed s → has_key s k →
  ∃ s' n before after,
    BinarySearchTree_get s k = Ret (Some n) ∧
    BinarySearchTree_remove k s = (Ret Undefined, s') ∧
    visited s = Ret (before ++ n :: after) ∧
    visited s' = Ret (before ++ after) ∧
    ¬ in_tree s' n.
Proof.
  intros (t & Hs) Hk. apply (has_key_keys _ _ _ Hs) in Hk.
  pose proof Hs as (_ & Hrep & Hbst & _).
  destruct (tfind_keys _ _ Hbst Hk) as [n Hf].
  pose proof (get_represents s t k Hs) as Hget. rewrite Hf in Hget.
  destruct (tfind_plug _ _ _ Hf) as (c & l & v & r & ->).
  destruct (remove_represents s c l n k v r Hs)
    as (h' & Hrun & Hn' & Htree & Hs').
  pose proof (rep_NoDup _ _ _ Hrep Hbst) as Hnd.
  eexists _, n, (ctx_before c ++ addrs l), (addrs r ++ ctx_after c).
  split_and!; [done|exact Htree|..].
  - rewrite (visited_represents _ _ Hs), addrs_plug. simpl.
    by rewrite <- !app_assoc.
  - rewrite (visited_represents _ _ Hs'), addrs_plug.
    destruct (remove_root_inorder (ctx_left c) l n k v r) as (-> & _ & _).
    by rewrite <- !app_assoc.
  - intros Hin. apply (in_tree_addrs _ _ _ Hs') in Hin.
    apply addrs_after_remove in Hin as (_ & Hne); done.
Qed.

(** X17.  Inserting a new key links exactly one new node: the traversal
    afterwards visits the nodes it visited before, in the same order, with
    the created node at its place among them, that is, after the nodes with
    smaller keys and before the nodes with larger keys; the created node
    holds the given key and value, and every node that was in the tree is
    still in it and has the key and the value it had. *)
Theorem insert_links_node (s : store) (k : Z) (v : V) :
  well_formed s → ¬ has_key s k →
  ∃ s' before after,
    BinarySearchTree_insert k v s = (Ret Undefined, s') ∧
    visited s = Ret (before ++ after) ∧
    visited s' = Ret (before ++ length (nodes s) :: after) ∧
    pair_at (nodes s') (length (nodes s)) = Some (k, v) ∧
    Forall (λ a, ∃ ka, key_at (nodes s') a = Some ka ∧ ka < k) before ∧
    Forall (λ a, ∃ ka, key_at (nodes s') a = Some ka ∧ k < ka) after ∧
    (∀ x, in_tree s x →
          in_tree s' x ∧ pair_at (nodes s') x = pair_at (nodes s) x).
Proof.
  intros (t & Hs) Hk.
  assert (tfind t k = None) as Hf.
  { apply tfind_None. intros Hin. by apply Hk, (has_key_keys _ _ _ Hs). }
  pose proof (insert_represents s t k v Hs) as Hi. rewrite Hf in Hi.
  destruct Hi as (s' & Hi & Hs').
  destruct (tinsert_plug t (length (nodes s)) k v Hf) as (c & Et & Et').
  pose proof Hs' as (_ & Hrep' & Hbst' & _).
  pose proof (rep_keys_Forall2 _ _ _ Hrep') as HF.
  apply bst_sorted in Hbst'.
  rewrite Et' in Hrep'. apply rep_plug in Hrep' as ((Hn & _) & _).
  rewrite Et' in HF at 1. rewrite addrs_plug in HF. simpl in HF.
  destruct (sorted_run_split _ _ _ _ _ HF Hbst') as (kn & Hkn & Hb & Ha).
  assert (kn = k) as ->.
  { unfold key_at in Hkn. rewrite Hn in Hkn. by injection Hkn. }
  exists s', (ctx_before c), (ctx_after c). split_and!; [done|..].
  - by rewrite (visited_represents _ _ Hs), Et, addrs_plug.
  - by rewrite (visited_represents _ _ Hs'), Et', addrs_plug.
  - unfold pair_at. by rewrite Hn.
  - done.
  - done.
  - intros x Hx. apply (in_tree_addrs _ _ _ Hs) in Hx as Hx'. split.
    + apply (in_tree_addrs _ _ _ Hs'). rewrite Et', addrs_plug.
      rewrite Et, addrs_plug in Hx'. simpl in *.
      rewrite !elem_of_app, ?elem_of_cons in *. tauto.
    + eapply insert_keeps_pairs; [exact Hi|].
      destruct Hs as (_ & Hrep & _). by eapply rep_lt_length.
Qed.

End BinarySearchTree.

(** ** The properties at concrete trees *)

(** C1 at the scenario tree, followed by three more calls. *)
Lemma traverse_ascending_witness :
  ∃ vis ks,
    visited (run [Remove 5; Insert 6 0; Remove 3] (demo 0)) = Ret vis ∧
    NoDup vis ∧
    (∀ x, in_tree (run [Remove 5; Insert 6 0; Remove 3] (demo 0)) x ↔
          x ∈ vis) ∧
    Forall2 (λ a k,
               key_at (nodes (run [Remove 5; Insert 6 0; Remove 3] (demo 0)))
                 a = Some k) vis ks ∧
    visited_keys (run [Remove 5; Insert 6 0; Remove 3] (demo 0)) = Ret ks ∧
    length ks = length vis ∧
    StronglySorted Z.lt ks.
Proof.
  apply (traverse_ascending (demo 0) [Remove 5; Insert 6 0; Remove 3]).
  apply demo_well_formed.
Defined.


(** C4 as stated fails for a bare [Node.remove] of the root: in the tree with
    keys 5, 2, 8, 3 the root's predecessor, node 3, takes the root's place,
    and the container's [root] still refers to the removed node, from which
    node 3 cannot be reached. *)
Lemma node_remove_of_root_hides_replacement :
  well_formed (small 0) ∧ in_tree (small 0) 0%nat ∧ in_tree (small 0) 3%nat ∧
  3%nat ≠ 0%nat ∧
  ∃ h', Node_remove 0%nat (nodes (small 0)) = (Ret (Some 3%nat), h') ∧
        ¬ reachable h' (root (small 0)) 3%nat.
Proof.
  split; [apply small_well_formed|].
  split; [apply small_in_tree; lia|].
  split; [apply small_in_tree; lia|].
  split; [lia|].
  eexists. split; [vm_compute; reflexivity|].
  intros (a & [= <-] & Hr).
  assert (∀ a x, rtc (child
            [mkNode 5 0 None (Some 1%nat) (Some 2%nat);
             mkNode 2 0 (Some 3%nat) None None;
             mkNode 8 0 (Some 3%nat) None None;
             mkNode 3 0 None (Some 1%nat) (Some 2%nat)]) a x →
          (a < 3)%nat → (x < 3)%nat) as Hclosed.
  { clear. induction 1 as [a|a b x (nd & Hnd & Hc) _ IH]; [done|].
    intros Ha. apply IH.
    destruct a as [|[|[|a]]]; [| | |lia]; injection Hnd as <-; simpl in Hc;
      destruct Hc as [[= <-]|[= <-]]; lia. }
  specialize (Hclosed _ _ Hr). lia.
Qed.

(** C4 as amended, at the root of the scenario tree. *)
Lemma remove_keeps_other_nodes_witness :
  ∃ k replacement h',
    key_at (nodes (demo 0)) 0%nat = Some k ∧
    Node_remove 0%nat (nodes (demo 0)) = (Ret replacement, h') ∧
    BinarySearchTree_remove k (demo 0) =
      (Ret Undefined,
       mkStore (if decide (root (demo 0) = Some 0%nat) then replacement
                else root (demo 0))
               (numNodes (demo 0) - 1) h') ∧
    (∀ x, pair_at h' x = pair_at (nodes (demo 0)) x) ∧
    (∀ x, in_tree (demo 0) x → x ≠ 0%nat →
          reachable h' (if decide (root (demo 0) = Some 0%nat)
                        then replacement else root (demo 0)) x).
Proof.
  apply (remove_keeps_other_nodes (demo 0) 0%nat).
  - apply demo_well_formed.
  - apply demo_in_tree. lia.
Defined.

(** C6 at the scenario tree and the key 4. *)
Lemma insert_duplicate_fails_witness :
  fst (BinarySearchTree_insert 4 1 (demo 0)) = Throw (DuplicateKeyError 4) ∧
  snd (BinarySearchTree_insert 4 1 (demo 0)) = demo 0 ∧
  BinarySearchTree_size (snd (BinarySearchTree_insert 4 1 (demo 0))) =
    BinarySearchTree_size (demo 0) ∧
  visited_pairs (snd (BinarySearchTree_insert 4 1 (demo 0))) =
    visited_pairs (demo 0).
Proof.
  apply (insert_duplicate_fails (demo 0) 4 1).
  - apply demo_well_formed.
  - apply demo_has_key. set_solver.
Defined.

(** C7 at the scenario tree: the key 99 is not in it, the key 5 is. *)
Lemma remove_missing_or_present_witness :
  BinarySearchTree_remove 99 (demo 0) = (Throw KeyNotFoundError, demo 0) ∧
  ∃ s', BinarySearchTree_remove 5 (demo 0) = (Ret Undefined, s').
Proof.
  split.
  - apply (remove_missing_or_present (demo 0) 99).
    + apply demo_well_formed.
    + rewrite demo_has_key, !elem_of_cons, elem_of_nil. lia.
  - apply (remove_missing_or_present (demo 0) 5).
    + apply demo_well_formed.
    + rewrite demo_has_key, !elem_of_cons. auto.
Defined.

(** C8 at the root of the scenario tree. *)
Lemma predecessor_successor_inverse_witness :
  (∃ o, Node_predecessor (nodes (demo 0)) 0%nat = Ret o) ∧
  (∃ o, Node_successor (nodes (demo 0)) 0%nat = Ret o) ∧
  (∀ m, Node_predecessor (nodes (demo 0)) 0%nat = Ret (Some m) →
        Node_successor (nodes (demo 0)) m = Ret (Some 0%nat)) ∧
  (∀ m, Node_successor (nodes (demo 0)) 0%nat = Ret (Some m) →
        Node_predecessor (nodes (demo 0)) m = Ret (Some 0%nat)).
Proof.
  apply (predecessor_successor_inverse (demo 0) 0%nat).
  - apply demo_well_formed.
  - apply demo_in_tree. lia.
Defined.

(** C9 at the scenario tree and the key 6. *)
Lemma insert_then_remove_witness :
  ∃ s1 s2 kvs,
    BinarySearchTree_insert 6 1 (demo 0) = (Ret Undefined, s1) ∧
    BinarySearchTree_remove 6 s1 = (Ret Undefined, s2) ∧
    visited_pairs (demo 0) = Ret kvs ∧ visited_pairs s2 = Ret kvs.
Proof.
  apply (insert_then_remove (demo 0) 6 1).
  - apply demo_well_formed.
  - rewrite demo_has_key, !elem_of_cons, elem_of_nil. lia.
Defined.

(** C10 at the root of the scenario tree. *)
Lemma remove_leaves_node_unchanged_witness :
  ∃ replacement h',
    Node_remove 0%nat (nodes (demo 0)) = (Ret replacement, h') ∧
    h' !! 0%nat = nodes (demo 0) !! 0%nat.
Proof.
  apply (remove_leaves_node_unchanged (demo 0) 0%nat).
  - apply demo_well_formed.
  - apply demo_in_tree. lia.
Defined.

(** ** The further properties at concrete trees *)

(** X1 at the scenario tree, with a callback that sums the references. *)
Lemma traverse_calls_back_in_order_witness :
  ∃ vis ks,
    visited (demo 0) = Ret vis ∧ NoDup vis ∧
    (∀ x, in_tree (demo 0) x ↔ x ∈ vis) ∧
    Forall2 (λ a k, key_at (nodes (demo 0)) a = Some k) vis ks ∧
    StronglySorted Z.lt ks ∧
    (root (demo 0) = None → vis = []) ∧
    BinarySearchTree_traverse (demo 0) (λ a acc, (a + acc)%nat) 0%nat =
      Ret (foldl (λ acc a, (a + acc)%nat) 0%nat vis).
Proof.
  apply (traverse_calls_back_in_order (demo 0) (λ a acc, (a + acc)%nat) 0%nat).
  apply demo_well_formed.
Defined.

(** X2 at the scenario tree. *)
Lemma min_max_are_ends_witness :
  ∃ vis, visited (demo 0) = Ret vis ∧
         BinarySearchTree_min (demo 0) = Ret (head vis) ∧
         BinarySearchTree_max (demo 0) = Ret (last vis).
Proof.
  destruct (min_max_are_ends (demo 0) (demo_well_formed 0))
    as (vis & ? & ? & ? & _).
  by exists vis.
Defined.

(** X3 at the scenario tree: the key 4 is in it, the key 99 is not. *)
Lemma get_finds_key_witness :
  (∃ n, BinarySearchTree_get (demo 0) 4 = Ret (Some n) ∧ in_tree (demo 0) n ∧
        key_at (nodes (demo 0)) n = Some 4) ∧
  BinarySearchTree_get (demo 0) 99 = Ret None.
Proof.
  split.
  - apply (get_finds_key (demo 0) 4).
    + apply demo_well_formed.
    + rewrite demo_has_key, !elem_of_cons. auto.
  - apply (get_finds_key (demo 0) 99).
    + apply demo_well_formed.
    + rewrite demo_has_key, !elem_of_cons, elem_of_nil. lia.
Defined.

(** X4 at the scenario tree and the key 6. *)
Lemma insert_then_get_witness :
  ∃ s' nd,
    BinarySearchTree_insert 6 1 (demo 0) = (Ret Undefined, s') ∧
    well_formed s' ∧
    BinarySearchTree_size s' = BinarySearchTree_size (demo 0) + 1 ∧
    BinarySearchTree_get s' 6 = Ret (Some (length (nodes (demo 0)))) ∧
    nodes s' !! length (nodes (demo 0)) = Some nd ∧
    key nd = 6 ∧ value nd = 1 ∧ leftChild nd = None ∧ rightChild nd = None ∧
    (∀ k', k' ≠ 6 →
           BinarySearchTree_get s' k' = BinarySearchTree_get (demo 0) k').
Proof.
  apply (insert_then_get (demo 0) 6 1).
  - apply demo_well_formed.
  - rewrite demo_has_key, !elem_of_cons, elem_of_nil. lia.
Defined.

(** X5 at the scenario tree and the key 5, held by the root. *)
Lemma remove_then_get_witness :
  ∃ s',
    BinarySearchTree_remove 5 (demo 0) = (Ret Undefined, s') ∧
    well_formed s' ∧
    BinarySearchTree_size s' = BinarySearchTree_size (demo 0) - 1 ∧
    BinarySearchTree_get s' 5 = Ret None ∧
    (∀ k', k' ≠ 5 →
           BinarySearchTree_get s' k' = BinarySearchTree_get (demo 0) k').
Proof.
  apply (remove_then_get (demo 0) 5).
  - apply demo_well_formed.
  - rewrite demo_has_key, !elem_of_cons. auto.
Defined.

(** X6 at the scenario tree, followed by a removal, an insertion and a
    repeated insertion. *)
Lemma container_refines_sorted_list_witness :
  ∃ l, visited_pairs (demo 0) = Ret l ∧
       visited_pairs (run [Remove 5; Insert 6 1; Insert 3 2] (demo 0)) =
         Ret (foldl model_step l [Remove 5; Insert 6 1; Insert 3 2]).
Proof.
  apply (container_refines_sorted_list (demo 0)
           [Remove 5; Insert 6 1; Insert 3 2]).
  apply demo_well_formed.
Defined.

(** X7 at the root of the scenario tree. *)
Lemma predecessor_successor_are_neighbours_witness :
  ∃ before after,
    visited (demo 0) = Ret (before ++ 0%nat :: after) ∧
    Node_predecessor (nodes (demo 0)) 0%nat = Ret (last before) ∧
    Node_successor (nodes (demo 0)) 0%nat = Ret (head after).
Proof.
  apply (predecessor_successor_are_neighbours (demo 0) 0%nat).
  - apply demo_well_formed.
  - apply demo_in_tree. lia.
Defined.

(** X8 at node 1 of the scenario tree, the root of the subtree with the keys
    1, 3 and 4. *)
Lemma subtree_traverse_min_max_witness :
  ∃ sub ks m1 m2 before after,
    visited (demo 0) = Ret (before ++ sub ++ after) ∧
    NoDup sub ∧
    (∀ x, x ∈ sub ↔ rtc (child (nodes (demo 0))) 1%nat x) ∧
    Forall2 (λ a k, key_at (nodes (demo 0)) a = Some k) sub ks ∧
    StronglySorted Z.lt ks ∧
    (∀ (A : Type) (callback : nat → A → A) (acc : A),
       Node_traverse (nodes (demo 0)) 1%nat callback acc =
       Ret (foldl (λ acc a, callback a acc) acc sub)) ∧
    Node_min (nodes (demo 0)) 1%nat = Ret m1 ∧ head sub = Some m1 ∧
    Node_max (nodes (demo 0)) 1%nat = Ret m2 ∧ last sub = Some m2.
Proof.
  apply (subtree_traverse_min_max (demo 0) 1%nat).
  - apply demo_well_formed.
  - apply demo_in_tree. lia.
Defined.

(** X9 at node 1 of the scenario tree and the key 4. *)
Lemma Node_get_searches_subtree_witness :
  ∃ o, Node_get (nodes (demo 0)) 1%nat 4 = Ret o ∧
       ∀ m, o = Some m ↔
            rtc (child (nodes (demo 0))) 1%nat m ∧
            key_at (nodes (demo 0)) m = Some 4.
Proof.
  apply (Node_get_searches_subtree (demo 0) 1%nat 4).
  - apply demo_well_formed.
  - apply demo_in_tree. lia.
Defined.

(** X10 at node 3 of the scenario tree, the leaf with the key 1. *)
Lemma remove_with_missing_child_witness :
  ∃ h',
    Node_remove 3%nat (nodes (demo 0)) = (Ret None, h') ∧
    link_becomes (nodes (demo 0)) h' 3%nat None.
Proof.
  destruct (remove_with_missing_child (demo 0) 3%nat
              (mkNode 1 0 (Some 1%nat) None None))
    as (h' & Hrun & Hlink & _).
  - apply demo_well_formed.
  - apply demo_in_tree. lia.
  - reflexivity.
  - left. reflexivity.
  - exists h'. split; [exact Hrun|exact Hlink].
Defined.

(** X12 on the heap of the scenario tree: node 1 replaced by node 3. *)
Lemma replaceWith_effect_witness :
  ∃ h',
    Node_replaceWith 1%nat (Some 3%nat) (nodes (demo 0)) = (Ret tt, h') ∧
    length h' = length (nodes (demo 0)) ∧
    h' !! 1%nat = nodes (demo 0) !! 1%nat ∧
    h' !! 0%nat = Some (mkNode 5 0 None (Some 3%nat) (Some 2%nat)) ∧
    h' !! 3%nat = Some (mkNode 1 0 (Some 0%nat) None None).
Proof.
  destruct (replaceWith_effect (nodes (demo 0)) 1%nat (Some 3%nat)
              (mkNode 3 0 (Some 0%nat) (Some 3%nat) (Some 4%nat)))
    as (h' & Hrun & Hlen & _ & Hframe & _ & _ & Hall).
  - reflexivity.
  - intros c [= <-]. eexists. reflexivity.
  - intros pa [= <-]. eexists. reflexivity.
  - exists h'. split; [exact Hrun|]. split; [exact Hlen|]. split.
    + apply Hframe; simpl; congruence.
    + split.
      * apply (Hall 0%nat (mkNode 5 0 None (Some 1%nat) (Some 2%nat))).
        reflexivity.
      * apply (Hall 3%nat (mkNode 1 0 (Some 1%nat) None None)).
        reflexivity.
Defined.

(** X13 on the heap of the scenario tree: node 4, a leaf, adopts the
    children of node 1; node 3, a leaf, has no children to give. *)
Lemma adopt_effect_witness :
  (∃ h' c_nd this_nd,
     Node_adoptLeftChild 4%nat 1%nat (nodes (demo 0)) = (Ret tt, h') ∧
     h' !! 3%nat = Some c_nd ∧ parent c_nd = Some 4%nat ∧
     h' !! 4%nat = Some this_nd ∧ leftChild this_nd = Some 3%nat ∧
     (∀ x, x ≠ 3%nat → x ≠ 4%nat → h' !! x = nodes (demo 0) !! x) ∧
     (∀ x, pair_at h' x = pair_at (nodes (demo 0)) x)) ∧
  Node_adoptLeftChild 4%nat 3%nat (nodes (demo 0)) =
    (Throw TypeError, nodes (demo 0)).
Proof.
  split.
  - apply (adopt_effect (nodes (demo 0)) 4%nat 1%nat
             (mkNode 3 0 (Some 0%nat) (Some 3%nat) (Some 4%nat))).
    + reflexivity.
    + eexists. reflexivity.
    + intros c [[= <-]|[= <-]]; eexists; reflexivity.
  - apply (adopt_effect (nodes (demo 0)) 4%nat 3%nat
             (mkNode 1 0 (Some 1%nat) None None)).
    + reflexivity.
    + eexists. reflexivity.
    + intros c [[=]|[=]].
Defined.

(** X14 on the heap of the scenario tree: inserting the key 6 below the
    root. *)
Lemma Node_insert_effect_witness :
  ∃ p p_nd, nodes (demo 0) !! p = Some p_nd ∧
    ((6 < key p_nd ∧ leftChild p_nd = None ∧
      snd (Node_insert 0%nat 6 1 (nodes (demo 0))) =
        alter (set_leftChild (Some 7%nat)) p
          (nodes (demo 0) ++ [mkNode 6 1 (Some p) None None])) ∨
     (key p_nd < 6 ∧ rightChild p_nd = None ∧
      snd (Node_insert 0%nat 6 1 (nodes (demo 0))) =
        alter (set_rightChild (Some 7%nat)) p
          (nodes (demo 0) ++ [mkNode 6 1 (Some p) None None]))).
Proof.
  apply (Node_insert_effect (nodes (demo 0)) 0%nat 6 1 (Ret 7%nat)
           (snd (Node_insert 0%nat 6 1 (nodes (demo 0))))).
  reflexivity.
Defined.

(** X16 at the scenario tree and the key 5. *)
Lemma remove_unlinks_node_witness :
  ∃ s' n before after,
    BinarySearchTree_get (demo 0) 5 = Ret (Some n) ∧
    BinarySearchTree_remove 5 (demo 0) = (Ret Undefined, s') ∧
    visited (demo 0) = Ret (before ++ n :: after) ∧
    visited s' = Ret (before ++ after) ∧
    ¬ in_tree s' n.
Proof.
  apply (remove_unlinks_node (demo 0) 5).
  - apply demo_well_formed.
  - rewrite demo_has_key, !elem_of_cons. auto.
Defined.

(** X17 at the scenario tree and the key 6. *)
Lemma insert_links_node_witness :
  ∃ s' before after,
    BinarySearchTree_insert 6 1 (demo 0) = (Ret Undefined, s') ∧
    visited (demo 0) = Ret (before ++ after) ∧
    visited s' = Ret (before ++ length (nodes (demo 0)) :: after) ∧
    pair_at (nodes s') (length (nodes (demo 0))) = Some (6, 1) ∧
    Forall (λ a, ∃ ka, key_at (nodes s') a = Some ka ∧ ka < 6) before ∧
    Forall (λ a, ∃ ka, key_at (nodes s') a = Some ka ∧ 6 < ka) after ∧
    (∀ x, in_tree (demo 0) x →
          in_tree s' x ∧
          pair_at (nodes s') x = pair_at (nodes (demo 0)) x).
Proof.
  apply (insert_links_node (demo 0) 6 1).
  - apply demo_well_formed.
  - rewrite demo_has_key, !elem_of_cons, elem_of_nil. lia.
Defined.
